(** * goatools/obo_parser.py: the OBO reader and the GO DAG

    A shallow embedding of [OBOReader], [GOTerm], [TypeDef] and [GODag]
    from [src/goatools/obo_parser.py], and the properties of the parser,
    of graph assembly ([GODag.populate_terms]), of [GODag.paths_to_top],
    of the methods of [GOTerm] that walk the graph and of
    [GODag.update_association].

    Conventions of the embedding.
    - Python objects that are shared and mutated ([GOTerm] instances) live
      in a heap, a [list GOTerm.t] indexed by address; object identity is
      equality of addresses.
    - A Python [dict] is an association list in insertion order.
    - A Python [set] is a duplicate-free list; its iteration order, which
      Python leaves unspecified, is the insertion order here.
    - Python [int] is [Z].
    - Code that can raise runs in a state-and-exception monad: the heap
      survives an exception, as Python objects do.
    - A character of a text is a code point below 256; white space is what
      [str.isspace] and the pattern class [\s] accept among these, and
      [lower] is [str.lower] on them. *)

From Stdlib Require Import ZArith String Ascii DecimalString.
From stdpp Require Import base tactics option list.

Local Open Scope string_scope.
Local Open Scope list_scope.

(** ** Strings, as the parser uses them *)

Definition nl : string := String "010"%char EmptyString.

(** White space: the controls 9 to 13 and 28 to 31, the space, the next
    line control (133) and the no-break space (160). *)
Definition is_space (c : ascii) : bool :=
  let n := nat_of_ascii c in
  (((9 <=? n) && (n <=? 13)) || ((28 <=? n) && (n <=? 32))
   || (n =? 133) || (n =? 160))%nat.

(** The capital letters: A to Z, and 192 to 222 but for the
    multiplication sign (215); each is 32 below its small letter. *)
Definition lower_ascii (c : ascii) : ascii :=
  let n := nat_of_ascii c in
  if (((65 <=? n) && (n <=? 90))
      || ((192 <=? n) && (n <=? 222) && negb (n =? 215)))%nat
  then ascii_of_nat (n + 32) else c.

(** [s.lower()] *)
Fixpoint lower (s : string) : string :=
  match s with
  | EmptyString => EmptyString
  | String c s' => String (lower_ascii c) (lower s')
  end.

(** [s[0:n]] *)
Definition slice_to (n : nat) (s : string) : string := substring 0 n s.

(** [s[n:-1]] *)
Definition slice_from_but_last (n : nat) (s : string) : string :=
  substring n (String.length s - n - 1) s.

Fixpoint all_space (s : string) : bool :=
  match s with
  | EmptyString => true
  | String c s' => is_space c && all_space s'
  end.

(** [s.rstrip()] *)
Fixpoint rstrip (s : string) : string :=
  match s with
  | EmptyString => EmptyString
  | String c s' => if all_space s then EmptyString else String c (rstrip s')
  end.

(** [s.lstrip()] *)
Fixpoint lstrip (s : string) : string :=
  match s with
  | EmptyString => EmptyString
  | String c s' => if is_space c then lstrip s' else s
  end.

(** [c in s] for a one-character [c] *)
Fixpoint contains_char (c : ascii) (s : string) : bool :=
  match s with
  | EmptyString => false
  | String c' s' => Ascii.eqb c c' || contains_char c s'
  end.

(** [s.split(c)[0]]: the text before the first [c] *)
Fixpoint before_char (c : ascii) (s : string) : string :=
  match s with
  | EmptyString => EmptyString
  | String c' s' => if Ascii.eqb c c' then EmptyString else String c' (before_char c s')
  end.

(** [s.split(c)] for a one-character separator: every separator cuts, so
    consecutive separators give empty pieces. *)
Fixpoint split_char (c : ascii) (s : string) : list string :=
  match s with
  | EmptyString => [EmptyString]
  | String c' s' =>
      if Ascii.eqb c c' then EmptyString :: split_char c s'
      else match split_char c s' with
           | [] => [String c' EmptyString]
           | w :: ws => String c' w :: ws
           end
  end.

(** The first piece of [s.split()], for an [s] that starts with a
    non-space character. *)
Fixpoint first_word (s : string) : string :=
  match s with
  | EmptyString => EmptyString
  | String c s' => if is_space c then EmptyString else String c (first_word s')
  end.

(** [s.split()[0]]; [None] is Python's [IndexError] on an all-space [s]. *)
Definition split_ws_0 (s : string) : option string :=
  match lstrip s with
  | EmptyString => None
  | t => Some (first_word t)
  end.

(** [s1 in l] for a list of strings *)
Definition str_in (s : string) (l : list string) : bool :=
  existsb (String.eqb s) l.


(** [str(n)] *)
Definition str_of_nat (n : nat) : string := NilZero.string_of_uint (Nat.to_uint n).

(** *** The field pattern

    The source matches a field line against the regular expression made
    of: start of text, a group of one or more non-space characters, a
    colon, any number of space characters, a group of one non-space
    character followed by any characters, end of text.
    [re_value] matches the part after the colon: all
    leading space is skipped, a character must remain, and since [.] stops
    at a newline and [$] accepts only the end of the text or a last
    newline, the rest may hold a newline only as its last character.
    [re_field] tries the colons of the leading run of non-space characters
    from the last to the first, as the greedy first group backtracks. *)

Fixpoint dot_star_end (s : string) : option string :=
  match s with
  | EmptyString => Some EmptyString
  | String c s' =>
      if Ascii.eqb c "010"%char then
        match s' with EmptyString => Some EmptyString | _ => None end
      else option_map (String c) (dot_star_end s')
  end.

Definition re_value (s : string) : option string :=
  match lstrip s with
  | EmptyString => None
  | t => dot_star_end t
  end.

Fixpoint re_field_from (name : string) (s : string) : option (string * string) :=
  match s with
  | EmptyString => None
  | String c s' =>
      if is_space c then None
      else match re_field_from (name ++ String c EmptyString)%string s' with
           | Some r => Some r
           | None =>
               if Ascii.eqb c ":"%char && negb (String.eqb name EmptyString)
               then option_map (pair name) (re_value s')
               else None
           end
  end.

(** [re.match] of the field pattern on [line], as [(group(1), group(2))] *)
Definition re_field (line : string) : option (string * string) :=
  re_field_from EmptyString line.

(** ** Exceptions and results *)

Inductive exn : Type :=
| Exception (msg : string)
| KeyError (key : string)
| AttributeError
| TypeError
| ValueError
| IndexError
| RuntimeError
| RecursionError
| SystemError.

Inductive result (A : Type) : Type :=
| Ok (a : A)
| Raise (e : exn).
Arguments Ok {A} a.
Arguments Raise {A} e.

#[global] Instance result_ret : MRet result := fun A a => Ok a.
#[global] Instance result_bind : MBind result := fun A B f m =>
  match m with
  | Ok a => f a
  | Raise e => Raise e
  end.

(** ** Python dictionaries, in insertion order *)

Section dict.
Context {V : Type}.

Definition dict : Type := list (string * V).

Fixpoint dict_get (k : string) (d : dict) : option V :=
  match d with
  | [] => None
  | (k', v) :: d' => if String.eqb k k' then Some v else dict_get k d'
  end.

(** [d[k] = v]: an existing key keeps its place. *)
Fixpoint dict_set (k : string) (v : V) (d : dict) : dict :=
  match d with
  | [] => [(k, v)]
  | (k', v') :: d' =>
      if String.eqb k k' then (k, v) :: d' else (k', v') :: dict_set k v d'
  end.

(** [del d[k]] *)
Fixpoint dict_del (k : string) (d : dict) : dict :=
  match d with
  | [] => []
  | (k', v') :: d' =>
      if String.eqb k k' then dict_del k d' else (k', v') :: dict_del k d'
  end.

Definition dict_keys (d : dict) : list string := map fst d.
Definition dict_values (d : dict) : list V := map snd d.
Definition dict_in (k : string) (d : dict) : bool :=
  match dict_get k d with Some _ => true | None => false end.
End dict.
Arguments dict V : clear implicits.

(** A Python [set]: [s.add(x)] *)
Definition set_add {A} (eqb : A -> A -> bool) (x : A) (s : list A) : list A :=
  if existsb (eqb x) s then s else s ++ [x].

(** [s.update(xs)] and [set(xs)] *)
Definition set_update {A} (eqb : A -> A -> bool) (s xs : list A) : list A :=
  fold_left (fun acc x => set_add eqb x acc) xs s.
Definition set_of_list {A} (eqb : A -> A -> bool) (xs : list A) : list A :=
  set_update eqb [] xs.

(** ** The record model *)

(** Values of the attributes that [update_rec] and [populate_terms] add to
    a [GOTerm] at run time. *)
Inductive attr_val : Type :=
| VStr (s : string)
| VSet (xs : list string)
| VDictList (d : dict (list string))   (* defaultdict(list): _relationship *)
| VDictSet (d : dict (list nat)).      (* defaultdict(set) of Terms: relationship *)

Module GOTerm.
Record t : Type := mk {
  id : string;
  name : string;
  namespace : string;
  _parents : list string;      (* is_a strings of parents *)
  parents : list nat;          (* parent records *)
  children : list nat;         (* children records *)
  level : option Z;            (* shortest distance from root node *)
  depth : option Z;            (* longest distance from root node *)
  is_obsolete : bool;
  alt_ids : list string;
  dyn : dict attr_val          (* attributes added after __init__ *)
}.

(** [GOTerm()] *)
Definition init : t :=
  mk EmptyString EmptyString EmptyString [] [] [] None None false [] [].

Definition set_id v r := mk v (name r) (namespace r) (_parents r) (parents r)
  (children r) (level r) (depth r) (is_obsolete r) (alt_ids r) (dyn r).
Definition set_name v r := mk (id r) v (namespace r) (_parents r) (parents r)
  (children r) (level r) (depth r) (is_obsolete r) (alt_ids r) (dyn r).
Definition set_namespace v r := mk (id r) (name r) v (_parents r) (parents r)
  (children r) (level r) (depth r) (is_obsolete r) (alt_ids r) (dyn r).
Definition set__parents v r := mk (id r) (name r) (namespace r) v (parents r)
  (children r) (level r) (depth r) (is_obsolete r) (alt_ids r) (dyn r).
Definition set_parents v r := mk (id r) (name r) (namespace r) (_parents r) v
  (children r) (level r) (depth r) (is_obsolete r) (alt_ids r) (dyn r).
Definition set_children v r := mk (id r) (name r) (namespace r) (_parents r)
  (parents r) v (level r) (depth r) (is_obsolete r) (alt_ids r) (dyn r).
Definition set_level v r := mk (id r) (name r) (namespace r) (_parents r)
  (parents r) (children r) v (depth r) (is_obsolete r) (alt_ids r) (dyn r).
Definition set_depth v r := mk (id r) (name r) (namespace r) (_parents r)
  (parents r) (children r) (level r) v (is_obsolete r) (alt_ids r) (dyn r).
Definition set_is_obsolete v r := mk (id r) (name r) (namespace r) (_parents r)
  (parents r) (children r) (level r) (depth r) v (alt_ids r) (dyn r).
Definition set_alt_ids v r := mk (id r) (name r) (namespace r) (_parents r)
  (parents r) (children r) (level r) (depth r) (is_obsolete r) v (dyn r).
Definition set_dyn v r := mk (id r) (name r) (namespace r) (_parents r)
  (parents r) (children r) (level r) (depth r) (is_obsolete r) (alt_ids r) v.

(** The names every instance answers to before any attribute is added:
    the attributes set by the constructor, the methods of the class, and
    those of [object] (which vary a little with the Python version). *)
Definition builtin_attrs : list string :=
  [ "id"; "name"; "namespace"; "_parents"; "parents"; "children"; "level";
    "depth"; "is_obsolete"; "alt_ids";
    "has_parent"; "has_child"; "get_all_parents"; "get_all_children";
    "get_all_parent_edges"; "get_all_child_edges"; "write_hier_rec";
    "__str__"; "__repr__"; "__init__"; "__doc__"; "__module__"; "__dict__";
    "__weakref__"; "__class__"; "__delattr__"; "__dir__"; "__eq__";
    "__format__"; "__ge__"; "__getattribute__"; "__gt__"; "__hash__";
    "__init_subclass__"; "__le__"; "__lt__"; "__ne__"; "__new__";
    "__reduce__"; "__reduce_ex__"; "__setattr__"; "__sizeof__";
    "__subclasshook__" ].

(** [hasattr(rec, name)] *)
Definition hasattr (r : t) (nm : string) : bool :=
  str_in nm builtin_attrs || dict_in nm (dyn r).
End GOTerm.

Module TypeDef.
Record t : Type := mk {
  id : string;
  name : string;
  transitive_over : list string;   (* list of other typedefs *)
  inverse_of : string              (* name of inverse typedef *)
}.

(** [TypeDef()] *)
Definition init : t := mk EmptyString EmptyString [] EmptyString.

Definition set_id v r := mk v (name r) (transitive_over r) (inverse_of r).
Definition set_name v r := mk (id r) v (transitive_over r) (inverse_of r).
Definition set_transitive_over v r := mk (id r) (name r) v (inverse_of r).
Definition set_inverse_of v r := mk (id r) (name r) (transitive_over r) v.
End TypeDef.

(** ** The stream parser: class OBOReader *)

Module OBOReader.
Record t : Type := mk {
  obo_file : string;
  optional_attrs : list string;
  format_version : option string;   (* "format-version:" line *)
  data_version : option string;     (* "data-version:" line *)
  typedefs : dict TypeDef.t
}.

Definition set_format_version v r :=
  mk (obo_file r) (optional_attrs r) v (data_version r) (typedefs r).
Definition set_data_version v r :=
  mk (obo_file r) (optional_attrs r) (format_version r) v (typedefs r).
Definition set_typedefs v r :=
  mk (obo_file r) (optional_attrs r) (format_version r) (data_version r) v.
End OBOReader.

(** The three attribute tables of [_init_optional_attrs]. *)
Definition attrs_req : list string :=
  ["id"; "alt_id"; "name"; "namespace"; "is_a"; "is_obsolete"].
Definition attrs_scalar : list string :=
  ["comment"; "defn"; "is_class_level"; "is_metadata_tag"; "is_transitive";
   "transitive_over"].
Definition attrs_nested : list string := ["relationship"].

(** The [optional_attrs] argument: [None], a [str], a [list] or [set] of
    names, or anything else. *)
Inductive optional_attrs_arg : Type :=
| ArgNone
| ArgStr (s : string)
| ArgNames (l : list string)
| ArgOther.

Definition fnc (aopt : string) : string :=
  if negb (String.eqb aopt "defn") then aopt else "def".

Definition _init_optional_attrs (arg : optional_attrs_arg) : result (list string) :=
  match arg with
  | ArgNone => Ok []
  | ArgStr s => Ok (if negb (str_in s attrs_req) then [fnc s] else [])
  | ArgNames l =>
      Ok (set_of_list String.eqb
            (map fnc (List.filter (fun f => negb (str_in f attrs_req)) l)))
  | ArgOther => Raise (Exception "optional_attrs arg MUST BE A str, list, or set.")
  end.

(** [OBOReader(obo_file, optional_attrs)]. The file is taken to exist: its
    lines are handed to [__iter__] below. *)
Definition OBOReader_init (obo_file : string) (arg : optional_attrs_arg)
  : result OBOReader.t :=
  oa ← _init_optional_attrs arg;
  Ok (OBOReader.mk obo_file oa None None []).

Definition die_msg (file : string) (lnum : nat) (msg : string) : string :=
  ("**FATAL " ++ file ++ "(" ++ str_of_nat lnum ++ "): " ++ msg ++ nl)%string.

Definition _die {A} (self : OBOReader.t) (msg : string) (lnum : nat) : result A :=
  Raise (Exception (die_msg (OBOReader.obo_file self) lnum msg)).

(** [_chk_none]: the fields it guards hold strings, and the test
    [init_val is ""] is taken as equality with the empty string. *)
Definition _chk_none (self : OBOReader.t) (init_val : string) (lnum : nat)
  : result unit :=
  if String.eqb init_val EmptyString then Ok tt
  else _die self "FIELD IS ALREADY INITIALIZED" lnum.

Definition _init_obo_version (self : OBOReader.t) (line : string) : OBOReader.t :=
  let self :=
    if String.eqb (slice_to 14 line) "format-version"
    then OBOReader.set_format_version (Some (slice_from_but_last 16 line)) self
    else self in
  if String.eqb (slice_to 12 line) "data-version"
  then OBOReader.set_data_version (Some (slice_from_but_last 14 line)) self
  else self.

Definition not_terminated_msg (name : string) : string :=
  ("PREVIOUS " ++ name ++ " WAS NOT TERMINATED AS EXPECTED")%string.

Definition _init_goterm_ref (self : OBOReader.t) (rec_curr : option GOTerm.t)
    (name : string) (lnum : nat) : result GOTerm.t :=
  match rec_curr with
  | None => Ok GOTerm.init
  | Some _ => _die self (not_terminated_msg name) lnum
  end.

(** [_init_typedef] tests whatever it is given against [None]; its caller
    decides what that is, so the argument is of any type. *)
Definition _init_typedef {A} (self : OBOReader.t) (typedef_curr : option A)
    (name : string) (lnum : nat) : result TypeDef.t :=
  match typedef_curr with
  | None => Ok TypeDef.init
  | Some _ => _die self (not_terminated_msg name) lnum
  end.

(** [_add_nested(rec, name, value)] *)
Definition _add_nested (rec : GOTerm.t) (name value : string) : result GOTerm.t :=
  match split_char " " (rstrip (before_char "!" value)) with
  | [typedef; target_term] =>
      match dict_get name (GOTerm.dyn rec) with
      | Some (VDictList d) =>
          let old := default [] (dict_get typedef d) in
          Ok (GOTerm.set_dyn
                (dict_set name (VDictList (dict_set typedef (old ++ [target_term]) d))
                   (GOTerm.dyn rec)) rec)
      | Some (VDictSet _) => Raise AttributeError
      | Some (VStr _) | Some (VSet _) => Raise TypeError
      | None => Raise AttributeError
      end
  | _ => Raise ValueError
  end.

(** [str(v)] of an attribute value, for the message of [update_rec]. Only
    the [VStr] case is ever reached: an attribute with a scalar name is
    only ever bound to a string. The other cases follow the shape of
    Python's [repr] without its quoting rules. *)
Definition str_of_strs (xs : list string) : string :=
  String.concat ", " (map (fun x => "'" ++ x ++ "'")%string xs).
Definition str_of_attr_val (v : attr_val) : string :=
  match v with
  | VStr s => s
  | VSet xs => ("{" ++ str_of_strs xs ++ "}")%string
  | VDictList d => ("defaultdict(<class 'list'>, {" ++ str_of_strs (dict_keys d) ++ "})")%string
  | VDictSet d => ("defaultdict(<class 'set'>, {" ++ str_of_strs (dict_keys d) ++ "})")%string
  end.

Definition already_set_msg (name val : string) : string :=
  ("ATTR(" ++ name ++ ") ALREADY SET(" ++ val ++ ")")%string.

(** [update_rec(rec, name, value)] *)
Definition update_rec (self : OBOReader.t) (rec : GOTerm.t) (name value : string)
  : result GOTerm.t :=
  let name := if String.eqb name "def" then "defn" else name in
  if GOTerm.hasattr rec name then
    if negb (str_in name attrs_scalar) then
      if negb (str_in name attrs_nested) then
        (* getattr(rec, name).add(value) *)
        match dict_get name (GOTerm.dyn rec) with
        | Some (VSet xs) =>
            Ok (GOTerm.set_dyn
                  (dict_set name (VSet (set_add String.eqb value xs)) (GOTerm.dyn rec))
                  rec)
        | _ => Raise AttributeError
        end
      else _add_nested rec name value
    else
      Raise (Exception (already_set_msg name
               (match dict_get name (GOTerm.dyn rec) with
                | Some v => str_of_attr_val v
                | None => EmptyString
                end)))
  else
    if str_in name attrs_scalar then
      Ok (GOTerm.set_dyn (dict_set name (VStr value) (GOTerm.dyn rec)) rec)
    else if negb (str_in name attrs_nested) then
      Ok (GOTerm.set_dyn (dict_set name (VSet [value]) (GOTerm.dyn rec)) rec)
    else
      let name := ("_" ++ name)%string in
      _add_nested
        (GOTerm.set_dyn (dict_set name (VDictList []) (GOTerm.dyn rec)) rec)
        name value.

(** [_add_to_ref(rec_curr, line, lnum)] *)
Definition _add_to_ref (self : OBOReader.t) (rec_curr : GOTerm.t) (line : string)
    (lnum : nat) : result GOTerm.t :=
  match re_field line with
  | Some (field_name, field_value) =>
      if String.eqb field_name "id" then
        _chk_none self (GOTerm.id rec_curr) lnum;;
        Ok (GOTerm.set_id field_value rec_curr)
      else if String.eqb field_name "alt_id" then
        Ok (GOTerm.set_alt_ids (GOTerm.alt_ids rec_curr ++ [field_value]) rec_curr)
      else if String.eqb field_name "name" then
        _chk_none self (GOTerm.name rec_curr) lnum;;
        Ok (GOTerm.set_name field_value rec_curr)
      else if String.eqb field_name "namespace" then
        _chk_none self (GOTerm.namespace rec_curr) lnum;;
        Ok (GOTerm.set_namespace field_value rec_curr)
      else if String.eqb field_name "is_a" then
        match split_ws_0 field_value with
        | Some p => Ok (GOTerm.set__parents (GOTerm._parents rec_curr ++ [p]) rec_curr)
        | None => Raise IndexError
        end
      else if String.eqb field_name "is_obsolete" && String.eqb field_value "true" then
        Ok (GOTerm.set_is_obsolete true rec_curr)
      else if str_in field_name (OBOReader.optional_attrs self) then
        update_rec self rec_curr field_name field_value
      else Ok rec_curr
  | None =>
      _die self ("UNEXPECTED FIELD CONTENT: " ++ line ++ nl)%string lnum
  end.

(** [_add_to_typedef(typedef_curr, line, lnum)] *)
Definition _add_to_typedef (self : OBOReader.t) (typedef_curr : TypeDef.t)
    (line : string) (lnum : nat) : result TypeDef.t :=
  match re_field line with
  | Some (field_name, group2) =>
      let field_value := rstrip (before_char "!" group2) in
      if String.eqb field_name "id" then
        _chk_none self (TypeDef.id typedef_curr) lnum;;
        Ok (TypeDef.set_id field_value typedef_curr)
      else if String.eqb field_name "name" then
        _chk_none self (TypeDef.name typedef_curr) lnum;;
        Ok (TypeDef.set_name field_value typedef_curr)
      else if String.eqb field_name "transitive_over" then
        Ok (TypeDef.set_transitive_over
              (TypeDef.transitive_over typedef_curr ++ [field_value]) typedef_curr)
      else if String.eqb field_name "inverse_of" then
        _chk_none self (TypeDef.inverse_of typedef_curr) lnum;;
        Ok (TypeDef.set_inverse_of field_value typedef_curr)
      else Ok typedef_curr
  | None =>
      _die self ("UNEXPECTED FIELD CONTENT: " ++ line ++ nl)%string lnum
  end.

(** *** [OBOReader.__iter__]

    The generator, run to its end: [yielded] collects the records in the
    order they are yielded. An exception ends the iteration. *)

Record iter_state : Type := mk_iter_state {
  reader : OBOReader.t;
  rec_curr : option GOTerm.t;        (* stores current GO Term *)
  typedef_curr : option TypeDef.t;   (* stores current typedef *)
  yielded : list GOTerm.t
}.

Definition is_Some_b {A} (o : option A) : bool :=
  match o with Some _ => true | None => false end.

Definition iter_start (self : OBOReader.t) : iter_state :=
  mk_iter_state self None None [].

(** [if self.data_version is None: self._init_obo_version(line)]: the
    reader as the rest of the loop body sees it. *)
Definition versioned (st : iter_state) (line : string) : OBOReader.t :=
  match OBOReader.data_version (reader st) with
  | None => _init_obo_version (reader st) line
  | Some _ => reader st
  end.

(** [line[0:6].lower() == "[term]"] and [line[0:9].lower() == "[typedef]"] *)
Definition is_term_header (line : string) : bool :=
  String.eqb (lower (slice_to 6 line)) "[term]".
Definition is_typedef_header (line : string) : bool :=
  String.eqb (lower (slice_to 9 line)) "[typedef]".

(** The body of the [for lnum, line in enumerate(fstream)] loop. *)
Definition iter_line (st : iter_state) (lnum : nat) (line : string)
  : result iter_state :=
  let self := versioned st line in
  if is_term_header line then
    r ← _init_goterm_ref self (rec_curr st) "Term" lnum;
    Ok (mk_iter_state self (Some r) (typedef_curr st) (yielded st))
  else if is_typedef_header line then
    (* the source hands rec_curr, not typedef_curr, to _init_typedef *)
    t ← _init_typedef self (rec_curr st) "Typedef" lnum;
    Ok (mk_iter_state self (rec_curr st) (Some t) (yielded st))
  else if is_Some_b (rec_curr st) || is_Some_b (typedef_curr st) then
    let line := rstrip line in   (* chomp *)
    if contains_char ":" line then
      match rec_curr st with
      | Some r =>
          r' ← _add_to_ref self r line lnum;
          Ok (mk_iter_state self (Some r') (typedef_curr st) (yielded st))
      | None =>
          match typedef_curr st with
          | Some t =>
              t' ← _add_to_typedef self t line lnum;
              Ok (mk_iter_state self None (Some t') (yielded st))
          | None => Raise AttributeError
          end
      end
    else if String.eqb line EmptyString then
      match rec_curr st with
      | Some r =>
          (* yield rec_curr *)
          Ok (mk_iter_state self None (typedef_curr st) (yielded st ++ [r]))
      | None =>
          match typedef_curr st with
          | Some t =>
              (* Save typedef. *)
              Ok (mk_iter_state
                    (OBOReader.set_typedefs
                       (dict_set (TypeDef.id t) t (OBOReader.typedefs self)) self)
                    None None (yielded st))
          | None => Ok (mk_iter_state self None None (yielded st))
          end
      end
    else _die self ("UNEXPECTED LINE CONTENT: " ++ line)%string lnum
  else Ok (mk_iter_state self (rec_curr st) (typedef_curr st) (yielded st)).

Fixpoint iter_lines (st : iter_state) (lnum : nat) (lines : list string)
  : result iter_state :=
  match lines with
  | [] => Ok st
  | line :: rest =>
      st' ← iter_line st lnum line;
      iter_lines st' (S lnum) rest
  end.

(** The whole iteration over the lines of the file: the reader as the
    iteration leaves it, and the records yielded. After the loop, a Term
    that is still open is yielded; nothing is done for a Typedef. *)
Definition OBOReader_iter (self : OBOReader.t) (lines : list string)
  : result (OBOReader.t * list GOTerm.t) :=
  st ← iter_lines (iter_start self) 0 lines;
  (* Return last record, if necessary *)
  match rec_curr st with
  | Some r => Ok (reader st, yielded st ++ [r])
  | None => Ok (reader st, yielded st)
  end.

(** ** The heap of Terms and the monad of graph assembly

    A Term object is an address into the heap. An address outside the heap
    is no Python object: reading one raises [SystemError], which no run
    from a loaded graph reaches. *)

Abbreviation heap := (list GOTerm.t).

Definition M (A : Type) : Type := heap -> heap * result A.

#[global] Instance M_ret : MRet M := fun A a h => (h, Ok a).
#[global] Instance M_bind : MBind M := fun A B f m h =>
  match m h with
  | (h', Ok a) => f a h'
  | (h', Raise e) => (h', Raise e)
  end.

Definition raise {A} (e : exn) : M A := fun h => (h, Raise e).

(** Read the object at an address. *)
Definition deref (a : nat) : M GOTerm.t := fun h =>
  match h !! a with
  | Some t => (h, Ok t)
  | None => (h, Raise SystemError)
  end.

(** Mutate the object at an address. *)
Definition modify (a : nat) (f : GOTerm.t -> GOTerm.t) : M unit := fun h =>
  (alter f a h, Ok tt).

(** [for x in l: body(x)] *)
Fixpoint forM {A} (l : list A) (body : A -> M unit) : M unit :=
  match l with
  | [] => mret tt
  | x :: l' => body x;; forM l' body
  end.

(** [[f(x) for x in l]], and a generator consumed to its end *)
Fixpoint list_comp {A B} (f : A -> M B) (l : list A) : M (list B) :=
  match l with
  | [] => mret []
  | x :: l' => y ← f x; ys ← list_comp f l'; mret (y :: ys)
  end.

(** [min(xs)] and [max(xs)]: [ValueError] on an empty sequence *)
Definition py_min (xs : list Z) : M Z :=
  match xs with
  | [] => raise ValueError
  | x :: xs' => mret (fold_left Z.min xs' x)
  end.
Definition py_max (xs : list Z) : M Z :=
  match xs with
  | [] => raise ValueError
  | x :: xs' => mret (fold_left Z.max xs' x)
  end.

(** [x in l] for a list of Term objects: a Term equals only itself. *)
Definition term_in (x : nat) (l : list nat) : bool := existsb (Nat.eqb x) l.

(** ** class GODag *)

Module GODag.
(** The [dict] that a [GODag] is, from identifier to Term, and the
    attributes [load_obo_file] adds. The version string it also formats
    is not part of the model. *)
Record t : Type := mk {
  terms : dict nat;
  typedefs : dict TypeDef.t;
  optional_attrs : list string
}.
End GODag.

(** [self[x]] *)
Definition getitem (self : GODag.t) (x : string) : M nat :=
  match dict_get x (GODag.terms self) with
  | Some a => mret a
  | None => raise (KeyError x)
  end.

(** [self.values()] *)
Definition values (self : GODag.t) : list nat := dict_values (GODag.terms self).

(** [_init_level], local to [populate_terms]. [fuel] bounds the depth of
    the recursion, as the interpreter's recursion limit does. *)
Fixpoint _init_level (fuel : nat) (rec : nat) : M Z :=
  match fuel with
  | 0 => raise RecursionError
  | S fuel =>
      r ← deref rec;
      match GOTerm.level r with
      | None =>
          match GOTerm.parents r with
          | [] =>
              modify rec (GOTerm.set_level (Some 0%Z));;
              mret 0%Z
          | ps =>
              ls ← list_comp (_init_level fuel) ps;
              m ← py_min ls;
              modify rec (GOTerm.set_level (Some (m + 1)%Z));;
              mret (m + 1)%Z
          end
      | Some l => mret l
      end
  end.

(** [_init_depth], local to [populate_terms] *)
Fixpoint _init_depth (fuel : nat) (rec : nat) : M Z :=
  match fuel with
  | 0 => raise RecursionError
  | S fuel =>
      r ← deref rec;
      match GOTerm.depth r with
      | None =>
          match GOTerm.parents r with
          | [] =>
              modify rec (GOTerm.set_depth (Some 0%Z));;
              mret 0%Z
          | ps =>
              ds ← list_comp (_init_depth fuel) ps;
              m ← py_max ds;
              modify rec (GOTerm.set_depth (Some (m + 1)%Z));;
              mret (m + 1)%Z
          end
      | Some d => mret d
      end
  end.

(** Attribute access on the object at an address. *)
Definition setattr (a : nat) (name : string) (v : attr_val) : M unit :=
  modify a (fun r => GOTerm.set_dyn (dict_set name v (GOTerm.dyn r)) r).
Definition delattr (a : nat) (name : string) : M unit :=
  modify a (fun r => GOTerm.set_dyn (dict_del name (GOTerm.dyn r)) r).

(** [rec.relationship], a [defaultdict(set)]. Only [populate_terms] binds
    this name, and only to such a dictionary; for any other value the
    accesses below end in an exception, taken to be [AttributeError]. *)
Definition get_relationship (a : nat) : M (dict (list nat)) :=
  r ← deref a;
  match dict_get "relationship" (GOTerm.dyn r) with
  | Some (VDictSet d) => mret d
  | _ => raise AttributeError
  end.

(** [rec.relationship[key]]: a missing key is first bound to an empty set. *)
Definition relationship_getitem (a : nat) (key : string) : M (list nat) :=
  d ← get_relationship a;
  match dict_get key d with
  | Some s => mret s
  | None => setattr a "relationship" (VDictSet (dict_set key [] d));; mret []
  end.

(** [rec.relationship[key].update(ts)], [rec.relationship[key]] already
    evaluated *)
Definition relationship_update (a : nat) (key : string) (ts : list nat) : M unit :=
  d ← get_relationship a;
  setattr a "relationship"
    (VDictSet (dict_set key (set_update Nat.eqb (default [] (dict_get key d)) ts) d)).

(** [term.relationship[key].add(rec)] *)
Definition relationship_add (a : nat) (key : string) (rec : nat) : M unit :=
  relationship_getitem a key;;
  relationship_update a key [rec].

(** [self.typedefs[typedef]] *)
Definition typedefs_getitem (self : GODag.t) (typedef : string) : M TypeDef.t :=
  match dict_get typedef (GODag.typedefs self) with
  | Some td => mret td
  | None => raise (KeyError typedef)
  end.

(** [if hasattr(rec, '_relationship'): ...]: the raw relationship targets
    become references under [rec.relationship]. *)
Definition resolve_relationship (self : GODag.t) (rec : nat) : M unit :=
  r ← deref rec;
  if GOTerm.hasattr r "_relationship" then
    setattr rec "relationship" (VDictSet []);;
    match dict_get "_relationship" (GOTerm.dyn r) with
    | Some (VDictList raw) =>
        forM raw (fun '(typedef, terms) =>
          relationship_getitem rec typedef;;
          ts ← list_comp (getitem self) terms;
          relationship_update rec typedef (set_of_list Nat.eqb ts))
    | _ => raise AttributeError
    end;;
    delattr rec "_relationship"
  else mret tt.

(** The first loop of [populate_terms], for one [rec]: make parents and
    relationships references to the actual GO terms. *)
Definition resolve_references (self : GODag.t) (rec : nat) : M unit :=
  r ← deref rec;
  ps ← list_comp (getitem self) (GOTerm._parents r);
  modify rec (GOTerm.set_parents ps);;
  resolve_relationship self rec.

(** [if rec not in parent.children: parent.children.append(rec)] *)
Definition add_child (rec parent : nat) : M unit :=
  p ← deref parent;
  if negb (term_in rec (GOTerm.children p))
  then modify parent (fun p => GOTerm.set_children (GOTerm.children p ++ [rec]) p)
  else mret tt.

(** [for parent in rec.parents: ...]: populate children *)
Definition populate_children (rec : nat) : M unit :=
  r ← deref rec;
  forM (GOTerm.parents r) (add_child rec).

(** Iterating over [rec.relationship.items()] while keys are added to that
    dictionary raises [RuntimeError] at the next step of the iteration. *)
Definition check_size (rec : nat) (n : nat) : M unit :=
  d ← get_relationship rec;
  if negb (Nat.eqb (length d) n) then raise RuntimeError else mret tt.

(** [if not hasattr(term, 'relationship'): term.relationship = defaultdict(set)] *)
Definition ensure_relationship (term : nat) : M unit :=
  t ← deref term;
  if negb (GOTerm.hasattr t "relationship")
  then setattr term "relationship" (VDictSet [])
  else mret tt.

(** The body of [for term in terms]: add inverted relationship *)
Definition add_inverted (rec : nat) (invert_typedef : string) (term : nat) : M unit :=
  ensure_relationship term;;
  relationship_add term invert_typedef rec.

(** The body of [for (typedef, terms) in rec.relationship.items()], the
    dictionary having had [n] keys when the iteration began. The set under
    the key is read when the iteration reaches the key. *)
Definition invert_typedef (self : GODag.t) (rec : nat) (n : nat) (typedef : string)
  : M unit :=
  check_size rec n;;
  d ← get_relationship rec;
  let terms := default [] (dict_get typedef d) in
  td ← typedefs_getitem self typedef;
  let invert_typedef := TypeDef.inverse_of td in
  if negb (String.eqb invert_typedef EmptyString) then
    forM terms (add_inverted rec invert_typedef)
  else mret tt.

(** Add invert relationships, for one [rec]. *)
Definition invert_relationships (self : GODag.t) (rec : nat) : M unit :=
  r ← deref rec;
  if GOTerm.hasattr r "relationship" then
    d0 ← get_relationship rec;
    forM (dict_keys d0) (invert_typedef self rec (length d0));;
    check_size rec (length d0)
  else mret tt.

(** The second loop of [populate_terms], for one [rec]: populate children,
    levels and add inverted relationships. *)
Definition link_and_measure (fuel : nat) (self : GODag.t) (rec : nat) : M unit :=
  populate_children rec;;
  invert_relationships self rec;;
  r ← deref rec;
  (match GOTerm.level r with
   | None => _init_level fuel rec;; mret tt
   | Some _ => mret tt
   end);;
  r ← deref rec;
  match GOTerm.depth r with
  | None => _init_depth fuel rec;; mret tt
  | Some _ => mret tt
  end.

(** [GODag.populate_terms]: add level and depth to GO objects. *)
Definition populate_terms (fuel : nat) (self : GODag.t) : M unit :=
  forM (values self) (resolve_references self);;
  forM (values self) (link_and_measure fuel self).

(** The body of the loop of [load_obo_file]: save the record under its
    identifier and its alternate identifiers, if it is to be kept. A kept
    record gets the next address of the heap. *)
Definition save_record (load_obsolete : bool) (st : heap * dict nat)
    (rec : GOTerm.t) : heap * dict nat :=
  if load_obsolete || negb (GOTerm.is_obsolete rec) then
    let a := length st.1 in
    (st.1 ++ [rec],
     fold_left (fun d alt => dict_set alt a d) (GOTerm.alt_ids rec)
       (dict_set (GOTerm.id rec) a st.2))
  else st.

Definition save_records (load_obsolete : bool) (recs : list GOTerm.t)
  : heap * dict nat :=
  fold_left (save_record load_obsolete) recs ([], []).

(** [GODag(obo_file, optional_attrs, load_obsolete)], that is
    [load_obo_file]: read the file, store the records, assemble the graph.
    An exception leaves no graph. *)
Definition load_obo_file (fuel : nat) (obo_file : string) (lines : list string)
    (optional_attrs : optional_attrs_arg) (load_obsolete : bool)
  : result (GODag.t * heap) :=
  rd ← OBOReader_init obo_file optional_attrs;
  '(rd', recs) ← OBOReader_iter rd lines;
  let '(h, d) := save_records load_obsolete recs in
  let self := GODag.mk d (OBOReader.typedefs rd') (OBOReader.optional_attrs rd') in
  match populate_terms fuel self h with
  | (h', Ok _) => Ok (self, h')
  | (_, Raise e) => Raise e
  end.

(** ** The query layer: [GODag.paths_to_top] *)

(** [rec.level == 0] *)
Definition level_is_0 (r : GOTerm.t) : bool :=
  match GOTerm.level r with
  | Some l => (l =? 0)%Z
  | None => false
  end.

(** The loop [for parent in rec.parents: ...] of
    [_paths_to_top_recursive], with [go] the recursive call. *)
Fixpoint extend_paths (rec : nat) (go : nat -> result (list (list nat)))
    (ps : list nat) (paths : list (list nat)) : result (list (list nat)) :=
  match ps with
  | [] => Ok paths
  | parent :: ps' =>
      top_paths ← go parent;
      extend_paths rec go ps'
        (paths ++ map (fun top_path => top_path ++ [rec]) top_paths)
  end.

Fixpoint _paths_to_top_recursive (fuel : nat) (h : heap) (rec : nat)
  : result (list (list nat)) :=
  match fuel with
  | 0 => Raise RecursionError
  | S fuel =>
      match h !! rec with
      | None => Raise SystemError
      | Some r =>
          if level_is_0 r then Ok [[rec]]
          else extend_paths rec (_paths_to_top_recursive fuel h) (GOTerm.parents r) []
      end
  end.

(** [paths_to_top(term)]; the inner [None] is Python's, returned for an
    identifier that is not in the graph. *)
Definition paths_to_top (fuel : nat) (self : GODag.t) (h : heap) (term : string)
  : result (option (list (list nat))) :=
  match dict_get term (GODag.terms self) with
  | None => Ok None
  | Some go_term =>
      paths ← _paths_to_top_recursive fuel h go_term;
      Ok (Some paths)
  end.

(** ** Methods of [GOTerm] that walk the graph

    They read the heap and change nothing. [fuel] bounds the depth of the
    recursion, as in [_init_level]. *)

(** The loop of [has_parent] over [self.parents], and of [has_child] over
    [self.children], with [go] the recursive call. *)
Fixpoint has_term_loop (h : heap) (go : nat -> result bool) (term : string)
    (ps : list nat) : result bool :=
  match ps with
  | [] => Ok false
  | p :: ps' =>
      match h !! p with
      | None => Raise SystemError
      | Some tp =>
          if String.eqb (GOTerm.id tp) term then Ok true
          else
            b ← go p;
            if b : bool then Ok true else has_term_loop h go term ps'
      end
  end.

(** [self.has_parent(term)] *)
Fixpoint has_parent (fuel : nat) (h : heap) (self : nat) (term : string)
  : result bool :=
  match fuel with
  | 0 => Raise RecursionError
  | S fuel =>
      match h !! self with
      | None => Raise SystemError
      | Some t =>
          has_term_loop h (fun p => has_parent fuel h p term) term (GOTerm.parents t)
      end
  end.

(** [self.has_child(term)] *)
Fixpoint has_child (fuel : nat) (h : heap) (self : nat) (term : string)
  : result bool :=
  match fuel with
  | 0 => Raise RecursionError
  | S fuel =>
      match h !! self with
      | None => Raise SystemError
      | Some t =>
          has_term_loop h (fun p => has_child fuel h p term) term (GOTerm.children t)
      end
  end.

(** The loop of [get_all_parents] and [get_all_children]: add the
    identifier of each Term of [ps], then what the recursive call returns
    for it. *)
Fixpoint all_ids_loop (h : heap) (go : nat -> result (list string))
    (ps : list nat) (acc : list string) : result (list string) :=
  match ps with
  | [] => Ok acc
  | p :: ps' =>
      match h !! p with
      | None => Raise SystemError
      | Some tp =>
          let acc := set_add String.eqb (GOTerm.id tp) acc in
          s ← go p;
          all_ids_loop h go ps' (set_update String.eqb acc s)
      end
  end.

(** [self.get_all_parents()] *)
Fixpoint get_all_parents (fuel : nat) (h : heap) (self : nat)
  : result (list string) :=
  match fuel with
  | 0 => Raise RecursionError
  | S fuel =>
      match h !! self with
      | None => Raise SystemError
      | Some t => all_ids_loop h (get_all_parents fuel h) (GOTerm.parents t) []
      end
  end.

(** [self.get_all_children()] *)
Fixpoint get_all_children (fuel : nat) (h : heap) (self : nat)
  : result (list string) :=
  match fuel with
  | 0 => Raise RecursionError
  | S fuel =>
      match h !! self with
      | None => Raise SystemError
      | Some t => all_ids_loop h (get_all_children fuel h) (GOTerm.children t) []
      end
  end.

(** Equality of the tuples of identifiers that the edge sets hold. *)
Definition edge_eqb (e e' : string * string) : bool :=
  String.eqb e.1 e'.1 && String.eqb e.2 e'.2.

(** The loop of [get_all_parent_edges] and [get_all_child_edges]; [edge]
    makes the tuple from the identifier of the Term of [ps]. *)
Fixpoint all_edges_loop (h : heap) (go : nat -> result (list (string * string)))
    (edge : string -> string * string) (ps : list nat)
    (acc : list (string * string)) : result (list (string * string)) :=
  match ps with
  | [] => Ok acc
  | p :: ps' =>
      match h !! p with
      | None => Raise SystemError
      | Some tp =>
          let acc := set_add edge_eqb (edge (GOTerm.id tp)) acc in
          s ← go p;
          all_edges_loop h go edge ps' (set_update edge_eqb acc s)
      end
  end.

(** [self.get_all_parent_edges()]: tuples of the current identifier and a
    parent's *)
Fixpoint get_all_parent_edges (fuel : nat) (h : heap) (self : nat)
  : result (list (string * string)) :=
  match fuel with
  | 0 => Raise RecursionError
  | S fuel =>
      match h !! self with
      | None => Raise SystemError
      | Some t =>
          all_edges_loop h (get_all_parent_edges fuel h)
            (fun parent_id => (GOTerm.id t, parent_id)) (GOTerm.parents t) []
      end
  end.

(** [self.get_all_child_edges()]: tuples of a child's identifier and the
    current one *)
Fixpoint get_all_child_edges (fuel : nat) (h : heap) (self : nat)
  : result (list (string * string)) :=
  match fuel with
  | 0 => Raise RecursionError
  | S fuel =>
      match h !! self with
      | None => Raise SystemError
      | Some t =>
          all_edges_loop h (get_all_child_edges fuel h)
            (fun child_id => (child_id, GOTerm.id t)) (GOTerm.children t) []
      end
  end.

(** ** [GODag.update_association] *)

(** [s.strip()] *)
Definition strip (s : string) : string := rstrip (lstrip s).

(** The body of [for goid in goids]: the [try] adds the identifiers of all
    parents of the Term under [goid]; whatever exception it ends in, a
    missing key or a recursion too deep, the handler records the
    identifier. *)
Definition association_goid (fuel : nat) (self : GODag.t) (h : heap)
    (st : list string * list string) (goid : string) : list string * list string :=
  let '(parents, bad_goids) := st in
  match
    match dict_get goid (GODag.terms self) with
    | Some a => get_all_parents fuel h a
    | None => Raise (KeyError goid)
    end
  with
  | Ok ps => (set_update String.eqb parents ps, bad_goids)
  | Raise _ => (parents, set_add String.eqb (strip goid) bad_goids)
  end.

(** The body of [for goids in association.values()], on the set of one
    gene: the set as the loop leaves it, and [bad_goids]. *)
Definition association_gene (fuel : nat) (self : GODag.t) (h : heap)
    (bad_goids : list string) (goids : list string) : list string * list string :=
  let '(parents, bad_goids) :=
    fold_left (association_goid fuel self h) goids ([], bad_goids) in
  (set_update String.eqb goids parents, bad_goids).

(** [update_association(association)]: the association as the call leaves
    it, each gene with a set of its own, and the identifiers that the
    message on the error stream reports when there are any. *)
Fixpoint update_association_from (fuel : nat) (self : GODag.t) (h : heap)
    (bad_goids : list string) (association : dict (list string))
  : dict (list string) * list string :=
  match association with
  | [] => ([], bad_goids)
  | (gene, goids) :: rest =>
      let '(goids', bad_goids) := association_gene fuel self h bad_goids goids in
      let '(rest', bad_goids) := update_association_from fuel self h bad_goids rest in
      ((gene, goids') :: rest', bad_goids)
  end.

Definition update_association (fuel : nat) (self : GODag.t) (h : heap)
    (association : dict (list string)) : dict (list string) * list string :=
  update_association_from fuel self h [] association.

(** ** The two metrics, as one

    [_init_level] and [_init_depth] differ in the attribute they fill and
    in [min] against [max]. [_init_metric] is their common shape; the two
    are shown equal to its instances below, and reasoned about through it. *)

Inductive metric : Type := Level | Depth.

Definition get_metric (m : metric) (t : GOTerm.t) : option Z :=
  match m with
  | Level => GOTerm.level t
  | Depth => GOTerm.depth t
  end.

Definition set_metric (m : metric) (v : option Z) (t : GOTerm.t) : GOTerm.t :=
  match m with
  | Level => GOTerm.set_level v t
  | Depth => GOTerm.set_depth v t
  end.

Definition pick (m : metric) : Z -> Z -> Z :=
  match m with
  | Level => Z.min
  | Depth => Z.max
  end.

Definition py_pick (m : metric) (xs : list Z) : M Z :=
  match xs with
  | [] => raise ValueError
  | x :: xs' => mret (fold_left (pick m) xs' x)
  end.

Fixpoint _init_metric (m : metric) (fuel : nat) (rec : nat) : M Z :=
  match fuel with
  | 0 => raise RecursionError
  | S fuel =>
      r ← deref rec;
      match get_metric m r with
      | None =>
          match GOTerm.parents r with
          | [] =>
              modify rec (set_metric m (Some 0%Z));;
              mret 0%Z
          | ps =>
              vs ← list_comp (_init_metric m fuel) ps;
              v ← py_pick m vs;
              modify rec (set_metric m (Some (v + 1)%Z));;
              mret (v + 1)%Z
          end
      | Some v => mret v
      end
  end.

(** ** Specification vocabulary *)

(** The metric of the Term at an address, if it is set. *)
Definition lookup_metric (m : metric) (h : heap) (a : nat) : option Z :=
  match h !! a with
  | Some t => get_metric m t
  | None => None
  end.

(** The defining equation of a metric at a Term: 0 without parents, else
    one more than the least (level) or greatest (depth) of the parents'. *)
Definition metric_eqn (m : metric) (h : heap) (t : GOTerm.t) (v : Z) : Prop :=
  match GOTerm.parents t with
  | [] => v = 0%Z
  | _ => exists x xs,
      Forall2 (fun p w => lookup_metric m h p = Some w) (GOTerm.parents t) (x :: xs)
      /\ v = (fold_left (pick m) xs x + 1)%Z
  end.

(** Every metric that is set is not negative and obeys its equation. *)
Definition metric_ok (m : metric) (h : heap) : Prop :=
  forall a t v, h !! a = Some t -> get_metric m t = Some v ->
    (0 <= v)%Z /\ metric_eqn m h t v.

(** Which attributes of a Term a piece of code may change. *)
Record footprint : Type := mk_footprint {
  w_parents : bool;
  w_children : bool;
  w_level : bool;
  w_depth : bool;
  w_dyn : bool
}.

(** [t'] is [t] but for the attributes of the footprint. *)
Record same_but (fp : footprint) (t t' : GOTerm.t) : Prop := mk_same_but {
  sb_id : GOTerm.id t' = GOTerm.id t;
  sb_name : GOTerm.name t' = GOTerm.name t;
  sb_namespace : GOTerm.namespace t' = GOTerm.namespace t;
  sb__parents : GOTerm._parents t' = GOTerm._parents t;
  sb_is_obsolete : GOTerm.is_obsolete t' = GOTerm.is_obsolete t;
  sb_alt_ids : GOTerm.alt_ids t' = GOTerm.alt_ids t;
  sb_parents : w_parents fp = false -> GOTerm.parents t' = GOTerm.parents t;
  sb_children : w_children fp = false -> GOTerm.children t' = GOTerm.children t;
  sb_level : w_level fp = false -> GOTerm.level t' = GOTerm.level t;
  sb_depth : w_depth fp = false -> GOTerm.depth t' = GOTerm.depth t;
  sb_dyn : w_dyn fp = false -> GOTerm.dyn t' = GOTerm.dyn t
}.

(** The heaps hold the same objects, changed within the footprint only. *)
Definition frame (fp : footprint) (h h' : heap) : Prop := Forall2 (same_but fp) h h'.

(** What the first loop of [populate_terms] writes, and the second. *)
Definition fp_resolve : footprint := mk_footprint true false false false true.
Definition fp_link : footprint := mk_footprint false true true true true.
Definition fp_metric (m : metric) : footprint :=
  match m with
  | Level => mk_footprint false false true false false
  | Depth => mk_footprint false false false true false
  end.
Definition fp_children : footprint := mk_footprint false true false false false.
Definition fp_dyn : footprint := mk_footprint false false false false true.

(** A metric, once set, keeps its value. *)
Definition keeps (m : metric) (h h' : heap) : Prop :=
  forall a v, lookup_metric m h a = Some v -> lookup_metric m h' a = Some v.

(** A computation relates every heap to the heap it leaves, whatever its
    outcome. *)
Definition pres {A} (R : heap -> heap -> Prop) (c : M A) : Prop :=
  forall h, R h (c h).1.

(** A Term whose metric can be computed from the heap: it is set, or the
    metrics of all its parents can be computed. *)
Inductive computable (m : metric) (h : heap) : nat -> Prop :=
| computable_set a v :
    lookup_metric m h a = Some v -> computable m h a
| computable_unset a t :
    h !! a = Some t -> get_metric m t = None ->
    (forall p, In p (GOTerm.parents t) -> computable m h p) ->
    computable m h a.

(** [b] is reached from [a] along parent links out of Terms whose metric
    is not set. *)
Inductive reach (m : metric) (h : heap) : nat -> nat -> Prop :=
| reach_refl a : reach m h a a
| reach_step a t p b :
    h !! a = Some t -> get_metric m t = None -> In p (GOTerm.parents t) ->
    reach m h p b -> reach m h a b.

(** ** Vocabulary of the proofs *)

Definition fp_le (fp fp' : footprint) : Prop :=
  (w_parents fp = true -> w_parents fp' = true) /\
  (w_children fp = true -> w_children fp' = true) /\
  (w_level fp = true -> w_level fp' = true) /\
  (w_depth fp = true -> w_depth fp' = true) /\
  (w_dyn fp = true -> w_dyn fp' = true).

(** A frame that leaves a metric and the parents alone leaves the
    lookups of the metric and its equations alone. *)
Definition leaves (m : metric) (fp : footprint) : Prop :=
  match m with
  | Level => w_level fp = false
  | Depth => w_depth fp = false
  end.

(** A metric that is set stays set. *)
Definition stays (m : metric) (h h' : heap) : Prop :=
  forall a, is_Some (lookup_metric m h a) -> is_Some (lookup_metric m h' a).

(** What a run of [_init_metric] on [a] from [h] leaves, whatever its
    outcome: set metrics are kept, a returned value is the metric of [a],
    and the equations still hold if they did. *)
Definition metric_post (m : metric) (a : nat) (h : heap) (r : heap * result Z) : Prop :=
  keeps m h r.1 /\
  (forall v, r.2 = Ok v -> lookup_metric m r.1 a = Some v) /\
  (metric_ok m h -> metric_ok m r.1).

(** A property of the heap that a computation never breaks. *)
Definition maintains (I : heap -> Prop) : heap -> heap -> Prop :=
  fun h h' => I h -> I h'.

(** Both metrics of the Term at an address are set. *)
Definition measured (h : heap) (a : nat) : Prop :=
  is_Some (lookup_metric Level h a) /\ is_Some (lookup_metric Depth h a).

(** No Term has the metric set. *)
Definition unset (m : metric) (h : heap) : Prop :=
  forall a, lookup_metric m h a = None.

(** A Term as the constructor and the parser leave it: no metric, no
    child. *)
Definition fresh_term (t : GOTerm.t) : bool :=
  match GOTerm.level t, GOTerm.depth t, GOTerm.children t with
  | None, None, [] => true
  | _, _, _ => false
  end.

(** A heap as [load_obo_file] hands it to [populate_terms]. *)
Definition fresh (h : heap) : bool := forallb fresh_term h.

(** Both metrics are set, as a test. *)
Definition measured_b (h : heap) (a : nat) : bool :=
  match h !! a with
  | Some t => is_Some_b (GOTerm.level t) && is_Some_b (GOTerm.depth t)
  | None => false
  end.

(** How often a Term occurs in a list of Terms. *)
Fixpoint count_term (x : nat) (l : list nat) : nat :=
  match l with
  | [] => 0
  | y :: l' => (if Nat.eqb x y then 1 else 0) + count_term x l'
  end.

Definition children_nodup (h : heap) : Prop :=
  forall a t, h !! a = Some t -> NoDup (GOTerm.children t).

Definition children_grow (h h' : heap) : Prop :=
  forall a t, h !! a = Some t ->
    exists t', h' !! a = Some t' /\
      forall x, In x (GOTerm.children t) -> In x (GOTerm.children t').

(** [a] is among the children of the Term at [p]. *)
Definition child_of (a p : nat) (h : heap) : Prop :=
  exists tp, h !! p = Some tp /\ In a (GOTerm.children tp).

(** [a] is among the children of each of its parents. *)
Definition linked (a : nat) (h : heap) : Prop :=
  forall t p, h !! a = Some t -> In p (GOTerm.parents t) -> child_of a p h.

(** A directed path from a level-0 root down to a Term, root first: a
    level-0 Term alone, or a path to one of the parents of the Term
    followed by the Term. *)
Inductive root_path (h : heap) : list nat -> nat -> Prop :=
| root_path_root a :
    lookup_metric Level h a = Some 0%Z -> root_path h [a] a
| root_path_step path p a t :
    root_path h path p -> h !! a = Some t -> In p (GOTerm.parents t) ->
    root_path h (path ++ [a]) a.

(** [t.relationship], when it is the dictionary of sets that
    [populate_terms] binds it to. *)
Definition relationship_of (t : GOTerm.t) : option (dict (list nat)) :=
  match dict_get "relationship" (GOTerm.dyn t) with
  | Some (VDictSet d) => Some d
  | _ => None
  end.

(** The Term at [a] has a relationship [key] to the Term [x]. *)
Definition has_rel (h : heap) (a : nat) (key : string) (x : nat) : Prop :=
  exists t d s, h !! a = Some t /\ relationship_of t = Some d /\
    dict_get key d = Some s /\ In x s.

(** The Term at [a] was parsed with a relationship [key] to the
    identifier [y]. *)
Definition raw_rel (h : heap) (a : nat) (key : string) (y : string) : Prop :=
  exists t raw ids, h !! a = Some t /\
    dict_get "_relationship" (GOTerm.dyn t) = Some (VDictList raw) /\
    dict_get key raw = Some ids /\ In y ids.

(** Relationships are only added. *)
Definition rel_grow (h h' : heap) : Prop :=
  forall a key x, has_rel h a key x -> has_rel h' a key x.

(** Only the Term at [b] changes. *)
Definition only_at (b : nat) (h h' : heap) : Prop :=
  forall a, a <> b -> h' !! a = h !! a.

(** The Term at [x] has its raw relationships resolved, [A] to [y] among
    them. *)
Definition resolved_rel (h : heap) (x : nat) (A : string) (y : nat) : Prop :=
  has_rel h x A y /\
  exists t, h !! x = Some t /\ dict_get "_relationship" (GOTerm.dyn t) = None.

(** [raw_rel], as a test. *)
Definition raw_rel_b (h : heap) (a : nat) (key : string) (y : string) : bool :=
  match h !! a with
  | Some t =>
      match dict_get "_relationship" (GOTerm.dyn t) with
      | Some (VDictList raw) =>
          match dict_get key raw with
          | Some ids => str_in y ids
          | None => false
          end
      | _ => false
      end
  | None => false
  end.

(** The record is kept by [load_obo_file]. *)
Definition kept (load_obsolete : bool) (rec : GOTerm.t) : bool :=
  load_obsolete || negb (GOTerm.is_obsolete rec).

(** The identifiers a record is stored under. *)
Definition ids_of (rec : GOTerm.t) : list string :=
  GOTerm.id rec :: GOTerm.alt_ids rec.

Definition fp_all : footprint := mk_footprint true true true true true.





(** Every record yielded, and the record that is open, is fresh. *)
Definition iter_fresh (st : iter_state) : Prop :=
  forallb fresh_term (yielded st) = true /\
  forall r, rec_curr st = Some r -> fresh_term r = true.

(** No record of [later] that the loader keeps carries an identifier of
    [r]. *)
Definition unclaimed_later (lo : bool) (r : GOTerm.t) (later : list GOTerm.t) : bool :=
  forallb (fun r' =>
    negb (kept lo r') ||
    forallb (fun k => negb (str_in k (ids_of r'))) (ids_of r)) later.

(** ** Vocabulary of the further properties *)

(** [b] is reached from [a] by one or more steps along the lists [next]:
    an ancestor along [parents], a descendant along [children]. *)
Inductive walk (next : GOTerm.t -> list nat) (h : heap) : nat -> nat -> Prop :=
| walk_one a t p :
    h !! a = Some t -> In p (next t) -> walk next h a p
| walk_more a t p b :
    h !! a = Some t -> In p (next t) -> walk next h p b -> walk next h a b.

Definition ancestor : heap -> nat -> nat -> Prop := walk GOTerm.parents.
Definition descendant : heap -> nat -> nat -> Prop := walk GOTerm.children.

(** The identifier of the Term at [b] is [x]. *)
Definition id_at (h : heap) (b : nat) (x : string) : Prop :=
  exists tb, h !! b = Some tb /\ GOTerm.id tb = x.

(** The recursion allowance is above every depth of the graph. *)
Definition covers (fuel : nat) (self : GODag.t) (h : heap) : Prop :=
  forall b d, In b (values self) -> lookup_metric Depth h b = Some d ->
    (d < Z.of_nat fuel)%Z.

(** The three walks, over either list. *)
Fixpoint has_term (next : GOTerm.t -> list nat) (fuel : nat) (h : heap)
    (self : nat) (term : string) : result bool :=
  match fuel with
  | 0 => Raise RecursionError
  | S fuel =>
      match h !! self with
      | None => Raise SystemError
      | Some t => has_term_loop h (fun p => has_term next fuel h p term) term (next t)
      end
  end.

Fixpoint all_ids (next : GOTerm.t -> list nat) (fuel : nat) (h : heap) (self : nat)
  : result (list string) :=
  match fuel with
  | 0 => Raise RecursionError
  | S fuel =>
      match h !! self with
      | None => Raise SystemError
      | Some t => all_ids_loop h (all_ids next fuel h) (next t) []
      end
  end.

Fixpoint all_edges (next : GOTerm.t -> list nat)
    (edge : string -> string -> string * string) (fuel : nat) (h : heap) (self : nat)
  : result (list (string * string)) :=
  match fuel with
  | 0 => Raise RecursionError
  | S fuel =>
      match h !! self with
      | None => Raise SystemError
      | Some t =>
          all_edges_loop h (all_edges next edge fuel h) (edge (GOTerm.id t)) (next t) []
      end
  end.

(** Within the Terms of [D], the lists [next] lead to Terms of [D] and
    strictly down the rank [rk]. *)
Definition ranked (next : GOTerm.t -> list nat) (h : heap) (D : nat -> Prop)
    (rk : nat -> nat) : Prop :=
  forall a t p, D a -> h !! a = Some t -> In p (next t) ->
    D p /\ is_Some (h !! p) /\ rk p < rk a.

(** [e] is the tuple of a step along [next] that begins at [c]. *)
Definition step_edge (next : GOTerm.t -> list nat)
    (edge : string -> string -> string * string) (h : heap)
    (c : nat) (e : string * string) : Prop :=
  exists tc p y, h !! c = Some tc /\ In p (next tc) /\ id_at h p y /\
    e = edge (GOTerm.id tc) y.

(** [e] is the tuple of a step that begins at [a] or at a Term that [a]
    reaches. *)
Definition walk_edge (next : GOTerm.t -> list nat)
    (edge : string -> string -> string * string) (h : heap)
    (a : nat) (e : string * string) : Prop :=
  step_edge next edge h a e \/ exists c, walk next h a c /\ step_edge next edge h c e.

(** The parents of the Term at [a] are what the index gives for its raw
    parent identifiers, in their order. *)
Definition parents_resolved (self : GODag.t) (h : heap) (a : nat) : Prop :=
  exists t, h !! a = Some t /\
    Forall2 (fun id p => dict_get id (GODag.terms self) = Some p)
      (GOTerm._parents t) (GOTerm.parents t).

(** Who is among the children of a Term is a Term of [V] that has it
    among its parents. *)
Definition children_sound (V : list nat) (h : heap) : Prop :=
  forall p tp c, h !! p = Some tp -> In c (GOTerm.children tp) ->
    In c V /\ exists tc, h !! c = Some tc /\ In p (GOTerm.parents tc).

(** [b] is reached from [a] by one or more steps along the raw parent
    identifiers, each looked up in the index. *)
Inductive raw_ancestor (self : GODag.t) (h : heap) : nat -> nat -> Prop :=
| raw_ancestor_parent a t x p :
    h !! a = Some t -> In x (GOTerm._parents t) ->
    dict_get x (GODag.terms self) = Some p -> raw_ancestor self h a p
| raw_ancestor_step a t x p b :
    h !! a = Some t -> In x (GOTerm._parents t) ->
    dict_get x (GODag.terms self) = Some p ->
    raw_ancestor self h p b -> raw_ancestor self h a b.

(** The Term carries no relationship, raw or resolved: the file was read
    without the optional attribute [relationship]. *)
Definition no_relationship (t : GOTerm.t) : bool :=
  negb (GOTerm.hasattr t "_relationship") && negb (GOTerm.hasattr t "relationship").

(** Every Term of the graph is in the heap, carries no relationship, and
    names as its parents only identifiers of the index, of Terms of lower
    rank. *)
Definition well_ranked (self : GODag.t) (h : heap) (rk : nat -> nat) : Prop :=
  forall a, In a (values self) ->
    exists t, h !! a = Some t /\ no_relationship t = true /\
      forall x, In x (GOTerm._parents t) ->
        exists p, dict_get x (GODag.terms self) = Some p /\ rk p < rk a.

(** [well_ranked], once the parents are resolved. *)
Definition well_linked (self : GODag.t) (h : heap) (rk : nat -> nat) : Prop :=
  forall a, In a (values self) ->
    exists t, h !! a = Some t /\ no_relationship t = true /\
      forall p, In p (GOTerm.parents t) -> In p (values self) /\ rk p < rk a.

(** The attribute that [update_rec] binds for the field [name] of the
    file: [def] is stored as [defn], a nested field under its name with
    an underscore before it. *)
Definition attr_name (name : string) : string :=
  let name := if String.eqb name "def" then "defn" else name in
  if str_in name attrs_nested then ("_" ++ name)%string else name.

(** No character of the text is white space. *)
Fixpoint no_space (s : string) : bool :=
  match s with
  | EmptyString => true
  | String c s' => negb (is_space c) && no_space s'
  end.

(** The line is neither a [[Term]] nor a [[Typedef]] header. *)
Definition is_header (line : string) : bool :=
  is_term_header line || is_typedef_header line.

(** How many records are open or yielded. *)
Definition records_begun (st : iter_state) : nat :=
  length (yielded st) + (if is_Some_b (rec_curr st) then 1 else 0).

(** The reader asks for the optional attributes [oa], and what every
    record yielded or open carries besides the attributes of every Term
    satisfies [P]. *)
Definition record_inv (oa : list string) (P : dict attr_val -> Prop)
    (st : iter_state) : Prop :=
  OBOReader.optional_attrs (reader st) = oa /\
  Forall (fun r => P (GOTerm.dyn r)) (yielded st) /\
  forall r, rec_curr st = Some r -> P (GOTerm.dyn r).

(** What the reader keeps of the relationships of a record: no attribute
    [relationship], and under [_relationship] at most one typedef with
    one target. *)
Definition one_relationship (d : dict attr_val) : Prop :=
  dict_get "relationship" d = None /\
  forall raw, dict_get "_relationship" d = Some (VDictList raw) ->
    exists typedef target, raw = [(typedef, [target])].

(** [x] is the identifier of an ancestor of the Term that the index holds
    under [goid]. *)
Definition ancestor_id (self : GODag.t) (h : heap) (goid x : string) : Prop :=
  exists a b, dict_get goid (GODag.terms self) = Some a /\
    ancestor h a b /\ id_at h b x.

(** Every Term of the graph is indexed under its own identifier. *)
Definition indexed_by_id (self : GODag.t) (h : heap) : Prop :=
  forall a t, In a (values self) -> h !! a = Some t ->
    dict_get (GOTerm.id t) (GODag.terms self) = Some a.

(** ** Example inputs *)

(** A line of a file, as the file object yields it. *)
Definition text_line (s : string) : string := (s ++ nl)%string.

(** A root with an alternate identifier, two Terms below it, a Term below
    both of these, an isolated Term, and a Term that names the root twice
    as its parent and is not closed by a blank line. *)
Definition diamond_lines : list string := map text_line
  [ "format-version: 1.2"; "data-version: releases/2017-01-01"; EmptyString;
    "[Term]"; "id: GO:0000001"; "name: root"; "namespace: biological_process";
    "alt_id: GO:0000009"; EmptyString;
    "[Term]"; "id: GO:0000002"; "name: left"; "namespace: biological_process";
    "is_a: GO:0000001 ! root"; EmptyString;
    "[Term]"; "id: GO:0000003"; "name: right"; "namespace: biological_process";
    "is_a: GO:0000009 ! root"; EmptyString;
    "[Term]"; "id: GO:0000004"; "name: bottom"; "namespace: biological_process";
    "is_a: GO:0000002 ! left"; "is_a: GO:0000003 ! right"; EmptyString;
    "[Term]"; "id: GO:0000005"; "name: isolated";
    "namespace: biological_process"; EmptyString;
    "[Term]"; "id: GO:0000006"; "name: twice"; "namespace: biological_process";
    "is_a: GO:0000001 ! root"; "is_a: GO:0000001 ! root" ].

Definition diamond_reader : OBOReader.t := OBOReader.mk "go-basic.obo" [] None None [].

Definition diamond_records : list GOTerm.t := Eval vm_compute in
  match OBOReader_iter diamond_reader diamond_lines with
  | Ok (_, recs) => recs
  | Raise _ => []
  end.

(** The heap and the index as the loader hands them to [populate_terms],
    and the heap that [populate_terms] leaves. *)
Definition diamond_fresh : heap := Eval vm_compute in (save_records false diamond_records).1.
Definition diamond_graph : GODag.t := Eval vm_compute in
  GODag.mk (save_records false diamond_records).2 [] [].
Definition diamond_heap : heap := Eval vm_compute in
  (populate_terms 8 diamond_graph diamond_fresh).1.

Definition diamond_root : GOTerm.t := Eval vm_compute in default GOTerm.init (diamond_heap !! 0).
Definition diamond_bottom : GOTerm.t := Eval vm_compute in default GOTerm.init (diamond_heap !! 3).
Definition diamond_isolated : GOTerm.t := Eval vm_compute in default GOTerm.init (diamond_heap !! 4).
Definition diamond_twice : GOTerm.t := Eval vm_compute in default GOTerm.init (diamond_heap !! 5).

(** Two Terms in a part_of relationship, with the typedefs of the
    relationship and of its inverse. *)
Definition part_of_lines : list string := map text_line
  [ "[Term]"; "id: GO:0000010"; "name: part";
    "relationship: part_of GO:0000020 ! whole"; EmptyString;
    "[Term]"; "id: GO:0000020"; "name: whole"; EmptyString;
    "[Typedef]"; "id: part_of"; "name: part of"; "inverse_of: has_part ! has part";
    EmptyString;
    "[Typedef]"; "id: has_part"; "name: has part"; "inverse_of: part_of ! part of";
    EmptyString ].

Definition part_of_reader : OBOReader.t :=
  OBOReader.mk "go-basic.obo" ["relationship"] None None [].

Definition part_of_parsed : OBOReader.t * list GOTerm.t := Eval vm_compute in
  match OBOReader_iter part_of_reader part_of_lines with
  | Ok p => p
  | Raise _ => (part_of_reader, [])
  end.

Definition part_of_fresh : heap := Eval vm_compute in (save_records false part_of_parsed.2).1.
Definition part_of_graph : GODag.t := Eval vm_compute in
  GODag.mk (save_records false part_of_parsed.2).2
    (OBOReader.typedefs part_of_parsed.1) ["relationship"].
Definition part_of_heap : heap := Eval vm_compute in
  (populate_terms 8 part_of_graph part_of_fresh).1.
Definition part_of_typedef : TypeDef.t :=
  TypeDef.mk "part_of" "part of" [] "has_part".

(** The second Term's primary identifier is the first Term's alternate
    identifier. *)
Definition colliding_lines : list string := map text_line
  [ "[Term]"; "id: GO:0000001"; "name: first"; "alt_id: GO:0000002"; EmptyString;
    "[Term]"; "id: GO:0000002"; "name: second"; EmptyString ].

(** A [[Typedef]] block that is not closed before the next begins. *)
Definition typedef_twice_lines : list string := map text_line
  [ "[Typedef]"; "id: part_of"; "name: part of";
    "[Typedef]"; "id: has_part"; "name: has part"; EmptyString ].



(** A file that ends with a Typedef open and a Term open. *)
Definition open_at_end_lines : list string := map text_line
  [ "[Typedef]"; "id: part_of"; "[Term]"; "id: GO:0000001" ].

Definition open_at_end_state : iter_state := Eval vm_compute in
  match iter_lines (iter_start diamond_reader) 0 open_at_end_lines with
  | Ok st => st
  | Raise _ => iter_start diamond_reader
  end.

(** A file whose last block is a [[Typedef]] that no blank line closes: a
    Term and a Typedef that are closed, then the header of the block, then
    its lines, among them the header and the id of a Term that is open at
    the end as well. *)
Definition unclosed_pre : list string := map text_line
  [ "[Term]"; "id: GO:0000010"; "name: part"; EmptyString;
    "[Typedef]"; "id: part_of"; "name: part of"; EmptyString ].
Definition unclosed_hdr : string := text_line "[Typedef]".
Definition unclosed_body : list string := map text_line
  [ "id: regulates"; "name: regulates"; "[Term]"; "id: GO:0000020" ].

Definition unclosed_before : iter_state := Eval vm_compute in
  match iter_lines (iter_start diamond_reader) 0 unclosed_pre with
  | Ok st => st
  | Raise _ => iter_start diamond_reader
  end.
Definition unclosed_end : iter_state := Eval vm_compute in
  match iter_lines unclosed_before (length unclosed_pre) (unclosed_hdr :: unclosed_body) with
  | Ok st => st
  | Raise _ => iter_start diamond_reader
  end.

Definition diamond_read : OBOReader.t := Eval vm_compute in
  match OBOReader_iter diamond_reader diamond_lines with
  | Ok (rd, _) => rd
  | Raise _ => diamond_reader
  end.
Definition diamond_first : GOTerm.t := Eval vm_compute in hd GOTerm.init diamond_records.
Definition diamond_rest : list GOTerm.t := Eval vm_compute in tl diamond_records.

(** Inputs of the further properties *)

(** The records that a reader yields for the lines of a file. *)
Definition records_of (rd : OBOReader.t) (lines : list string) : list GOTerm.t :=
  match OBOReader_iter rd lines with
  | Ok (_, recs) => recs
  | Raise _ => []
  end.

(** A Term whose parent is not in the file. *)
Definition orphan_lines : list string := map text_line
  [ "[Term]"; "id: GO:0000001"; "name: orphan"; "is_a: GO:0000099 ! missing";
    EmptyString ].
Definition orphan_fresh : heap := Eval vm_compute in
  (save_records false (records_of diamond_reader orphan_lines)).1.
Definition orphan_graph : GODag.t := Eval vm_compute in
  GODag.mk (save_records false (records_of diamond_reader orphan_lines)).2 [] [].
Definition orphan_term : GOTerm.t := Eval vm_compute in
  default GOTerm.init (orphan_fresh !! 0).

(** Two Terms, each the parent of the other. *)
Definition cycle_lines : list string := map text_line
  [ "[Term]"; "id: GO:0000001"; "name: one"; "is_a: GO:0000002 ! two"; EmptyString;
    "[Term]"; "id: GO:0000002"; "name: two"; "is_a: GO:0000001 ! one"; EmptyString ].
Definition cycle_fresh : heap := Eval vm_compute in
  (save_records false (records_of diamond_reader cycle_lines)).1.
Definition cycle_graph : GODag.t := Eval vm_compute in
  GODag.mk (save_records false (records_of diamond_reader cycle_lines)).2 [] [].

(** A Term with two relationship lines, read with relationships asked
    for. *)
Definition two_relationships_lines : list string := map text_line
  [ "[Term]"; "id: GO:0000010"; "name: part";
    "relationship: part_of GO:0000020 ! whole";
    "relationship: regulates GO:0000030 ! other"; EmptyString ].
Definition two_relationships_record : GOTerm.t := Eval vm_compute in
  hd GOTerm.init (records_of part_of_reader two_relationships_lines).

(** The two Terms of [part_of_lines] without the typedefs. *)
Definition undeclared_lines : list string := map text_line
  [ "[Term]"; "id: GO:0000010"; "name: part";
    "relationship: part_of GO:0000020 ! whole"; EmptyString;
    "[Term]"; "id: GO:0000020"; "name: whole"; EmptyString ].
Definition undeclared_fresh : heap := Eval vm_compute in
  (save_records false (records_of part_of_reader undeclared_lines)).1.
Definition undeclared_graph : GODag.t := Eval vm_compute in
  GODag.mk (save_records false (records_of part_of_reader undeclared_lines)).2
    [] ["relationship"].

(** The state of the loop after the two version lines of
    [diamond_lines], and a format version that comes too late. *)
Definition versions_read_state : iter_state := Eval vm_compute in
  match iter_lines (iter_start diamond_reader) 0
          (map text_line ["format-version: 1.2"; "data-version: releases/2017-01-01"]) with
  | Ok st => st
  | Raise _ => iter_start diamond_reader
  end.
Definition late_format_lines : list string := map text_line ["format-version: 1.4"].
Definition late_format_state : iter_state := Eval vm_compute in
  match iter_lines versions_read_state 2 late_format_lines with
  | Ok st => st
  | Raise _ => versions_read_state
  end.

(** Lines that belong to no block. *)
Definition preamble_lines : list string := map text_line
  [ "format-version: 1.2"; "no colon and no header"; "subsetdef: goslim_generic" ].

(** The ranks of the Terms of [diamond_lines]: their depths. *)
Definition diamond_rank (a : nat) : nat :=
  match a with
  | 0 => 0
  | 1 => 1
  | 2 => 1
  | 3 => 2
  | 4 => 0
  | _ => 1
  end.

(** The association of one gene with a Term of [diamond_lines] and with
    an identifier that the graph does not hold. *)
Definition diamond_association : dict (list string) :=
  [("gene", ["GO:0000004"; " GO:0000099 "])].

(** * Proofs *)

(** ** The monad *)

Lemma bind_run {A B} (c : M A) (f : A -> M B) h :
  (c ≫= f) h =
  match c h with
  | (h', Ok a) => f a h'
  | (h', Raise e) => (h', Raise e)
  end.
Proof. reflexivity. Qed.

Lemma bind_Ok_inv {A B} (c : M A) (f : A -> M B) h h' b :
  (c ≫= f) h = (h', Ok b) ->
  exists h1 a, c h = (h1, Ok a) /\ f a h1 = (h', Ok b).
Proof.
  rewrite bind_run. destruct (c h) as [h1 [a|e]]; [eauto | discriminate].
Qed.

Lemma ret_run {A} (a : A) h : (mret a : M A) h = (h, Ok a).
Proof. reflexivity. Qed.

Lemma deref_Ok_inv a h h' t :
  deref a h = (h', Ok t) -> h' = h /\ h !! a = Some t.
Proof.
  unfold deref. destruct (h !! a); intros [= <- ?]; subst; auto.
Qed.

Lemma deref_run a h t : h !! a = Some t -> deref a h = (h, Ok t).
Proof. unfold deref. intros ->. reflexivity. Qed.

Lemma modify_Ok_inv a f h h' u :
  modify a f h = (h', Ok u) -> h' = alter f a h.
Proof. by intros [= <-]. Qed.

Lemma py_pick_Ok_inv m vs h h' v :
  py_pick m vs h = (h', Ok v) ->
  h' = h /\ exists x xs, vs = x :: xs /\ v = fold_left (pick m) xs x.
Proof. destruct vs as [|x xs]; [done|]. intros [= <- <-]. eauto. Qed.

(** Peel the successful run of a sequence of binds. *)
Ltac inv_run H :=
  repeat match type of H with
  | (_ ≫= _) _ = (_, Ok _) =>
      let h1 := fresh "h" in
      let a := fresh "x" in
      let H1 := fresh "Hrun" in
      apply bind_Ok_inv in H as (h1 & a & H1 & H)
  | mret _ _ = (_, Ok _) => rewrite ret_run in H; injection H as <- <-
  | raise _ _ = (_, Ok _) => discriminate H
  end.

Section pres.
Context (R : heap -> heap -> Prop) `{!PreOrder R}.

Lemma pres_ret {A} (a : A) : pres R (mret a).
Proof. intros h. reflexivity. Qed.

Lemma pres_raise {A} e : pres R (raise e : M A).
Proof. intros h. reflexivity. Qed.

Lemma pres_deref a : pres R (deref a).
Proof. intros h. unfold deref. destruct (h !! a); reflexivity. Qed.

Lemma pres_bind {A B} (c : M A) (f : A -> M B) :
  pres R c -> (forall a, pres R (f a)) -> pres R (c ≫= f).
Proof.
  intros Hc Hf h. rewrite bind_run. specialize (Hc h).
  destruct (c h) as [h1 [a|e]]; simpl in *; [|done].
  etrans; [exact Hc | apply Hf].
Qed.

Lemma pres_forM {A} (l : list A) (body : A -> M unit) :
  (forall x, In x l -> pres R (body x)) -> pres R (forM l body).
Proof.
  induction l as [|x l IH]; intros Hb; simpl.
  - apply pres_ret.
  - apply pres_bind; [apply Hb; left; done | intros _].
    apply IH. intros y Hy. apply Hb. right; done.
Qed.

Lemma pres_list_comp {A B} (f : A -> M B) (l : list A) :
  (forall x, In x l -> pres R (f x)) -> pres R (list_comp f l).
Proof.
  induction l as [|x l IH]; intros Hb; simpl.
  - apply pres_ret.
  - apply pres_bind; [apply Hb; left; done | intros y].
    apply pres_bind; [apply IH; intros z Hz; apply Hb; right; done | intros ys].
    apply pres_ret.
Qed.

Lemma pres_getitem self x : pres R (getitem self x).
Proof. unfold getitem. destruct dict_get; [apply pres_ret | apply pres_raise]. Qed.

Lemma pres_typedefs_getitem self x : pres R (typedefs_getitem self x).
Proof.
  unfold typedefs_getitem. destruct dict_get; [apply pres_ret | apply pres_raise].
Qed.

Lemma pres_py_pick m xs : pres R (py_pick m xs).
Proof. destruct xs; [apply pres_raise | apply pres_ret]. Qed.

Lemma pres_get_relationship a : pres R (get_relationship a).
Proof.
  unfold get_relationship. apply pres_bind; [apply pres_deref | intros r].
  destruct dict_get as [[]|]; first [apply pres_ret | apply pres_raise].
Qed.

Lemma pres_check_size a n : pres R (check_size a n).
Proof.
  unfold check_size. apply pres_bind; [apply pres_get_relationship | intros d].
  destruct negb; [apply pres_raise | apply pres_ret].
Qed.
End pres.

Lemma pres_weaken {A} (R R' : heap -> heap -> Prop) (c : M A) :
  (forall h h', R h h' -> R' h h') -> pres R c -> pres R' c.
Proof. intros HR Hc h. apply HR, Hc. Qed.

Lemma pres_and {A} (R R' : heap -> heap -> Prop) (c : M A) :
  pres R c -> pres R' c -> pres (fun h h' => R h h' /\ R' h h') c.
Proof. intros H1 H2 h. split; [apply H1 | apply H2]. Qed.

(** ** Footprints and frames *)

Ltac solve_fp_le :=
  repeat split; simpl; intros; try done;
  repeat match goal with m : metric |- _ => destruct m end; simpl in *; done.

Lemma same_but_refl fp t : same_but fp t t.
Proof. by constructor. Qed.

Lemma same_but_trans fp t1 t2 t3 :
  same_but fp t1 t2 -> same_but fp t2 t3 -> same_but fp t1 t3.
Proof.
  intros [] []. constructor; intros;
    repeat match goal with
    | H : ?w = false -> _, Hw : ?w = false |- _ => specialize (H Hw)
    end; congruence.
Qed.

Lemma same_but_weaken fp fp' t t' :
  fp_le fp fp' -> same_but fp t t' -> same_but fp' t t'.
Proof.
  intros (Hp & Hc & Hl & Hd & Hy) []. constructor; try done; intros Hw.
  - apply sb_parents0. destruct (w_parents fp); [rewrite Hp in Hw|]; done.
  - apply sb_children0. destruct (w_children fp); [rewrite Hc in Hw|]; done.
  - apply sb_level0. destruct (w_level fp); [rewrite Hl in Hw|]; done.
  - apply sb_depth0. destruct (w_depth fp); [rewrite Hd in Hw|]; done.
  - apply sb_dyn0. destruct (w_dyn fp); [rewrite Hy in Hw|]; done.
Qed.

#[global] Instance frame_preorder fp : PreOrder (frame fp).
Proof.
  split.
  - intros h. apply Forall_Forall2_diag, Forall_forall. intros; apply same_but_refl.
  - intros h1 h2 h3 H12 H23. unfold frame in *.
    eapply Forall2_trans; [| exact H12 | exact H23].
    intros; eapply same_but_trans; eauto.
Qed.

Lemma frame_weaken fp fp' h h' : fp_le fp fp' -> frame fp h h' -> frame fp' h h'.
Proof.
  intros Hle H. eapply Forall2_impl; [exact H|]. intros; by eapply same_but_weaken.
Qed.

Lemma frame_length fp h h' : frame fp h h' -> length h' = length h.
Proof. intros H. symmetry. by eapply Forall2_length. Qed.

Lemma frame_lookup fp h h' a t :
  frame fp h h' -> h !! a = Some t -> exists t', h' !! a = Some t' /\ same_but fp t t'.
Proof. intros H Ha. by eapply Forall2_lookup_l. Qed.

Lemma frame_lookup_r fp h h' a t' :
  frame fp h h' -> h' !! a = Some t' -> exists t, h !! a = Some t /\ same_but fp t t'.
Proof. intros H Ha. by eapply Forall2_lookup_r. Qed.

Lemma frame_alter fp f a h :
  (forall t, same_but fp t (f t)) -> frame fp h (alter f a h).
Proof.
  intros Hf. unfold frame. apply Forall2_alter_r.
  - apply Forall_Forall2_diag, Forall_forall. intros; apply same_but_refl.
  - intros x y Hx Hy _. rewrite Hx in Hy. injection Hy as <-. apply Hf.
Qed.

Lemma pres_modify_frame fp a f :
  (forall t, same_but fp t (f t)) -> pres (frame fp) (modify a f).
Proof. intros Hf h. simpl. by apply frame_alter. Qed.

Lemma pres_frame_weaken {A} fp fp' (c : M A) :
  fp_le fp fp' -> pres (frame fp) c -> pres (frame fp') c.
Proof. intros Hle. apply pres_weaken. intros h h'. by apply frame_weaken. Qed.

Lemma pres_setattr a name v : pres (frame fp_dyn) (setattr a name v).
Proof. apply pres_modify_frame. intros t. by constructor. Qed.

Lemma pres_delattr a name : pres (frame fp_dyn) (delattr a name).
Proof. apply pres_modify_frame. intros t. by constructor. Qed.

Lemma pres_set_metric m a v :
  pres (frame (fp_metric m)) (modify a (set_metric m v)).
Proof. apply pres_modify_frame. intros t. destruct m; by constructor. Qed.

(** One step of a footprint proof: split the computation at its head. *)
Ltac pres_step :=
  lazymatch goal with
  | |- pres _ (_ ≫= _) => apply pres_bind; [tc_solve | | intros ?]
  | |- pres _ (mret _) => apply pres_ret; tc_solve
  | |- pres _ (raise _) => apply pres_raise; tc_solve
  | |- pres _ (deref _) => apply pres_deref; tc_solve
  | |- pres _ (getitem _ _) => apply pres_getitem; tc_solve
  | |- pres _ (typedefs_getitem _ _) => apply pres_typedefs_getitem; tc_solve
  | |- pres _ (py_pick _ _) => apply pres_py_pick; tc_solve
  | |- pres _ (get_relationship _) => apply pres_get_relationship; tc_solve
  | |- pres _ (check_size _ _) => apply pres_check_size; tc_solve
  | |- pres _ (forM _ _) => apply pres_forM; [tc_solve | intros ? _]
  | |- pres _ (list_comp _ _) => apply pres_list_comp; [tc_solve | intros ? _]
  | |- pres _ (match ?x with _ => _ end) => destruct x
  end.

Lemma pres_relationship_getitem a key :
  pres (frame fp_dyn) (relationship_getitem a key).
Proof.
  unfold relationship_getitem.
  repeat first [apply pres_setattr | pres_step].
Qed.

Lemma pres_relationship_update a key ts :
  pres (frame fp_dyn) (relationship_update a key ts).
Proof.
  unfold relationship_update.
  repeat first [apply pres_setattr | pres_step].
Qed.

Lemma pres_relationship_add a key rec :
  pres (frame fp_dyn) (relationship_add a key rec).
Proof.
  unfold relationship_add.
  pres_step; [apply pres_relationship_getitem | apply pres_relationship_update].
Qed.

Ltac pres_frame_step :=
  first
    [ apply pres_modify_frame; intros ?; by constructor
    | eapply pres_frame_weaken; [| apply pres_setattr]; solve_fp_le
    | eapply pres_frame_weaken; [| apply pres_delattr]; solve_fp_le
    | eapply pres_frame_weaken; [| apply pres_relationship_getitem]; solve_fp_le
    | eapply pres_frame_weaken; [| apply pres_relationship_update]; solve_fp_le
    | eapply pres_frame_weaken; [| apply pres_relationship_add]; solve_fp_le
    | pres_step ].

Lemma pres_resolve_relationship self rec :
  pres (frame fp_dyn) (resolve_relationship self rec).
Proof. unfold resolve_relationship. repeat pres_frame_step. Qed.

Lemma pres_resolve_references self rec :
  pres (frame fp_resolve) (resolve_references self rec).
Proof.
  unfold resolve_references.
  repeat first
    [ eapply pres_frame_weaken; [| apply pres_resolve_relationship]; solve_fp_le
    | pres_frame_step ].
Qed.

Lemma pres_populate_children rec : pres (frame fp_children) (populate_children rec).
Proof. unfold populate_children, add_child. repeat pres_frame_step. Qed.

Lemma pres_invert_relationships self rec :
  pres (frame fp_dyn) (invert_relationships self rec).
Proof.
  unfold invert_relationships, invert_typedef, add_inverted, ensure_relationship.
  repeat pres_frame_step.
Qed.

(** ** The metrics *)

Lemma list_comp_ext {A B} (f g : A -> M B) l :
  (forall x h, f x h = g x h) -> forall h, list_comp f l h = list_comp g l h.
Proof.
  intros Hfg. induction l as [|x l IH]; intros h; simpl; [done|].
  rewrite !bind_run, Hfg. destruct (g x h) as [h1 [y|e]]; [|done].
  rewrite !bind_run, IH. done.
Qed.

Lemma _init_level_metric fuel rec h :
  _init_level fuel rec h = _init_metric Level fuel rec h.
Proof.
  revert rec h. induction fuel as [|fuel IH]; intros rec h; [done|].
  cbn [_init_level _init_metric].
  rewrite !bind_run. destruct (deref rec h) as [h1 [r|e]]; [|done].
  cbn [get_metric]. destruct (GOTerm.level r); [done|].
  destruct (GOTerm.parents r) as [|p ps]; [done|].
  rewrite !bind_run. rewrite (list_comp_ext _ _ _ IH). done.
Qed.

Lemma _init_depth_metric fuel rec h :
  _init_depth fuel rec h = _init_metric Depth fuel rec h.
Proof.
  revert rec h. induction fuel as [|fuel IH]; intros rec h; [done|].
  cbn [_init_depth _init_metric].
  rewrite !bind_run. destruct (deref rec h) as [h1 [r|e]]; [|done].
  cbn [get_metric]. destruct (GOTerm.depth r); [done|].
  destruct (GOTerm.parents r) as [|p ps]; [done|].
  rewrite !bind_run. rewrite (list_comp_ext _ _ _ IH). done.
Qed.

Lemma get_set_metric m v t : get_metric m (set_metric m v t) = v.
Proof. by destruct m. Qed.

Lemma parents_set_metric m v t : GOTerm.parents (set_metric m v t) = GOTerm.parents t.
Proof. by destruct m. Qed.

Lemma lookup_metric_Some m h a v :
  lookup_metric m h a = Some v <-> exists t, h !! a = Some t /\ get_metric m t = Some v.
Proof.
  unfold lookup_metric. destruct (h !! a) as [t|]; split.
  - eauto.
  - by intros (? & [= <-] & ?).
  - done.
  - by intros (? & ? & ?).
Qed.

Lemma lookup_metric_alter_ne m h a b f :
  a <> b -> lookup_metric m (alter f a h) b = lookup_metric m h b.
Proof. intros Hne. unfold lookup_metric. by rewrite list_lookup_alter_ne. Qed.

Lemma lookup_metric_alter_set m h a t v :
  h !! a = Some t ->
  lookup_metric m (alter (set_metric m v) a h) a = v.
Proof.
  intros Ha. unfold lookup_metric. rewrite list_lookup_alter_eq, Ha. simpl.
  apply get_set_metric.
Qed.

Lemma pres__init_metric m fuel rec :
  pres (frame (fp_metric m)) (_init_metric m fuel rec).
Proof.
  revert rec. induction fuel as [|fuel IH]; intros rec; simpl.
  - pres_step.
  - repeat first [apply pres_set_metric | apply IH | pres_step].
Qed.

Lemma same_but_get_metric m fp t t' :
  leaves m fp -> same_but fp t t' -> get_metric m t' = get_metric m t.
Proof. intros Hl []. destruct m; simpl in *; auto. Qed.

Lemma frame_lookup_metric m fp h h' a :
  leaves m fp -> frame fp h h' -> lookup_metric m h' a = lookup_metric m h a.
Proof.
  intros Hl Hf. unfold lookup_metric.
  destruct (h !! a) as [t|] eqn:Ha.
  - destruct (frame_lookup _ _ _ _ _ Hf Ha) as (t' & -> & Hsb).
    by eapply same_but_get_metric.
  - destruct (h' !! a) as [t'|] eqn:Ha'; [|done].
    destruct (frame_lookup_r _ _ _ _ _ Hf Ha') as (t & Ht & _). congruence.
Qed.

#[global] Instance keeps_preorder m : PreOrder (keeps m).
Proof. split; [by intros h a v | intros h1 h2 h3 H12 H23 a v Ha; eauto]. Qed.

Lemma frame_keeps m fp h h' : leaves m fp -> frame fp h h' -> keeps m h h'.
Proof. intros Hl Hf a v. by rewrite (frame_lookup_metric m fp h h' a Hl Hf). Qed.

Lemma metric_eqn_keeps m h h' t t' v :
  keeps m h h' -> GOTerm.parents t' = GOTerm.parents t ->
  metric_eqn m h t v -> metric_eqn m h' t' v.
Proof.
  intros Hk Hp. unfold metric_eqn. rewrite Hp.
  destruct (GOTerm.parents t); [done|].
  intros (x & xs & HF & ->). exists x, xs. split; [|done].
  eapply Forall2_impl; [exact HF|]. intros p w. apply Hk.
Qed.

Lemma frame_metric_ok m fp h h' :
  leaves m fp -> w_parents fp = false -> frame fp h h' ->
  metric_ok m h -> metric_ok m h'.
Proof.
  intros Hl Hp Hf Hok a t' v Ha' Hv.
  destruct (frame_lookup_r _ _ _ _ _ Hf Ha') as (t & Ha & Hsb).
  rewrite (same_but_get_metric m fp t t') in Hv by done.
  destruct (Hok a t v Ha Hv) as (Hnn & Heqn). split; [done|].
  eapply metric_eqn_keeps; [by eapply frame_keeps | | exact Heqn].
  by apply (sb_parents _ _ _ Hsb).
Qed.

#[global] Instance stays_preorder m : PreOrder (stays m).
Proof. split; [by intros h a | intros h1 h2 h3 H12 H23 a Ha; eauto]. Qed.

Lemma stays_set_metric m a v h : stays m h (alter (set_metric m (Some v)) a h).
Proof.
  intros b [w Hb]. destruct (decide (a = b)) as [<-|Hne].
  - apply lookup_metric_Some in Hb as (t & Ht & _).
    rewrite (lookup_metric_alter_set _ _ _ t); eauto.
  - rewrite lookup_metric_alter_ne; eauto.
Qed.

Lemma pres_stays__init_metric m fuel rec : pres (stays m) (_init_metric m fuel rec).
Proof.
  revert rec. induction fuel as [|fuel IH]; intros rec; simpl.
  - pres_step.
  - repeat first [intros h; apply stays_set_metric | apply IH | pres_step].
Qed.

Lemma pres_stays_list_comp m fuel ps :
  pres (stays m) (list_comp (_init_metric m fuel) ps).
Proof. pres_step. apply pres_stays__init_metric. Qed.

Lemma pres_frame_list_comp m fuel ps :
  pres (frame (fp_metric m)) (list_comp (_init_metric m fuel) ps).
Proof. pres_step. apply pres__init_metric. Qed.

Lemma fp_metric_parents m : w_parents (fp_metric m) = false.
Proof. by destruct m. Qed.

Lemma reach_trans m h a b c : reach m h a b -> reach m h b c -> reach m h a c.
Proof. induction 1; [done|]. intros Hc. eapply reach_step; eauto. Qed.

(** Reaching in a later heap is reaching in the earlier one. *)
Lemma reach_back m h h' a b :
  frame (fp_metric m) h h' -> stays m h h' -> reach m h' a b -> reach m h a b.
Proof.
  intros Hf Hs. induction 1 as [|a t' p b Ha' Hget Hp _ IH]; [constructor|].
  destruct (frame_lookup_r _ _ _ _ _ Hf Ha') as (t & Ha & Hsb).
  apply (reach_step m h a t p b); [done| |by rewrite <- (sb_parents _ _ _ Hsb (fp_metric_parents m))|done].
  destruct (get_metric m t) as [v|] eqn:Hv; [|done].
  destruct (Hs a) as [w Hw].
  - exists v. apply lookup_metric_Some. eauto.
  - apply lookup_metric_Some in Hw as (t2 & Ht2 & Hw). congruence.
Qed.

(** [_init_metric] changes only Terms it reaches from its argument along
    parent links out of Terms without the metric. *)
Lemma list_comp_touches m fuel ps :
  (forall a h b, (_init_metric m fuel a h).1 !! b = h !! b \/ reach m h a b) ->
  forall h b,
    (list_comp (_init_metric m fuel) ps h).1 !! b = h !! b \/
    exists p, In p ps /\ reach m h p b.
Proof.
  intros IH. induction ps as [|p ps IHps]; intros h b; simpl; [by left|].
  rewrite bind_run.
  pose proof (IH p h b) as Hp.
  pose proof (pres__init_metric m fuel p h) as Hf.
  pose proof (pres_stays__init_metric m fuel p h) as Hs.
  destruct (_init_metric m fuel p h) as [h2 [y|e]]; simpl in *.
  - rewrite bind_run. specialize (IHps h2 b).
    destruct (list_comp (_init_metric m fuel) ps h2) as [h3 [ys|e]]; simpl in *.
    all: destruct IHps as [-> | (q & Hq & Hr)];
      [ destruct Hp as [-> | Hp]; [by left | right; exists p; auto]
      | right; exists q; split; [auto | by eapply reach_back] ].
  - destruct Hp as [-> | Hp]; [by left | right; exists p; auto].
Qed.

Lemma _init_metric_touches m fuel a h b :
  (_init_metric m fuel a h).1 !! b = h !! b \/ reach m h a b.
Proof.
  revert a h b. induction fuel as [|fuel IH]; intros a h b; [by left|].
  cbn [_init_metric]. rewrite bind_run. unfold deref.
  destruct (h !! a) as [t|] eqn:Ha; [|by left].
  destruct (get_metric m t) as [v|] eqn:Hv; [by left|].
  destruct (GOTerm.parents t) as [|p ps] eqn:Hps.
  - simpl. destruct (decide (a = b)) as [<-|Hne]; [right; constructor|].
    left. by apply list_lookup_alter_ne.
  - rewrite bind_run.
    pose proof (list_comp_touches m fuel (p :: ps) IH h b) as Hl.
    destruct (list_comp (_init_metric m fuel) (p :: ps) h) as [h1 [vs|e]]; simpl in Hl.
    + assert (Hb : reach m h a b \/ h1 !! b = h !! b).
      { destruct Hl as [Hl | (q & Hq & Hr)]; [by right | left].
        eapply reach_step; eauto. by rewrite Hps. }
      destruct vs as [|x xs]; simpl; [destruct Hb; auto|].
      destruct (decide (a = b)) as [<-|Hne]; [right; constructor|].
      destruct Hb as [Hb|Hb]; [by right | left].
      by rewrite list_lookup_alter_ne.
    + simpl. destruct Hl as [Hl | (q & Hq & Hr)]; [by left | right].
      eapply reach_step; eauto. by rewrite Hps.
Qed.

Lemma computable_back m h h' b :
  frame (fp_metric m) h h' ->
  (forall c, is_Some (lookup_metric m h' c) -> computable m h c) ->
  computable m h' b -> computable m h b.
Proof.
  intros Hf Hset. induction 1 as [b v Hv | b t' Hb' Hget _ IH].
  - apply Hset. by exists v.
  - destruct (frame_lookup_r _ _ _ _ _ Hf Hb') as (t & Hb & Hsb).
    destruct (get_metric m t) as [v|] eqn:Hv.
    + apply (computable_set m h b v). apply lookup_metric_Some. eauto.
    + apply (computable_unset m h b t); [done..|].
      rewrite <- (sb_parents _ _ _ Hsb (fp_metric_parents m)). exact IH.
Qed.

(** A computable Term without the metric is not its own ancestor along
    Terms without the metric. *)
Lemma computable_no_cycle m h a :
  computable m h a ->
  forall t p, h !! a = Some t -> get_metric m t = None ->
    In p (GOTerm.parents t) -> reach m h p a -> False.
Proof.
  induction 1 as [a v Hv | a t Ha Hget _ IH]; intros t0 p Ha0 Hget0 Hp Hr.
  - apply lookup_metric_Some in Hv as (t & Ht & Hv). congruence.
  - assert (t0 = t) as -> by congruence.
    inversion Hr as [|? tp q ? Hp' Hgetp Hq Hqa]; subst.
    + eapply (IH a Hp); eauto.
    + eapply (IH p Hp tp q); eauto.
      eapply reach_trans; [exact Hqa|].
      eapply reach_step; eauto. constructor.
Qed.

(** A successful run shows that every metric it leaves set was
    computable at its start. *)
Lemma list_comp_computable m fuel ps :
  (forall a h h' v, _init_metric m fuel a h = (h', Ok v) ->
     is_Some (lookup_metric m h' a) /\
     forall b, is_Some (lookup_metric m h' b) -> computable m h b) ->
  forall h h' vs, list_comp (_init_metric m fuel) ps h = (h', Ok vs) ->
    Forall (fun p => is_Some (lookup_metric m h' p)) ps /\
    forall b, is_Some (lookup_metric m h' b) -> computable m h b.
Proof.
  intros IH. induction ps as [|p ps IHps]; intros h h' vs Hrun; simpl in Hrun.
  - inv_run Hrun. split; [constructor|]. intros b [v Hv]. by eapply computable_set.
  - inv_run Hrun.
    destruct (IH _ _ _ _ Hrun0) as (Hp & Hset1).
    destruct (IHps _ _ _ Hrun1) as (Hps & Hset2).
    pose proof (pres_stays_list_comp m fuel ps h0) as Hs. rewrite Hrun1 in Hs.
    pose proof (pres__init_metric m fuel p h) as Hf. rewrite Hrun0 in Hf.
    split; [constructor; [by apply Hs | done]|].
    intros b Hb. eapply computable_back; eauto.
Qed.

Lemma _init_metric_computable m fuel a h h' v :
  _init_metric m fuel a h = (h', Ok v) ->
  is_Some (lookup_metric m h' a) /\
  forall b, is_Some (lookup_metric m h' b) -> computable m h b.
Proof.
  revert a h h' v. induction fuel as [|fuel IH]; intros a h h' v Hrun; [done|].
  cbn [_init_metric] in Hrun. inv_run Hrun.
  apply deref_Ok_inv in Hrun0 as (-> & Ha).
  destruct (get_metric m x) as [w|] eqn:Hw.
  { inv_run Hrun. split.
    - exists w. apply lookup_metric_Some. eauto.
    - intros b [u Hu]. by eapply computable_set. }
  destruct (GOTerm.parents x) as [|p ps] eqn:Hps.
  - inv_run Hrun. apply modify_Ok_inv in Hrun0 as ->.
    split; [rewrite (lookup_metric_alter_set _ _ _ x); eauto|].
    intros b Hb. destruct (decide (a = b)) as [<-|Hne].
    + apply (computable_unset m h a x); [done..|]. rewrite Hps. by intros ? [].
    + rewrite lookup_metric_alter_ne in Hb by done.
      destruct Hb as [u Hu]. by eapply computable_set.
  - inv_run Hrun.
    destruct (list_comp_computable m fuel (p :: ps) IH _ _ _ Hrun0) as (Hall & Hset).
    pose proof (pres_frame_list_comp m fuel (p :: ps) h) as Hf. rewrite Hrun0 in Hf.
    destruct (frame_lookup _ _ _ _ _ Hf Ha) as (t1 & Ha1 & _).
    apply py_pick_Ok_inv in Hrun1 as (-> & _).
    apply modify_Ok_inv in Hrun2 as ->.
    split; [rewrite (lookup_metric_alter_set _ _ _ t1); eauto|].
    intros b Hb. destruct (decide (a = b)) as [<-|Hne].
    + apply (computable_unset m h a x); [done..|]. rewrite Hps.
      intros q Hq. apply Hset. rewrite Forall_forall in Hall. apply Hall.
      by apply list_elem_of_In.
    + rewrite lookup_metric_alter_ne in Hb by done. by apply Hset.
Qed.

Lemma list_comp_metric_spec m fuel ps :
  (forall a h, metric_post m a h (_init_metric m fuel a h)) ->
  forall h,
    let r := list_comp (_init_metric m fuel) ps h in
    keeps m h r.1 /\
    (forall vs, r.2 = Ok vs ->
       Forall2 (fun p v => lookup_metric m r.1 p = Some v) ps vs) /\
    (metric_ok m h -> metric_ok m r.1).
Proof.
  intros IH. induction ps as [|p ps IHps]; intros h; simpl.
  - split; [reflexivity|]. split; [|done]. intros vs [= <-]. constructor.
  - rewrite bind_run. destruct (IH p h) as (Hk2 & Hv2 & Hok2).
    destruct (_init_metric m fuel p h) as [h2 [y|e]]; simpl in *; [|done].
    rewrite bind_run. destruct (IHps h2) as (Hk3 & Hv3 & Hok3).
    destruct (list_comp (_init_metric m fuel) ps h2) as [h3 [ys|e]]; simpl in *.
    + split; [by etrans|]. split; [|by auto]. intros vs [= <-].
      constructor; [apply Hk3; eauto | eauto].
    + split; [by etrans|]. split; [done | by auto].
Qed.

Lemma keeps_set_metric m h a t v :
  h !! a = Some t -> get_metric m t = None ->
  keeps m h (alter (set_metric m v) a h).
Proof.
  intros Ha Hget b w Hb. destruct (decide (a = b)) as [<-|Hne].
  - apply lookup_metric_Some in Hb as (t' & Ht' & Hw). congruence.
  - by rewrite lookup_metric_alter_ne.
Qed.

Lemma metric_ok_set_metric m h a t v :
  h !! a = Some t -> get_metric m t = None ->
  metric_ok m h ->
  (0 <= v)%Z -> metric_eqn m h t v ->
  metric_ok m (alter (set_metric m (Some v)) a h).
Proof.
  intros Ha Hget Hok Hnn Heqn b tb w Hb Hw.
  pose proof (keeps_set_metric m h a t (Some v) Ha Hget) as Hk.
  destruct (decide (a = b)) as [<-|Hne].
  - rewrite list_lookup_alter_eq, Ha in Hb. injection Hb as <-.
    rewrite get_set_metric in Hw. injection Hw as <-. split; [done|].
    eapply metric_eqn_keeps; [exact Hk | apply parents_set_metric | done].
  - rewrite list_lookup_alter_ne in Hb by done.
    destruct (Hok b tb w Hb Hw) as (Hnn' & Heqn'). split; [done|].
    eapply metric_eqn_keeps; [exact Hk | done | done].
Qed.

Lemma fold_pick_nonneg m xs x :
  (0 <= x)%Z -> Forall (fun y => 0 <= y)%Z xs -> (0 <= fold_left (pick m) xs x)%Z.
Proof.
  revert x. induction xs as [|y ys IH]; intros x Hx Hys; simpl; [done|].
  inversion Hys; subst. apply IH; [|done]. destruct m; simpl; lia.
Qed.

Lemma metric_ok_lookup_nonneg m h ps vs :
  metric_ok m h ->
  Forall2 (fun p v => lookup_metric m h p = Some v) ps vs ->
  Forall (fun y => 0 <= y)%Z vs.
Proof.
  intros Hok. induction 1 as [|p v ps vs Hp _ IH]; constructor; [|done].
  apply lookup_metric_Some in Hp as (t & Ht & Hv). by destruct (Hok p t v Ht Hv).
Qed.

Lemma _init_metric_spec m fuel a h : metric_post m a h (_init_metric m fuel a h).
Proof.
  revert a h. induction fuel as [|fuel IH]; intros a h.
  { split; [reflexivity|]. split; [done|]. done. }
  unfold metric_post.
  cbn [_init_metric]. rewrite bind_run. unfold deref.
  destruct (h !! a) as [t|] eqn:Ha; [|split; [reflexivity|]; split; done].
  destruct (get_metric m t) as [w|] eqn:Hw.
  { split; [reflexivity|]. split; [|done]. intros v [= <-].
    apply lookup_metric_Some. eauto. }
  destruct (GOTerm.parents t) as [|p ps] eqn:Hps.
  - simpl. split; [|split].
    + by eapply keeps_set_metric.
    + intros v [= <-]. by rewrite (lookup_metric_alter_set _ _ _ t).
    + intros Hok. eapply metric_ok_set_metric; eauto; [done|].
      unfold metric_eqn. by rewrite Hps.
  - rewrite bind_run.
    destruct (list_comp_metric_spec m fuel (p :: ps) IH h) as (Hk1 & HF & Hok1).
    pose proof (list_comp_touches m fuel (p :: ps) (_init_metric_touches m fuel) h a) as Ht.
    pose proof (list_comp_computable m fuel (p :: ps) (_init_metric_computable m fuel) h) as Hc.
    destruct (list_comp (_init_metric m fuel) (p :: ps) h) as [h1 [vs|e]];
      simpl in *; [|done].
    specialize (HF vs eq_refl). destruct (Hc h1 vs eq_refl) as (Hall & Hset).
    assert (Ha1 : h1 !! a = Some t).
    { destruct Ht as [-> | (q & Hq & Hr)]; [done|]. exfalso.
      eapply (computable_no_cycle m h a); [| exact Ha | exact Hw | | exact Hr].
      - apply (computable_unset m h a t); [done..|]. rewrite Hps.
        intros q' Hq'. apply Hset. rewrite Forall_forall in Hall. apply Hall.
        by apply list_elem_of_In.
      - by rewrite Hps. }
    destruct vs as [|x xs]; [by inversion HF|]. simpl.
    split; [|split].
    + etrans; [exact Hk1|]. by eapply keeps_set_metric.
    + intros v [= <-]. by rewrite (lookup_metric_alter_set _ _ _ t).
    + intros Hok. specialize (Hok1 Hok).
      pose proof (metric_ok_lookup_nonneg m h1 _ _ Hok1 HF) as Hnn.
      inversion Hnn; subst.
      eapply metric_ok_set_metric; eauto.
      * assert (0 <= fold_left (pick m) xs x)%Z
          by (apply fold_pick_nonneg; assumption).
        lia.
      * unfold metric_eqn. rewrite Hps. eauto.
Qed.

(** ** The loops of [populate_terms] *)

#[global] Instance maintains_preorder I : PreOrder (maintains I).
Proof.
  split; [intros h Hh; exact Hh | intros h1 h2 h3 H12 H23 H1; apply H23, H12, H1].
Qed.

Lemma pres_ext {A} R (c c' : M A) :
  (forall h, c h = c' h) -> pres R c' -> pres R c.
Proof. intros Heq Hc h. rewrite Heq. apply Hc. Qed.

Lemma forM_Ok_post {A} (I : heap -> Prop) (Q : A -> heap -> Prop) l body :
  (forall x, In x l -> pres (maintains I) (body x)) ->
  (forall x h h' u, In x l -> I h -> body x h = (h', Ok u) -> Q x h') ->
  (forall x y, In x l -> pres (maintains (Q y)) (body x)) ->
  forall h h' u, I h -> forM l body h = (h', Ok u) ->
    I h' /\ forall x, In x l -> Q x h'.
Proof.
  induction l as [|x l IH]; intros HI Hpost Hstab h h' u Hh Hrun; simpl in Hrun.
  - inv_run Hrun. split; [done | by intros ? []].
  - inv_run Hrun.
    assert (Hh0 : I h0).
    { pose proof (HI x (or_introl eq_refl) h) as H. rewrite Hrun0 in H. by apply H. }
    assert (Hx : Q x h0) by exact (Hpost x h h0 _ (or_introl eq_refl) Hh Hrun0).
    destruct (IH (fun y Hy => HI y (or_intror Hy))
                 (fun y h1 h2 u' Hy => Hpost y h1 h2 u' (or_intror Hy))
                 (fun y z Hy => Hstab y z (or_intror Hy))
                 h0 h' u Hh0 Hrun) as (Hh' & Hl).
    split; [done|]. intros y [<- | Hy]; [|by apply Hl].
    pose proof (pres_forM (maintains (Q x)) l body
                  (fun z Hz => Hstab z x (or_intror Hz)) h0) as H.
    rewrite Hrun in H. by apply H.
Qed.

Lemma pres_keeps_of_frame {A} m fp (c : M A) :
  leaves m fp -> pres (frame fp) c -> pres (keeps m) c.
Proof. intros Hl Hc h. eapply frame_keeps; [exact Hl | apply Hc]. Qed.

Lemma pres_ok_of_frame {A} m fp (c : M A) :
  leaves m fp -> w_parents fp = false -> pres (frame fp) c ->
  pres (maintains (metric_ok m)) c.
Proof.
  intros Hl Hp Hc h Hok. eapply frame_metric_ok; [exact Hl | exact Hp | apply Hc | exact Hok].
Qed.

Lemma pres_keeps__init_metric m fuel a : pres (keeps m) (_init_metric m fuel a).
Proof. intros h. by destruct (_init_metric_spec m fuel a h) as (? & _ & _). Qed.

Lemma pres_ok__init_metric m fuel a :
  pres (maintains (metric_ok m)) (_init_metric m fuel a).
Proof. intros h. by destruct (_init_metric_spec m fuel a h) as (_ & _ & ?). Qed.

Lemma pres_frame__init_level fuel a :
  pres (frame (fp_metric Level)) (_init_level fuel a).
Proof. eapply pres_ext; [apply _init_level_metric | apply pres__init_metric]. Qed.

Lemma pres_frame__init_depth fuel a :
  pres (frame (fp_metric Depth)) (_init_depth fuel a).
Proof. eapply pres_ext; [apply _init_depth_metric | apply pres__init_metric]. Qed.

Lemma pres_frame_link fuel self rec :
  pres (frame fp_link) (link_and_measure fuel self rec).
Proof.
  unfold link_and_measure.
  repeat first
    [ eapply pres_frame_weaken; [| apply pres_populate_children]; solve_fp_le
    | eapply pres_frame_weaken; [| apply pres_invert_relationships]; solve_fp_le
    | eapply pres_frame_weaken; [| apply pres_frame__init_level]; solve_fp_le
    | eapply pres_frame_weaken; [| apply pres_frame__init_depth]; solve_fp_le
    | pres_step ].
Qed.

(** The two metric blocks of the second loop, through [_init_metric]. *)
Lemma pres_keeps__init m m' fuel a :
  pres (keeps m) (_init_metric m' fuel a).
Proof.
  destruct m, m'; first [apply pres_keeps__init_metric |
    eapply pres_keeps_of_frame; [| apply pres__init_metric]; done].
Qed.

Lemma pres_ok__init m m' fuel a :
  pres (maintains (metric_ok m)) (_init_metric m' fuel a).
Proof.
  destruct m, m'; first [apply pres_ok__init_metric |
    eapply pres_ok_of_frame; [| | apply pres__init_metric]; done].
Qed.

(** The second loop keeps what its four blocks keep. *)
Lemma pres_link R `{!PreOrder R} fuel self rec :
  pres R (populate_children rec) ->
  pres R (invert_relationships self rec) ->
  pres R (_init_metric Level fuel rec) ->
  pres R (_init_metric Depth fuel rec) ->
  pres R (link_and_measure fuel self rec).
Proof.
  intros Hc Hi HL HD. unfold link_and_measure.
  repeat first
    [ apply Hc | apply Hi
    | eapply pres_ext; [apply _init_level_metric | apply HL]
    | eapply pres_ext; [apply _init_depth_metric | apply HD]
    | pres_step ].
Qed.

Lemma pres_keeps_link m fuel self rec :
  pres (keeps m) (link_and_measure fuel self rec).
Proof.
  apply pres_link; [tc_solve | | | apply pres_keeps__init..].
  - eapply pres_keeps_of_frame; [| apply pres_populate_children]. by destruct m.
  - eapply pres_keeps_of_frame; [| apply pres_invert_relationships]. by destruct m.
Qed.

Lemma pres_ok_link m fuel self rec :
  pres (maintains (metric_ok m)) (link_and_measure fuel self rec).
Proof.
  apply pres_link; [tc_solve | | | apply pres_ok__init..].
  - eapply pres_ok_of_frame; [| | apply pres_populate_children]; by destruct m.
  - eapply pres_ok_of_frame; [| | apply pres_invert_relationships]; by destruct m.
Qed.

Lemma _init_metric_Ok m fuel a h h' v :
  _init_metric m fuel a h = (h', Ok v) -> lookup_metric m h' a = Some v.
Proof.
  intros Hrun. destruct (_init_metric_spec m fuel a h) as (_ & Hv & _).
  rewrite Hrun in Hv. by apply Hv.
Qed.

Lemma _init_level_Ok fuel a h h' v :
  _init_level fuel a h = (h', Ok v) -> lookup_metric Level h' a = Some v.
Proof. rewrite _init_level_metric. apply _init_metric_Ok. Qed.

Lemma _init_depth_Ok fuel a h h' v :
  _init_depth fuel a h = (h', Ok v) -> lookup_metric Depth h' a = Some v.
Proof. rewrite _init_depth_metric. apply _init_metric_Ok. Qed.

Lemma link_and_measure_measured fuel self a h h' u :
  link_and_measure fuel self a h = (h', Ok u) -> measured h' a.
Proof.
  unfold link_and_measure. intros Hrun. inv_run Hrun.
  apply deref_Ok_inv in Hrun2 as (-> & Ha2).
  apply deref_Ok_inv in Hrun4 as (-> & Ha4).
  assert (HL : is_Some (lookup_metric Level h3 a)).
  { destruct (GOTerm.level x1) as [l|] eqn:Hl; inv_run Hrun3.
    - exists l. apply lookup_metric_Some. eauto.
    - eexists. eapply _init_level_Ok; eauto. }
  destruct (GOTerm.depth x3) as [d|] eqn:Hd; inv_run Hrun.
  - split; [done|]. exists d. apply lookup_metric_Some. eauto.
  - match goal with H : _init_depth _ _ _ = _ |- _ => rename H into Hd' end.
    split; [|eexists; eapply _init_depth_Ok; eauto].
    destruct HL as [l HL]. exists l.
    pose proof (pres_keeps__init Level Depth fuel a h3) as Hk.
    rewrite <- _init_depth_metric, Hd' in Hk. by apply Hk.
Qed.

Lemma unset_metric_ok m h : unset m h -> metric_ok m h.
Proof.
  intros Hu a t v Ha Hv. specialize (Hu a).
  unfold lookup_metric in Hu. rewrite Ha in Hu. congruence.
Qed.

Lemma pres_frame_resolve_loop self l :
  pres (frame fp_resolve) (forM l (resolve_references self)).
Proof. pres_step. apply pres_resolve_references. Qed.

Lemma pres_frame_link_loop fuel self l :
  pres (frame fp_link) (forM l (link_and_measure fuel self)).
Proof. pres_step. apply pres_frame_link. Qed.

Lemma measured_keeps h h' a :
  keeps Level h h' -> keeps Depth h h' -> measured h a -> measured h' a.
Proof. intros HL HD [[l Hl] [d Hd]]. split; eexists; eauto. Qed.

(** After a successful assembly from a heap without metrics, the metrics
    obey their equations and every Term of the graph has both. *)
Lemma populate_terms_metrics fuel self h h' u :
  unset Level h -> unset Depth h ->
  populate_terms fuel self h = (h', Ok u) ->
  metric_ok Level h' /\ metric_ok Depth h' /\
  forall a, In a (values self) -> measured h' a.
Proof.
  intros HuL HuD Hrun. unfold populate_terms in Hrun. inv_run Hrun.
  pose proof (pres_frame_resolve_loop self (values self) h) as Hf.
  rewrite Hrun0 in Hf. simpl in Hf.
  assert (Hoks : metric_ok Level h0 /\ metric_ok Depth h0).
  { split; apply unset_metric_ok; intros a.
    - by rewrite (frame_lookup_metric Level fp_resolve h h0 a).
    - by rewrite (frame_lookup_metric Depth fp_resolve h h0 a). }
  destruct (forM_Ok_post
              (fun h => metric_ok Level h /\ metric_ok Depth h)
              (fun a h => measured h a)
              (values self) (link_and_measure fuel self)) with (h := h0) (h' := h') (u := u)
    as ((HokL & HokD) & Hm); try done.
  - intros a _ h1 [HL HD]. split.
    + by apply (pres_ok_link Level fuel self a h1).
    + by apply (pres_ok_link Depth fuel self a h1).
  - intros a h1 h2 u' _ _ Hr. by eapply link_and_measure_measured.
  - intros a b _ h1 Hb. eapply measured_keeps; [| | exact Hb].
    + apply (pres_keeps_link Level).
    + apply (pres_keeps_link Depth).
Qed.

Lemma fresh_lookup h a t :
  fresh h = true -> h !! a = Some t ->
  GOTerm.level t = None /\ GOTerm.depth t = None /\ GOTerm.children t = [].
Proof.
  unfold fresh. rewrite forallb_forall. intros Hf Ha.
  assert (Hin : In t h) by (apply list_elem_of_In; by eapply list_elem_of_lookup_2).
  specialize (Hf t Hin). unfold fresh_term in Hf.
  destruct (GOTerm.level t), (GOTerm.depth t), (GOTerm.children t); done.
Qed.

Lemma fresh_unset m h : fresh h = true -> unset m h.
Proof.
  intros Hf a. unfold lookup_metric. destruct (h !! a) as [t|] eqn:Ha; [|done].
  destruct (fresh_lookup h a t Hf Ha) as (HL & HD & _). by destruct m.
Qed.

Lemma fold_min_le xs x : (fold_left Z.min xs x <= x)%Z.
Proof.
  revert x. induction xs as [|y ys IH]; intros x; simpl; [lia|].
  specialize (IH (Z.min x y)). lia.
Qed.

Lemma fold_max_ge xs x : (x <= fold_left Z.max xs x)%Z.
Proof.
  revert x. induction xs as [|y ys IH]; intros x; simpl; [lia|].
  specialize (IH (Z.max x y)). lia.
Qed.

Lemma fold_max_ge_all xs x y : In y (x :: xs) -> (y <= fold_left Z.max xs x)%Z.
Proof.
  revert x. induction xs as [|z zs IH]; intros x; simpl.
  - intros [-> | []]. lia.
  - intros [-> | [-> | Hy]].
    + pose proof (fold_max_ge zs (Z.max y z)). lia.
    + pose proof (fold_max_ge zs (Z.max x y)). lia.
    + apply IH. by right.
Qed.

Lemma metric_ok_lookup m h a v :
  metric_ok m h -> lookup_metric m h a = Some v ->
  exists t, h !! a = Some t /\ get_metric m t = Some v /\
            (0 <= v)%Z /\ metric_eqn m h t v.
Proof.
  intros Hok Hv. apply lookup_metric_Some in Hv as (t & Ht & Hv).
  destruct (Hok a t v Ht Hv). eauto 6.
Qed.

(** Level is at most depth wherever both are set and obey their
    equations: by induction on the depth. *)
Lemma level_le_depth h :
  metric_ok Level h -> metric_ok Depth h ->
  forall n a l d,
    lookup_metric Level h a = Some l -> lookup_metric Depth h a = Some d ->
    Z.to_nat d <= n -> (l <= d)%Z.
Proof.
  intros HokL HokD. induction n as [|n IH]; intros a l d Hl Hd Hn.
  all: destruct (metric_ok_lookup _ _ _ _ HokL Hl) as (t & Ht & _ & Hl0 & HeL).
  all: destruct (metric_ok_lookup _ _ _ _ HokD Hd) as (t' & Ht' & _ & Hd0 & HeD).
  all: assert (t' = t) as -> by congruence.
  all: unfold metric_eqn in HeL, HeD.
  all: destruct (GOTerm.parents t) as [|p ps]; [lia|].
  all: destruct HeL as (x & xs & HFL & ->); destruct HeD as (y & ys & HFD & ->).
  all: inversion HFL as [|? ? ? ? Hpx _]; inversion HFD as [|? ? ? ? Hpy _]; subst.
  all: destruct (metric_ok_lookup _ _ _ _ HokD Hpy) as (_ & _ & _ & Hy0 & _).
  all: pose proof (fold_max_ge ys y) as Hmax; pose proof (fold_min_le xs x) as Hmin.
  all: cbn [pick] in *.
  - lia.
  - assert (x <= y)%Z by (eapply (IH p); eauto; lia). lia.
Qed.

(** C1. After graph assembly, every Term of the graph whose parents list
    is empty has level 0 and depth 0. An isolated Term, one without
    parents that is nobody's parent, is such a Term. *)
Theorem populate_terms_root_metrics fuel self h h' u a t :
  fresh h = true ->
  populate_terms fuel self h = (h', Ok u) ->
  In a (values self) ->
  h' !! a = Some t ->
  GOTerm.parents t = [] ->
  GOTerm.level t = Some 0%Z /\ GOTerm.depth t = Some 0%Z.
Proof.
  intros Hf Hrun Ha Ht Hps.
  destruct (populate_terms_metrics fuel self h h' u
              (fresh_unset Level h Hf) (fresh_unset Depth h Hf) Hrun)
    as (HokL & HokD & Hm).
  destruct (Hm a Ha) as [[l Hl] [d Hd]].
  destruct (metric_ok_lookup _ _ _ _ HokL Hl) as (t1 & Ht1 & Hl1 & _ & HeL).
  destruct (metric_ok_lookup _ _ _ _ HokD Hd) as (t2 & Ht2 & Hd2 & _ & HeD).
  assert (t1 = t) as -> by congruence. assert (t2 = t) as -> by congruence.
  unfold metric_eqn in HeL, HeD. rewrite Hps in HeL, HeD. subst.
  simpl in *. done.
Qed.

(** C2. After graph assembly, every Term of the graph has a level and a
    depth; the level is 0 at a root and else one more than the least
    level of its parents, the depth is 0 at a root and else one more than
    the greatest depth of its parents, and the level is at most the
    depth. A graph whose parent relation has a cycle is not assembled:
    the recursion does not end. *)
Theorem populate_terms_level_le_depth fuel self h h' u a t :
  fresh h = true ->
  populate_terms fuel self h = (h', Ok u) ->
  In a (values self) ->
  h' !! a = Some t ->
  exists l d,
    GOTerm.level t = Some l /\ GOTerm.depth t = Some d /\
    metric_eqn Level h' t l /\ metric_eqn Depth h' t d /\
    (l <= d)%Z.
Proof.
  intros Hf Hrun Ha Ht.
  destruct (populate_terms_metrics fuel self h h' u
              (fresh_unset Level h Hf) (fresh_unset Depth h Hf) Hrun)
    as (HokL & HokD & Hm).
  destruct (Hm a Ha) as [[l Hl] [d Hd]].
  destruct (metric_ok_lookup _ _ _ _ HokL Hl) as (t1 & Ht1 & Hl1 & _ & HeL).
  destruct (metric_ok_lookup _ _ _ _ HokD Hd) as (t2 & Ht2 & Hd2 & _ & HeD).
  assert (t1 = t) as -> by congruence. assert (t2 = t) as -> by congruence.
  exists l, d. repeat split; try done.
  by eapply (level_le_depth h' HokL HokD (Z.to_nat d) a).
Qed.

Lemma pres_keeps_populate_terms m fuel self :
  pres (keeps m) (populate_terms fuel self).
Proof.
  unfold populate_terms. pres_step.
  - eapply pres_keeps_of_frame; [| apply pres_frame_resolve_loop]. by destruct m.
  - pres_step. apply pres_keeps_link.
Qed.

(** C8. Running [populate_terms] again on a graph whose levels and depths
    are all computed leaves the level and the depth of every Term of the
    graph as they were, whatever the outcome of that second run. *)
Theorem populate_terms_again_keeps_metrics fuel self h a t :
  forallb (measured_b h) (values self) = true ->
  In a (values self) ->
  h !! a = Some t ->
  exists t', (populate_terms fuel self h).1 !! a = Some t' /\
    GOTerm.level t' = GOTerm.level t /\ GOTerm.depth t' = GOTerm.depth t.
Proof.
  rewrite forallb_forall. intros Hall Ha Ht.
  specialize (Hall a Ha). unfold measured_b in Hall. rewrite Ht in Hall.
  destruct (GOTerm.level t) as [l|] eqn:Hl; [|done].
  destruct (GOTerm.depth t) as [d|] eqn:Hd; [|done].
  assert (HL : lookup_metric Level h a = Some l) by (apply lookup_metric_Some; eauto).
  assert (HD : lookup_metric Depth h a = Some d) by (apply lookup_metric_Some; eauto).
  apply (pres_keeps_populate_terms Level fuel self h) in HL.
  apply (pres_keeps_populate_terms Depth fuel self h) in HD.
  apply lookup_metric_Some in HL as (t1 & Ht1 & HL).
  apply lookup_metric_Some in HD as (t2 & Ht2 & HD).
  exists t1. split; [done|]. assert (t2 = t1) as -> by congruence. done.
Qed.

(** ** Children *)

#[global] Instance children_grow_preorder : PreOrder children_grow.
Proof.
  split.
  - intros h a t Ha. eauto.
  - intros h1 h2 h3 H12 H23 a t Ha.
    destruct (H12 a t Ha) as (t2 & Ha2 & Hin2).
    destruct (H23 a t2 Ha2) as (t3 & Ha3 & Hin3). eauto.
Qed.

Lemma str_in_In k l : str_in k l = true <-> In k l.
Proof.
  unfold str_in. rewrite existsb_exists. split.
  - intros (y & Hy & Heq). apply String.eqb_eq in Heq. by subst.
  - intros Hk. exists k. split; [done | apply String.eqb_refl].
Qed.

Lemma term_in_In x l : term_in x l = true <-> In x l.
Proof.
  unfold term_in. rewrite existsb_exists. split.
  - intros (y & Hy & Heq). apply Nat.eqb_eq in Heq. by subst.
  - intros Hx. exists x. split; [done | apply Nat.eqb_refl].
Qed.

Lemma count_term_NoDup x l : NoDup l -> In x l -> count_term x l = 1.
Proof.
  induction 1 as [|y l Hy Hnd IH]; intros Hx; [done|]. simpl.
  destruct (Nat.eqb_spec x y) as [->|Hne].
  - assert (count_term y l = 0) as ->; [|done].
    clear -Hy. induction l as [|z l IHl]; [done|]. simpl.
    apply not_elem_of_cons in Hy as [Hyz Hy].
    destruct (Nat.eqb_spec y z); [done|]. by apply IHl.
  - destruct Hx as [->|Hx]; [done|]. by apply IH.
Qed.

Lemma frame_children_grow fp h h' :
  w_children fp = false -> frame fp h h' -> children_grow h h'.
Proof.
  intros Hw Hf a t Ha. destruct (frame_lookup _ _ _ _ _ Hf Ha) as (t' & Ha' & Hsb).
  exists t'. split; [done|]. by rewrite (sb_children _ _ _ Hsb Hw).
Qed.

Lemma frame_children_nodup fp h h' :
  w_children fp = false -> frame fp h h' -> children_nodup h -> children_nodup h'.
Proof.
  intros Hw Hf Hnd a t' Ha'.
  destruct (frame_lookup_r _ _ _ _ _ Hf Ha') as (t & Ha & Hsb).
  rewrite (sb_children _ _ _ Hsb Hw). by eapply Hnd.
Qed.

Lemma pres_grow_of_frame {A} fp (c : M A) :
  w_children fp = false -> pres (frame fp) c -> pres children_grow c.
Proof. intros Hw Hc h. eapply frame_children_grow; [exact Hw | apply Hc]. Qed.

Lemma pres_nodup_of_frame {A} fp (c : M A) :
  w_children fp = false -> pres (frame fp) c -> pres (maintains children_nodup) c.
Proof.
  intros Hw Hc h Hnd. eapply frame_children_nodup; [exact Hw | apply Hc | exact Hnd].
Qed.

Lemma add_child_run rec parent h :
  (add_child rec parent h).1 = h \/
  exists p, h !! parent = Some p /\ ~ In rec (GOTerm.children p) /\
    (add_child rec parent h).1 =
      <[parent := GOTerm.set_children (GOTerm.children p ++ [rec]) p]> h.
Proof.
  unfold add_child. rewrite bind_run. unfold deref.
  destruct (h !! parent) as [p|] eqn:Hp; [|by left].
  destruct (term_in rec (GOTerm.children p)) eqn:Hin; simpl; [by left|].
  right. exists p. split; [done|]. split.
  - intros Hin'. apply term_in_In in Hin'. congruence.
  - apply list_eq. intros i. destruct (decide (i = parent)) as [->|Hne].
    + rewrite list_lookup_alter_eq, list_lookup_insert_eq, Hp; [done|].
      by eapply lookup_lt_Some.
    + by rewrite list_lookup_alter_ne, list_lookup_insert_ne.
Qed.

Lemma pres_grow_add_child rec parent : pres children_grow (add_child rec parent).
Proof.
  intros h. destruct (add_child_run rec parent h) as [-> | (p & Hp & _ & ->)]; [done|].
  intros a t Ha. destruct (decide (a = parent)) as [->|Hne].
  - rewrite list_lookup_insert_eq by (by eapply lookup_lt_Some).
    eexists. split; [done|]. simpl. intros x Hx.
    assert (t = p) as -> by congruence. apply in_or_app. by left.
  - rewrite list_lookup_insert_ne by done. eauto.
Qed.

Lemma pres_nodup_add_child rec parent :
  pres (maintains children_nodup) (add_child rec parent).
Proof.
  intros h Hnd. destruct (add_child_run rec parent h) as [-> | (p & Hp & Hnin & ->)]; [done|].
  intros a t Ha. destruct (decide (a = parent)) as [->|Hne].
  - rewrite list_lookup_insert_eq in Ha by (by eapply lookup_lt_Some).
    injection Ha as <-. simpl. apply NoDup_app. split; [by eapply Hnd|].
    split; [|apply NoDup_singleton].
    intros x Hx Hx'. apply list_elem_of_singleton in Hx' as ->.
    apply Hnin. by apply list_elem_of_In.
  - rewrite list_lookup_insert_ne in Ha by done. by eapply Hnd.
Qed.

Lemma add_child_Ok rec parent h h' u :
  add_child rec parent h = (h', Ok u) -> child_of rec parent h'.
Proof.
  intros Hrun. pose proof (add_child_run rec parent h) as Hr. rewrite Hrun in Hr.
  simpl in Hr. unfold add_child in Hrun. inv_run Hrun.
  apply deref_Ok_inv in Hrun0 as (-> & Hp).
  destruct (term_in rec (GOTerm.children x)) eqn:Hin; simpl in Hrun.
  - inv_run Hrun. exists x. split; [done|]. by apply term_in_In.
  - apply modify_Ok_inv in Hrun as ->. unfold child_of.
    rewrite list_lookup_alter_eq, Hp. simpl.
    eexists. split; [done|]. simpl. apply in_or_app. right. by left.
Qed.

Lemma child_of_grow a p h h' : children_grow h h' -> child_of a p h -> child_of a p h'.
Proof.
  intros Hg (tp & Hp & Hin). destruct (Hg p tp Hp) as (tp' & Hp' & Hsub).
  exists tp'. auto.
Qed.

Lemma populate_children_Ok rec h h' u :
  populate_children rec h = (h', Ok u) -> linked rec h'.
Proof.
  unfold populate_children. intros Hrun. inv_run Hrun.
  apply deref_Ok_inv in Hrun0 as (-> & Hrec).
  destruct (forM_Ok_post (fun _ => True) (fun p h => child_of rec p h)
              (GOTerm.parents x) (add_child rec)) with (h := h) (h' := h') (u := u)
    as (_ & Hall); try done.
  - intros p h1 h2 u' _ _. apply add_child_Ok.
  - intros p q _ h1 Hq. eapply child_of_grow; [apply pres_grow_add_child | exact Hq].
  - pose proof (pres_forM (frame fp_children) (GOTerm.parents x) (add_child rec)) as Hf.
    specialize (Hf (fun p _ => ltac:(unfold add_child; repeat pres_frame_step)) h).
    rewrite Hrun in Hf. simpl in Hf.
    intros t' p Ht' Hp. apply Hall.
    destruct (frame_lookup _ _ _ _ _ Hf Hrec) as (t2 & Ht2 & Hsb).
    assert (t2 = t') as -> by congruence.
    by rewrite <- (sb_parents _ _ _ Hsb eq_refl).
Qed.

(** A successful run of the second loop on [rec], block by block. *)
Lemma link_and_measure_Ok_inv fuel self rec h h' u :
  link_and_measure fuel self rec h = (h', Ok u) ->
  exists h0 h1 u0 u1,
    populate_children rec h = (h0, Ok u0) /\
    invert_relationships self rec h0 = (h1, Ok u1) /\
    forall R, PreOrder R ->
      pres R (_init_metric Level fuel rec) ->
      pres R (_init_metric Depth fuel rec) -> R h1 h'.
Proof.
  unfold link_and_measure. intros Hrun. inv_run Hrun.
  exists h0, h1, x, x0. split; [done|]. split; [done|].
  intros R HR HL HD.
  apply deref_Ok_inv in Hrun2 as (-> & _).
  apply deref_Ok_inv in Hrun4 as (-> & _).
  trans h3.
  - destruct (GOTerm.level x1); inv_run Hrun3; [reflexivity|].
    match goal with H : _init_level _ _ _ = _ |- _ =>
      rewrite _init_level_metric in H; pose proof (HL h1) as HR1; by rewrite H in HR1 end.
  - destruct (GOTerm.depth x3); inv_run Hrun; [reflexivity|].
    match goal with H : _init_depth _ _ _ = _ |- _ =>
      rewrite _init_depth_metric in H; pose proof (HD h3) as HR1; by rewrite H in HR1 end.
Qed.

Lemma linked_stable fp a h h' :
  w_parents fp = false -> frame fp h h' -> children_grow h h' ->
  linked a h -> linked a h'.
Proof.
  intros Hw Hf Hg Hl t' p Ha' Hp.
  destruct (frame_lookup_r _ _ _ _ _ Hf Ha') as (t & Ha & Hsb).
  eapply child_of_grow; [exact Hg|]. eapply Hl; [exact Ha|].
  by rewrite <- (sb_parents _ _ _ Hsb Hw).
Qed.

Lemma pres_grow_populate_children rec : pres children_grow (populate_children rec).
Proof.
  unfold populate_children. repeat first [apply pres_grow_add_child | pres_step].
Qed.

Lemma pres_nodup_populate_children rec :
  pres (maintains children_nodup) (populate_children rec).
Proof.
  unfold populate_children. repeat first [apply pres_nodup_add_child | pres_step].
Qed.

Lemma pres_grow_link fuel self rec :
  pres children_grow (link_and_measure fuel self rec).
Proof.
  apply pres_link; [tc_solve | apply pres_grow_populate_children | ..].
  - eapply pres_grow_of_frame; [| apply pres_invert_relationships]; done.
  - eapply pres_grow_of_frame; [| apply pres__init_metric]; done.
  - eapply pres_grow_of_frame; [| apply pres__init_metric]; done.
Qed.

Lemma pres_nodup_link fuel self rec :
  pres (maintains children_nodup) (link_and_measure fuel self rec).
Proof.
  apply pres_link; [tc_solve | apply pres_nodup_populate_children | ..].
  - eapply pres_nodup_of_frame; [| apply pres_invert_relationships]; done.
  - eapply pres_nodup_of_frame; [| apply pres__init_metric]; done.
  - eapply pres_nodup_of_frame; [| apply pres__init_metric]; done.
Qed.

Lemma link_and_measure_linked fuel self rec h h' u :
  link_and_measure fuel self rec h = (h', Ok u) -> linked rec h'.
Proof.
  intros Hrun.
  destruct (link_and_measure_Ok_inv _ _ _ _ _ _ Hrun)
    as (h0 & h1 & u0 & u1 & Hc & Hi & Hrest).
  apply populate_children_Ok in Hc.
  pose proof (pres_invert_relationships self rec h0) as Hf1. rewrite Hi in Hf1.
  simpl in Hf1.
  assert (Hc1 : linked rec h1).
  { eapply (linked_stable fp_dyn rec h0 h1); [done | exact Hf1 | | exact Hc].
    exact (frame_children_grow fp_dyn h0 h1 eq_refl Hf1). }
  assert (H1 : frame fp_link h1 h' /\ children_grow h1 h').
  { apply (Hrest (fun h h' => frame fp_link h h' /\ children_grow h h')).
    - split; [by split | intros ? ? ? [] []; split; by etrans].
    - apply pres_and.
      + eapply pres_frame_weaken; [| apply pres__init_metric]. solve_fp_le.
      + eapply pres_grow_of_frame; [| apply pres__init_metric]; done.
    - apply pres_and.
      + eapply pres_frame_weaken; [| apply pres__init_metric]. solve_fp_le.
      + eapply pres_grow_of_frame; [| apply pres__init_metric]; done. }
  destruct H1 as [Hf Hg]. by eapply (linked_stable fp_link rec h1 h').
Qed.

(** After a successful assembly from a fresh heap, children lists hold no
    Term twice and every Term of the graph is among the children of each
    of its parents. *)
Lemma populate_terms_children fuel self h h' u :
  fresh h = true ->
  populate_terms fuel self h = (h', Ok u) ->
  children_nodup h' /\ forall a, In a (values self) -> linked a h'.
Proof.
  intros Hfr Hrun. unfold populate_terms in Hrun. inv_run Hrun.
  pose proof (pres_frame_resolve_loop self (values self) h) as Hf.
  rewrite Hrun0 in Hf. simpl in Hf.
  assert (Hnd : children_nodup h0).
  { eapply (frame_children_nodup fp_resolve h h0); [done | done |].
    intros a t Ha. destruct (fresh_lookup h a t Hfr Ha) as (_ & _ & ->).
    apply NoDup_nil_2. }
  apply (forM_Ok_post children_nodup (fun a h => linked a h)
           (values self) (link_and_measure fuel self)) with (h := h0) (u := u);
    try done.
  - intros a _. apply pres_nodup_link.
  - intros a h1 h2 u' _ _. apply link_and_measure_linked.
  - intros a b _ h1 Hb. eapply (linked_stable fp_link); [| | | exact Hb].
    + done.
    + apply pres_frame_link.
    + apply pres_grow_link.
Qed.

(** C3. After graph assembly, for every Term [t] of the graph and every
    Term [p] in the parents of [t], [t] occurs in the children of [p]
    exactly once, however often the raw parent identifiers of [t] name
    [p]. *)
Theorem populate_terms_child_once fuel self h h' u a t p :
  fresh h = true ->
  populate_terms fuel self h = (h', Ok u) ->
  In a (values self) ->
  h' !! a = Some t ->
  In p (GOTerm.parents t) ->
  exists tp, h' !! p = Some tp /\ count_term a (GOTerm.children tp) = 1.
Proof.
  intros Hfr Hrun Ha Ht Hp.
  destruct (populate_terms_children fuel self h h' u Hfr Hrun) as (Hnd & Hl).
  destruct (Hl a Ha t p Ht Hp) as (tp & Htp & Hin).
  exists tp. split; [done|]. apply count_term_NoDup; [by eapply Hnd | done].
Qed.

(** ** Paths to the top *)

Lemma root_path_last h path a : root_path h path a -> last path = Some a.
Proof. induction 1; [done|]. apply last_snoc. Qed.

Lemma extend_paths_Ok rec go ps acc P :
  Forall2 (fun q pq => go q = Ok pq) ps P ->
  extend_paths rec go ps acc =
    Ok (acc ++ concat (map (map (fun tp => tp ++ [rec])) P)).
Proof.
  intros HF. revert acc. induction HF as [|q pq ps P Hq _ IH]; intros acc; simpl.
  - by rewrite app_nil_r.
  - rewrite Hq. simpl. rewrite IH. by rewrite app_assoc.
Qed.

Lemma Forall2_of_exists {A B} (R : A -> B -> Prop) l :
  (forall x, In x l -> exists y, R x y) -> exists k, Forall2 R l k.
Proof.
  induction l as [|x l IH]; intros H; [by exists []|].
  destruct (H x (or_introl eq_refl)) as (y & Hy).
  destruct IH as (k & Hk); [intros z Hz; apply H; by right|].
  exists (y :: k). by constructor.
Qed.

Lemma in_extended rec (go : nat -> result (list (list nat))) ps P path :
  Forall2 (fun q pq => go q = Ok pq) ps P ->
  In path (concat (map (map (fun tp => tp ++ [rec])) P)) <->
  exists q pq tp, In q ps /\ go q = Ok pq /\ In tp pq /\ path = tp ++ [rec].
Proof.
  induction 1 as [|q pq ps P Hq _ IH]; simpl.
  - split; [done | by intros (? & ? & ? & [] & _)].
  - rewrite in_app_iff, IH, in_map_iff. split.
    + intros [(tp & <- & Htp) | (q' & pq' & tp & Hq' & Hgo & Htp & ->)].
      * exists q, pq, tp. auto.
      * exists q', pq', tp. auto.
    + intros (q' & pq' & tp & [<- | Hq'] & Hgo & Htp & ->).
      * left. exists tp. split; [done|]. congruence.
      * right. exists q', pq', tp. auto.
Qed.

Lemma snoc_inj {A} (x : A) : Inj eq eq (fun l => l ++ [x]).
Proof. intros l1 l2 H. by apply app_inj_tail in H as []. Qed.

Lemma NoDup_extended rec (go : nat -> result (list (list nat))) ps P :
  Forall2 (fun q pq => go q = Ok pq) ps P ->
  NoDup ps ->
  (forall q pq, In q ps -> go q = Ok pq ->
     NoDup pq /\ forall tp, In tp pq -> last tp = Some q) ->
  NoDup (concat (map (map (fun tp => tp ++ [rec])) P)).
Proof.
  intros HF. induction HF as [|q pq ps P Hq HF IH]; intros Hnd Hspec; simpl.
  - constructor.
  - apply NoDup_cons in Hnd as (Hq_nin & Hnd).
    destruct (Hspec q pq (or_introl eq_refl) Hq) as (Hpq & Hlast).
    apply NoDup_app. split; [|split].
    + apply (NoDup_fmap_2 _). done.
    + intros path Hin1 Hin2.
      apply list_elem_of_In, in_map_iff in Hin1 as (tp & <- & Htp).
      apply list_elem_of_In in Hin2.
      apply (in_extended rec go ps P _ HF) in Hin2
        as (q' & pq' & tp' & Hq' & Hgo' & Htp' & Heq).
      apply app_inj_tail in Heq as (-> & _).
      destruct (Hspec q' pq' (or_intror Hq') Hgo') as (_ & Hlast').
      specialize (Hlast _ Htp). specialize (Hlast' _ Htp').
      assert (q = q') as -> by congruence.
      apply Hq_nin. by apply list_elem_of_In.
    + apply IH; [done|]. intros q' pq' Hq'. apply Hspec. by right.
Qed.

Lemma metric_ok_parents_lookup m h a t v :
  metric_ok m h -> h !! a = Some t -> get_metric m t = Some v ->
  forall p, In p (GOTerm.parents t) ->
    exists w, lookup_metric m h p = Some w /\ (0 <= w)%Z /\
      (m = Depth -> (w < v)%Z) /\ (m = Level -> (1 <= v)%Z).
Proof.
  intros Hok Ha Hv p Hp. destruct (Hok a t v Ha Hv) as (Hv0 & Heqn).
  unfold metric_eqn in Heqn. destruct (GOTerm.parents t) as [|q qs] eqn:Hps; [done|].
  destruct Heqn as (x & xs & HF & ->).
  pose proof (metric_ok_lookup_nonneg m h _ _ Hok HF) as Hnn.
  assert (Hfold : (0 <= fold_left (pick m) xs x)%Z).
  { inversion Hnn; subst. by apply fold_pick_nonneg. }
  apply list_elem_of_In in Hp.
  destruct (proj1 (list_elem_of_lookup _ _) Hp) as (i & Hi).
  destruct (Forall2_lookup_l _ _ _ _ _ HF Hi) as (w & Hw & Hpw).
  exists w. split; [done|]. split.
  - rewrite Forall_forall in Hnn. apply Hnn. by eapply list_elem_of_lookup_2.
  - split; [intros -> | intros ->; lia].
    assert (w <= fold_left Z.max xs x)%Z; [|simpl; lia].
    apply fold_max_ge_all. apply list_elem_of_In. by eapply list_elem_of_lookup_2.
Qed.

(** On a heap whose metrics obey their equations, the recursion returns
    within a fuel above the depth, and returns the root paths. *)
Lemma _paths_to_top_recursive_spec h :
  metric_ok Level h -> metric_ok Depth h ->
  forall fuel a l d,
    lookup_metric Level h a = Some l -> lookup_metric Depth h a = Some d ->
    Z.to_nat d < fuel ->
    exists paths,
      _paths_to_top_recursive fuel h a = Ok paths /\
      (forall path, In path paths <-> root_path h path a) /\
      ((forall b t, h !! b = Some t -> NoDup (GOTerm.parents t)) -> NoDup paths).
Proof.
  intros HokL HokD. induction fuel as [|fuel IH]; intros a l d Hl Hd Hfuel; [lia|].
  destruct (metric_ok_lookup _ _ _ _ HokL Hl) as (t & Ht & Hlt & Hl0 & _).
  destruct (metric_ok_lookup _ _ _ _ HokD Hd) as (t' & Ht' & Hdt & Hd0 & _).
  assert (t' = t) as -> by congruence.
  pose proof (metric_ok_parents_lookup Level h a t l HokL Ht Hlt) as HpL.
  pose proof (metric_ok_parents_lookup Depth h a t d HokD Ht Hdt) as HpD.
  cbn [_paths_to_top_recursive]. rewrite Ht. unfold level_is_0.
  change (GOTerm.level t) with (get_metric Level t). rewrite Hlt.
  destruct (Z.eqb_spec l 0) as [->|Hl1].
  - exists [[a]]. split; [done|]. split; [|intros _; apply NoDup_singleton].
    intros path. split.
    + intros [<- | []]. by constructor.
    + inversion 1 as [|? p ? t0 _ Ht0 Hp]; subst; [by left|].
      assert (t0 = t) as -> by congruence.
      destruct (HpL p Hp) as (_ & _ & _ & _ & Hge). specialize (Hge eq_refl). lia.
  - assert (Hrec : forall q, In q (GOTerm.parents t) -> exists pq,
      _paths_to_top_recursive fuel h q = Ok pq /\
      (forall path, In path pq <-> root_path h path q) /\
      ((forall b t, h !! b = Some t -> NoDup (GOTerm.parents t)) -> NoDup pq)).
    { intros q Hq. destruct (HpL q Hq) as (lq & Hlq & _).
      destruct (HpD q Hq) as (dq & Hdq & Hdq0 & Hlt' & _). specialize (Hlt' eq_refl).
      eapply IH; eauto. lia. }
    destruct (Forall2_of_exists
                (fun q pq => _paths_to_top_recursive fuel h q = Ok pq)
                (GOTerm.parents t)) as (P & HP).
    { intros q Hq. destruct (Hrec q Hq) as (pq & Hpq & _). eauto. }
    rewrite (extend_paths_Ok a _ _ [] P HP). eexists. split; [done|]. simpl.
    split.
    + intros path. rewrite (in_extended a _ _ P path HP). split.
      * intros (q & pq & tp & Hq & Hgo & Htp & ->).
        destruct (Hrec q Hq) as (pq' & Hgo' & Hpaths & _).
        assert (pq' = pq) as -> by congruence.
        eapply root_path_step; eauto. by apply Hpaths.
      * inversion 1 as [? Hroot | path' p ? t0 Hpath Ht0 Hp]; subst.
        { congruence. }
        assert (t0 = t) as -> by congruence.
        destruct (Hrec p Hp) as (pq & Hgo & Hpaths & _).
        exists p, pq, path'. split; [done|]. split; [done|].
        split; [by apply Hpaths | done].
    + intros Hnd. eapply NoDup_extended; [exact HP | by eapply Hnd |].
      intros q pq Hq Hgo. destruct (Hrec q Hq) as (pq' & Hgo' & Hpaths & Hnd').
      assert (pq' = pq) as -> by congruence. split; [by apply Hnd'|].
      intros tp Htp. eapply root_path_last. by apply Hpaths.
Qed.

(** ** Dictionaries *)

Section dict_facts.
Context {V : Type}.
Implicit Types (d : dict V) (k : string) (v : V).

Lemma dict_get_set_eq k v d : dict_get k (dict_set k v d) = Some v.
Proof.
  induction d as [|[k' v'] d IH]; simpl.
  - by rewrite String.eqb_refl.
  - destruct (String.eqb k k') eqn:E; simpl; [by rewrite String.eqb_refl|].
    by rewrite E.
Qed.

Lemma dict_get_set_ne k k' v d :
  k <> k' -> dict_get k (dict_set k' v d) = dict_get k d.
Proof.
  intros Hne. induction d as [|[k2 v2] d IH]; simpl.
  - by apply String.eqb_neq in Hne as ->.
  - destruct (String.eqb k' k2) eqn:E; simpl.
    + apply String.eqb_eq in E as <-. by apply String.eqb_neq in Hne as ->.
    + by rewrite IH.
Qed.

Lemma dict_get_del_eq k d : dict_get k (dict_del k d) = None.
Proof.
  induction d as [|[k' v'] d IH]; simpl; [done|].
  destruct (String.eqb k k') eqn:E; simpl; [done|]. by rewrite E.
Qed.

Lemma dict_get_del_ne k k' d :
  k <> k' -> dict_get k (dict_del k' d) = dict_get k d.
Proof.
  intros Hne. induction d as [|[k2 v2] d IH]; simpl; [done|].
  destruct (String.eqb k' k2) eqn:E; simpl.
  - apply String.eqb_eq in E as <-. by apply String.eqb_neq in Hne as ->.
  - by rewrite IH.
Qed.

Lemma dict_get_In k v d : dict_get k d = Some v -> In (k, v) d.
Proof.
  induction d as [|[k' v'] d IH]; simpl; [done|].
  destruct (String.eqb k k') eqn:E.
  - apply String.eqb_eq in E as <-. intros [= <-]. by left.
  - intros H. right. by apply IH.
Qed.

Lemma dict_get_keys k v d : dict_get k d = Some v -> In k (dict_keys d).
Proof.
  intros H. apply dict_get_In in H. unfold dict_keys.
  apply in_map_iff. by exists (k, v).
Qed.

Lemma dict_get_values k v d : dict_get k d = Some v -> In v (dict_values d).
Proof.
  intros H. apply dict_get_In in H. unfold dict_values.
  apply in_map_iff. by exists (k, v).
Qed.

Lemma dict_set_length k v d :
  length (dict_set k v d) = if dict_in k d then length d else S (length d).
Proof.
  unfold dict_in. induction d as [|[k' v'] d IH]; simpl; [done|].
  destruct (String.eqb k k'); simpl; [done|]. rewrite IH.
  by destruct (dict_get k d).
Qed.
End dict_facts.

(** C7. On an assembled graph, for every identifier in it, [paths_to_top]
    returns (given a recursion allowance above the depth of the Term) a
    list whose members are exactly the directed paths from a level-0 root
    to the Term, each root first and ending with the Term. The list
    repeats no path when no Term names a parent twice; so a Term with two
    parents that reach one root through different Terms has two paths. *)
Theorem paths_to_top_root_paths fuel self h h' u term a :
  fresh h = true ->
  populate_terms fuel self h = (h', Ok u) ->
  dict_get term (GODag.terms self) = Some a ->
  exists d, lookup_metric Depth h' a = Some d /\
    forall fuel', Z.to_nat d < fuel' ->
      exists paths,
        paths_to_top fuel' self h' term = Ok (Some paths) /\
        (forall path, In path paths <-> root_path h' path a) /\
        ((forall b t, h' !! b = Some t -> NoDup (GOTerm.parents t)) -> NoDup paths).
Proof.
  intros Hf Hrun Hterm.
  destruct (populate_terms_metrics fuel self h h' u
              (fresh_unset Level h Hf) (fresh_unset Depth h Hf) Hrun)
    as (HokL & HokD & Hm).
  destruct (Hm a (dict_get_values _ _ _ Hterm)) as [[l Hl] [d Hd]].
  exists d. split; [done|]. intros fuel' Hfuel.
  destruct (_paths_to_top_recursive_spec h' HokL HokD fuel' a l d Hl Hd Hfuel)
    as (paths & Hpaths & Hspec).
  exists paths. split; [|done].
  unfold paths_to_top. rewrite Hterm. simpl. by rewrite Hpaths.
Qed.

(** ** Relationships *)

#[global] Instance rel_grow_preorder : PreOrder rel_grow.
Proof. split; [by intros h a key x | intros h1 h2 h3 H12 H23 a key x H; auto]. Qed.

#[global] Instance only_at_preorder b : PreOrder (only_at b).
Proof.
  split; [by intros h a | intros h1 h2 h3 H12 H23 a Ha].
  by rewrite H23, H12.
Qed.

Lemma set_add_In x y s : In x (set_add Nat.eqb y s) <-> In x s \/ x = y.
Proof.
  unfold set_add. destruct (existsb (Nat.eqb y) s) eqn:E.
  - split; [by left|]. intros [Hx | ->]; [done|].
    apply existsb_exists in E as (z & Hz & Heq). apply Nat.eqb_eq in Heq. by subst.
  - rewrite in_app_iff. simpl. intuition (subst; auto).
Qed.

Lemma set_update_In x s xs :
  In x (set_update Nat.eqb s xs) <-> In x s \/ In x xs.
Proof.
  unfold set_update. revert s. induction xs as [|y xs IH]; intros s; simpl.
  - tauto.
  - rewrite IH, set_add_In. simpl. intuition (subst; auto).
Qed.

Lemma set_of_list_In x xs : In x (set_of_list Nat.eqb xs) <-> In x xs.
Proof. unfold set_of_list. rewrite set_update_In. simpl. tauto. Qed.

Lemma frame_rel_grow fp h h' : w_dyn fp = false -> frame fp h h' -> rel_grow h h'.
Proof.
  intros Hw Hf a key x (t & d & s & Ha & Hd & Hs & Hx).
  destruct (frame_lookup _ _ _ _ _ Hf Ha) as (t' & Ha' & Hsb).
  exists t', d, s. split; [done|]. split; [|done].
  unfold relationship_of. by rewrite (sb_dyn _ _ _ Hsb Hw).
Qed.

Lemma pres_rel_of_frame {A} fp (c : M A) :
  w_dyn fp = false -> pres (frame fp) c -> pres rel_grow c.
Proof. intros Hw Hc h. eapply frame_rel_grow; [exact Hw | apply Hc]. Qed.

Lemma get_relationship_Ok_inv a h h' d :
  get_relationship a h = (h', Ok d) ->
  h' = h /\ exists t, h !! a = Some t /\ relationship_of t = Some d.
Proof.
  unfold get_relationship. intros Hrun. inv_run Hrun.
  apply deref_Ok_inv in Hrun0 as (-> & Ha). unfold relationship_of.
  destruct (dict_get "relationship" (GOTerm.dyn x)) as [[]|] eqn:E; inv_run Hrun.
  split; [done|]. exists x. by rewrite E.
Qed.

Lemma relationship_of_set t v :
  relationship_of (GOTerm.set_dyn (dict_set "relationship" (VDictSet v) (GOTerm.dyn t)) t)
  = Some v.
Proof. unfold relationship_of. simpl. by rewrite dict_get_set_eq. Qed.

(** Rebinding [relationship] to a dictionary that holds at least what the
    old one held adds relationships only. *)
Lemma rel_grow_setattr a h d' :
  (forall t d key s x, h !! a = Some t -> relationship_of t = Some d ->
     dict_get key d = Some s -> In x s ->
     exists s', dict_get key d' = Some s' /\ In x s') ->
  rel_grow h (setattr a "relationship" (VDictSet d') h).1.
Proof.
  intros Hsup b key x (t & d & s & Hb & Hd & Hs & Hx). simpl.
  destruct (decide (b = a)) as [->|Hne].
  - destruct (Hsup t d key s x Hb Hd Hs Hx) as (s' & Hs' & Hx').
    eexists _, d', s'. rewrite list_lookup_alter_eq, Hb. simpl.
    split; [done|]. split; [apply relationship_of_set | done].
  - exists t, d, s. by rewrite list_lookup_alter_ne.
Qed.

Lemma get_relationship_heap a h : (get_relationship a h).1 = h.
Proof. symmetry. apply (pres_get_relationship eq). Qed.

Lemma pres_rel_relationship_getitem a key :
  pres rel_grow (relationship_getitem a key).
Proof.
  intros h. unfold relationship_getitem. rewrite bind_run.
  pose proof (get_relationship_heap a h) as Hh.
  destruct (get_relationship a h) as [h1 [d|e]] eqn:Hg; simpl in Hh; subst h1;
    [|reflexivity].
  apply get_relationship_Ok_inv in Hg as (_ & t & Ht & Hd).
  destruct (dict_get key d) as [s|] eqn:Hs; [done|].
  rewrite bind_run.
  pose proof (rel_grow_setattr a h (dict_set key [] d)) as Hgrow.
  destruct (setattr a "relationship" (VDictSet (dict_set key [] d)) h) as [h2 [[]|e]];
    simpl in *; apply Hgrow.
  all: intros t0 d0 key0 s0 x Ht0 Hd0 Hs0 Hx.
  all: assert (t0 = t) as -> by congruence; assert (d0 = d) as -> by congruence.
  all: exists s0; split; [|done].
  all: rewrite dict_get_set_ne; [done | congruence].
Qed.

Lemma pres_rel_relationship_update a key ts :
  pres rel_grow (relationship_update a key ts).
Proof.
  intros h. unfold relationship_update. rewrite bind_run.
  pose proof (get_relationship_heap a h) as Hh.
  destruct (get_relationship a h) as [h1 [d|e]] eqn:Hg; simpl in Hh; subst h1;
    [|reflexivity].
  apply get_relationship_Ok_inv in Hg as (_ & t & Ht & Hd).
  apply rel_grow_setattr.
  intros t0 d0 key0 s0 x Ht0 Hd0 Hs0 Hx.
  assert (t0 = t) as -> by congruence. assert (d0 = d) as -> by congruence.
  destruct (String.eqb_spec key0 key) as [->|Hne].
  - rewrite dict_get_set_eq. eexists. split; [done|].
    apply set_update_In. left. by rewrite Hs0.
  - rewrite dict_get_set_ne by done. eauto.
Qed.

Lemma pres_rel_relationship_add a key rec :
  pres rel_grow (relationship_add a key rec).
Proof.
  unfold relationship_add.
  repeat first [apply pres_rel_relationship_getitem
               | apply pres_rel_relationship_update | pres_step].
Qed.

Lemma hasattr_relationship t :
  GOTerm.hasattr t "relationship" = dict_in "relationship" (GOTerm.dyn t).
Proof. reflexivity. Qed.

Lemma hasattr__relationship t :
  GOTerm.hasattr t "_relationship" = dict_in "_relationship" (GOTerm.dyn t).
Proof. reflexivity. Qed.

Lemma relationship_of_hasattr t d :
  relationship_of t = Some d -> GOTerm.hasattr t "relationship" = true.
Proof.
  rewrite hasattr_relationship. unfold relationship_of, dict_in.
  by destruct (dict_get "relationship" (GOTerm.dyn t)).
Qed.

Lemma pres_rel_ensure_relationship term : pres rel_grow (ensure_relationship term).
Proof.
  intros h. unfold ensure_relationship. rewrite bind_run. unfold deref.
  destruct (h !! term) as [t|] eqn:Ht; [|reflexivity].
  destruct (GOTerm.hasattr t "relationship") eqn:Hh; simpl negb; cbv iota;
    [reflexivity|].
  apply rel_grow_setattr. intros t0 d key s x Ht0 Hd.
  assert (t0 = t) as -> by congruence.
  apply relationship_of_hasattr in Hd. congruence.
Qed.

Lemma pres_rel_add_inverted rec inv term : pres rel_grow (add_inverted rec inv term).
Proof.
  unfold add_inverted.
  repeat first [apply pres_rel_ensure_relationship
               | apply pres_rel_relationship_add | pres_step].
Qed.

Lemma pres_rel_invert_relationships self rec :
  pres rel_grow (invert_relationships self rec).
Proof.
  unfold invert_relationships, invert_typedef.
  repeat first [apply pres_rel_add_inverted | pres_step].
Qed.

Lemma pres_rel_link fuel self rec : pres rel_grow (link_and_measure fuel self rec).
Proof.
  apply pres_link; [tc_solve | | apply pres_rel_invert_relationships | ..].
  - eapply pres_rel_of_frame; [| apply pres_populate_children]; done.
  - eapply pres_rel_of_frame; [| apply pres__init_metric]; done.
  - eapply pres_rel_of_frame; [| apply pres__init_metric]; done.
Qed.

Lemma relationship_update_Ok a key ts h h' u x :
  relationship_update a key ts h = (h', Ok u) -> In x ts -> has_rel h' a key x.
Proof.
  unfold relationship_update. intros Hrun Hx. inv_run Hrun.
  apply get_relationship_Ok_inv in Hrun0 as (-> & t & Ht & Hd).
  apply modify_Ok_inv in Hrun as ->.
  eexists _, _, _. rewrite list_lookup_alter_eq, Ht. simpl.
  split; [done|]. split; [apply relationship_of_set|].
  rewrite dict_get_set_eq. split; [done|]. apply set_update_In. by right.
Qed.

Lemma add_inverted_Ok rec inv term h h' u :
  add_inverted rec inv term h = (h', Ok u) -> has_rel h' term inv rec.
Proof.
  unfold add_inverted, relationship_add. intros Hrun. inv_run Hrun.
  eapply relationship_update_Ok; [exact Hrun | by left].
Qed.

(** One step of the iteration over the relationships of [x]: if [x] has
    the relationship [A] to [y] and [A] has the inverse [B], then after
    the step for [A] the Term [y] has the relationship [B] to [x]. *)
Lemma invert_typedef_Ok self x n A B td y h h' u :
  dict_get A (GODag.typedefs self) = Some td ->
  TypeDef.inverse_of td = B -> B <> EmptyString ->
  has_rel h x A y ->
  invert_typedef self x n A h = (h', Ok u) ->
  has_rel h' y B x.
Proof.
  intros Htd HB Hne (t & d & s & Ht & Hd & Hs & Hy) Hrun.
  unfold invert_typedef in Hrun. inv_run Hrun.
  pose proof (pres_check_size eq x n h) as Hc. rewrite Hrun0 in Hc.
  simpl in Hc. subst h0.
  apply get_relationship_Ok_inv in Hrun1 as (-> & t1 & Ht1 & Hd1).
  assert (t1 = t) as -> by congruence. assert (x1 = d) as -> by congruence.
  unfold typedefs_getitem in Hrun2. rewrite Htd in Hrun2. inv_run Hrun2.
  rewrite HB in Hrun. apply String.eqb_neq in Hne. rewrite Hne in Hrun.
  simpl negb in Hrun. cbv iota in Hrun. rewrite Hs in Hrun. simpl in Hrun.
  destruct (forM_Ok_post (fun _ => True) (fun term h => term = y -> has_rel h y B x)
              s (add_inverted x B)) with (h := h) (h' := h') (u := u)
    as (_ & Hall); try done.
  - intros term h1 h2 u' _ _ Hr ->. by eapply add_inverted_Ok.
  - intros term q _ h1 Hq Hqy. eapply pres_rel_add_inverted. by apply Hq.
  - by apply (Hall y).
Qed.

Lemma forM_Ok_ind {A} (I : heap -> Prop) (Q : A -> heap -> Prop) l body :
  (forall x h h' u, In x l -> I h -> body x h = (h', Ok u) ->
     I h' /\ Q x h' /\ forall y, Q y h -> Q y h') ->
  forall h h' u, I h -> forM l body h = (h', Ok u) ->
    I h' /\ forall x, In x l -> Q x h'.
Proof.
  induction l as [|x l IH]; intros Hbody h h' u Hh Hrun; simpl in Hrun.
  - inv_run Hrun. split; [done | by intros ? []].
  - inv_run Hrun.
    destruct (Hbody x h h0 _ (or_introl eq_refl) Hh Hrun0) as (Hh0 & Hx & _).
    assert (Hstab : forall y, Q y h0 -> Q y h').
    { clear -Hbody Hh0 Hrun. revert h0 Hh0 Hrun.
      induction l as [|z l IHl]; intros h0 Hh0 Hrun y Hy; simpl in Hrun.
      - by inv_run Hrun.
      - inv_run Hrun.
        destruct (Hbody z h0 h _ (or_intror (or_introl eq_refl)) Hh0 Hrun0)
          as (Hh1 & _ & Hst).
        eapply (IHl (fun w h1 h2 u' Hw => Hbody w h1 h2 u'
                       match Hw with
                       | or_introl e => or_introl e
                       | or_intror i => or_intror (or_intror i)
                       end)); eauto. }
    destruct (IH (fun y h1 h2 u' Hy => Hbody y h1 h2 u' (or_intror Hy))
                 h0 h' u Hh0 Hrun) as (Hh' & Hl).
    split; [done|]. intros y [<- | Hy]; [by apply Hstab | by apply Hl].
Qed.

Lemma list_comp_getitem_Ok_inv self ids h h' ts :
  list_comp (getitem self) ids h = (h', Ok ts) ->
  h' = h /\ Forall2 (fun id a => dict_get id (GODag.terms self) = Some a) ids ts.
Proof.
  revert ts. induction ids as [|id ids IH]; intros ts Hrun; simpl in Hrun.
  - inv_run Hrun. split; [done | constructor].
  - inv_run Hrun. unfold getitem in Hrun0.
    destruct (dict_get id (GODag.terms self)) as [a|] eqn:Hid; inv_run Hrun0.
    destruct (IH _ Hrun1) as (-> & HF). split; [done|]. by constructor.
Qed.

Lemma pres_rel_invert_typedef self rec n key :
  pres rel_grow (invert_typedef self rec n key).
Proof.
  unfold invert_typedef. repeat first [apply pres_rel_add_inverted | pres_step].
Qed.

Lemma invert_relationships_Ok self x A B td y h h' u :
  dict_get A (GODag.typedefs self) = Some td ->
  TypeDef.inverse_of td = B -> B <> EmptyString ->
  has_rel h x A y ->
  invert_relationships self x h = (h', Ok u) ->
  has_rel h' y B x.
Proof.
  intros Htd HB Hne Hrel Hrun.
  destruct Hrel as (t & d & s & Ht & Hd & Hs & Hy).
  unfold invert_relationships in Hrun. inv_run Hrun.
  apply deref_Ok_inv in Hrun0 as (-> & Ht').
  assert (x0 = t) as -> by congruence.
  rewrite (relationship_of_hasattr t d Hd) in Hrun. inv_run Hrun.
  apply get_relationship_Ok_inv in Hrun0 as (-> & t1 & Ht1 & Hd1).
  assert (t1 = t) as -> by congruence. assert (x0 = d) as -> by congruence.
  pose proof (pres_check_size eq x (length d) h1) as Hc. rewrite Hrun in Hc.
  simpl in Hc. subst h1.
  destruct (forM_Ok_post (fun h => has_rel h x A y)
              (fun key h => key = A -> has_rel h y B x)
              (dict_keys d) (invert_typedef self x (length d)))
    with (h := h) (h' := h') (u := x1) as (_ & Hall); try done.
  - intros key _ h1 H1. by eapply pres_rel_invert_typedef.
  - intros key h1 h2 u' _ H1 Hr ->. by eapply invert_typedef_Ok.
  - intros key q _ h1 Hq HqA. eapply pres_rel_invert_typedef. by apply Hq.
  - by exists t, d, s.
  - apply (Hall A); [|done]. by eapply dict_get_keys.
Qed.

(** The second loop: a relationship that [x] has when the loop begins is
    inverted when the loop reaches [x]. *)
Lemma link_loop_inverts fuel self x A B td y l h h' u :
  dict_get A (GODag.typedefs self) = Some td ->
  TypeDef.inverse_of td = B -> B <> EmptyString ->
  has_rel h x A y -> In x l ->
  forM l (link_and_measure fuel self) h = (h', Ok u) ->
  has_rel h' y B x.
Proof.
  intros Htd HB Hne Hrel Hx Hrun.
  destruct (forM_Ok_post (fun h => has_rel h x A y)
              (fun a h => a = x -> has_rel h y B x)
              l (link_and_measure fuel self))
    with (h := h) (h' := h') (u := u) as (_ & Hall); try done.
  - intros a _ h1 H1. by eapply pres_rel_link.
  - intros a h1 h2 u' _ H1 Hr ->.
    destruct (link_and_measure_Ok_inv _ _ _ _ _ _ Hr)
      as (h3 & h4 & u3 & u4 & Hc & Hi & Hrest).
    assert (H3 : has_rel h3 x A y).
    { pose proof (pres_populate_children x h1) as Hf. rewrite Hc in Hf.
      by eapply (frame_rel_grow fp_children h1 h3). }
    pose proof (invert_relationships_Ok self x A B td y h3 h4 u4 Htd HB Hne H3 Hi) as H4.
    eapply (Hrest rel_grow); [tc_solve | | | exact H4].
    + eapply pres_rel_of_frame; [| apply pres__init_metric]; done.
    + eapply pres_rel_of_frame; [| apply pres__init_metric]; done.
  - intros a q _ h1 Hq Hqx. eapply pres_rel_link. by apply Hq.
  - by apply (Hall x).
Qed.

Lemma only_at_alter b f h : only_at b h (alter f b h).
Proof. intros a Ha. by apply list_lookup_alter_ne. Qed.

Lemma pres_only_at_modify b f : pres (only_at b) (modify b f).
Proof. intros h. apply only_at_alter. Qed.

Lemma pres_only_at_resolve_references self b :
  pres (only_at b) (resolve_references self b).
Proof.
  unfold resolve_references, resolve_relationship, relationship_getitem,
    relationship_update, setattr, delattr.
  repeat first [apply pres_only_at_modify | pres_step].
Qed.

Lemma resolve_item_Ok self x typedef terms h h' u :
  (relationship_getitem x typedef;;
   ts ← list_comp (getitem self) terms;
   relationship_update x typedef (set_of_list Nat.eqb ts)) h = (h', Ok u) ->
  forall id a, In id terms -> dict_get id (GODag.terms self) = Some a ->
    has_rel h' x typedef a.
Proof.
  intros Hrun id a Hid Ha. inv_run Hrun.
  apply list_comp_getitem_Ok_inv in Hrun1 as (-> & HF).
  eapply relationship_update_Ok; [exact Hrun|].
  apply set_of_list_In.
  apply list_elem_of_In in Hid.
  destruct (proj1 (list_elem_of_lookup _ _) Hid) as (i & Hi).
  destruct (Forall2_lookup_l _ _ _ _ _ HF Hi) as (a' & Ha' & Hida).
  assert (a' = a) as -> by congruence.
  apply list_elem_of_In. by eapply list_elem_of_lookup_2.
Qed.

Lemma pres_rel_resolve_item self x typedef terms :
  pres rel_grow
    (relationship_getitem x typedef;;
     ts ← list_comp (getitem self) terms;
     relationship_update x typedef (set_of_list Nat.eqb ts)).
Proof.
  repeat first [apply pres_rel_relationship_getitem
               | apply pres_rel_relationship_update | pres_step].
Qed.

Lemma has_rel_delattr h x A y :
  has_rel h x A y -> resolved_rel (delattr x "_relationship" h).1 x A y.
Proof.
  intros (t & d & s & Ht & Hd & Hs & Hy). simpl. split.
  - eexists _, d, s. rewrite list_lookup_alter_eq, Ht. simpl.
    split; [done|]. split; [|done].
    unfold relationship_of in *. simpl. by rewrite dict_get_del_ne.
  - eexists. rewrite list_lookup_alter_eq, Ht. simpl. split; [done|].
    simpl. apply dict_get_del_eq.
Qed.

Lemma resolve_relationship_raw self x A y_id y h h' u :
  raw_rel h x A y_id ->
  dict_get y_id (GODag.terms self) = Some y ->
  resolve_relationship self x h = (h', Ok u) ->
  resolved_rel h' x A y.
Proof.
  intros (t & raw & ids & Ht & Hraw & Hids & Hy) Hyid Hrun.
  unfold resolve_relationship in Hrun. inv_run Hrun.
  apply deref_Ok_inv in Hrun0 as (-> & Ht'). assert (x0 = t) as -> by congruence.
  rewrite hasattr__relationship in Hrun. unfold dict_in in Hrun.
  rewrite Hraw in Hrun. inv_run Hrun.
  destruct (forM_Ok_post (fun _ => True)
              (fun (item : string * list string) h =>
                 forall id a, In id item.2 -> dict_get id (GODag.terms self) = Some a ->
                   has_rel h x item.1 a)
              raw
              (fun '(typedef, terms) =>
                 relationship_getitem x typedef;;
                 ts ← list_comp (getitem self) terms;
                 relationship_update x typedef (set_of_list Nat.eqb ts)))
    with (h := h0) (h' := h1) (u := x1) as (_ & Hall); try done.
  - intros [typedef terms] h2 h3 u' _ _ Hr.
    exact (resolve_item_Ok self x typedef terms h2 h3 u' Hr).
  - intros [typedef terms] [typedef' terms'] _ h2 Hq id a Hid Ha.
    eapply pres_rel_resolve_item. by eapply Hq.
  - specialize (Hall (A, ids) (dict_get_In _ _ _ Hids) y_id y Hy Hyid).
    apply modify_Ok_inv in Hrun. subst h'. by apply has_rel_delattr.
Qed.

Lemma resolve_relationship_done self x h h' u t :
  h !! x = Some t -> dict_get "_relationship" (GOTerm.dyn t) = None ->
  resolve_relationship self x h = (h', Ok u) -> h' = h.
Proof.
  intros Ht Hnone Hrun. unfold resolve_relationship in Hrun. inv_run Hrun.
  apply deref_Ok_inv in Hrun0 as (-> & Ht'). assert (x0 = t) as -> by congruence.
  rewrite hasattr__relationship in Hrun. unfold dict_in in Hrun.
  rewrite Hnone in Hrun. by inv_run Hrun.
Qed.

(** The first loop, on [b]: a raw relationship of [x] is kept until the
    loop reaches [x], resolved there, and stays resolved. *)
Lemma resolve_references_rel self b x A y_id y h h' u :
  dict_get y_id (GODag.terms self) = Some y ->
  raw_rel h x A y_id \/ resolved_rel h x A y ->
  resolve_references self b h = (h', Ok u) ->
  (raw_rel h' x A y_id \/ resolved_rel h' x A y) /\
  (b = x -> resolved_rel h' x A y) /\
  (resolved_rel h x A y -> resolved_rel h' x A y).
Proof.
  intros Hyid HI Hrun. destruct (decide (b = x)) as [->|Hne].
  - assert (resolved_rel h' x A y); [|by auto].
    unfold resolve_references in Hrun. inv_run Hrun.
    apply deref_Ok_inv in Hrun0 as (-> & Ht).
    apply list_comp_getitem_Ok_inv in Hrun1 as (-> & _).
    apply modify_Ok_inv in Hrun2 as ->.
    destruct HI as [(t & raw & ids & Ht0 & Hraw & Hids & Hy) | (Hrel & t & Ht0 & Hnone)].
    + eapply resolve_relationship_raw; [| exact Hyid | exact Hrun].
      eexists _, raw, ids. rewrite list_lookup_alter_eq, Ht0. simpl.
      split; [done|]. split; [done|]. done.
    + assert (Halt : alter (GOTerm.set_parents x1) x h !! x
                     = Some (GOTerm.set_parents x1 t))
        by (by rewrite list_lookup_alter_eq, Ht0).
      rewrite (resolve_relationship_done self x _ h' _ _ Halt Hnone Hrun).
      split.
      * eapply (frame_rel_grow (mk_footprint true false false false false));
          [done | | exact Hrel].
        apply frame_alter. intros ?. by constructor.
      * eexists. split; [exact Halt | done].
  - pose proof (pres_only_at_resolve_references self b h) as Ho.
    rewrite Hrun in Ho. simpl in Ho. specialize (Ho x (not_eq_sym Hne)).
    assert (Hres : resolved_rel h x A y -> resolved_rel h' x A y).
    { intros ((t & d & s & Ht0 & Hrest) & t' & Ht' & Hnone).
      split; [exists t, d, s; by rewrite Ho | exists t'; by rewrite Ho]. }
    split; [|by split].
    destruct HI as [(t & raw & ids & Ht0 & Hrest) | Hr]; [|by auto].
    left. exists t, raw, ids. by rewrite Ho.
Qed.

Lemma raw_rel_b_spec h a key y : raw_rel_b h a key y = true -> raw_rel h a key y.
Proof.
  unfold raw_rel_b, raw_rel. destruct (h !! a) as [t|] eqn:Ht; [|done].
  destruct (dict_get "_relationship" (GOTerm.dyn t)) as [[| |raw|]|] eqn:Hraw;
    try done.
  destruct (dict_get key raw) as [ids|] eqn:Hids; [|done].
  intros Hy. apply str_in_In in Hy. exists t, raw, ids. by repeat split.
Qed.

(** C5. If typedef [A] has the inverse [B], and a Term [x] of the graph
    was parsed with a relationship [A] naming the identifier of [y], then
    after assembly the relationship map of [y] holds, under [B], the Term
    [x]. *)
Theorem populate_terms_inverts_relationship fuel self h h' u x y y_id A B td :
  populate_terms fuel self h = (h', Ok u) ->
  In x (values self) ->
  raw_rel_b h x A y_id = true ->
  dict_get y_id (GODag.terms self) = Some y ->
  dict_get A (GODag.typedefs self) = Some td ->
  TypeDef.inverse_of td = B ->
  String.eqb B EmptyString = false ->
  has_rel h' y B x.
Proof.
  intros Hrun Hx Hraw Hyid Htd HB Hne.
  apply raw_rel_b_spec in Hraw. apply String.eqb_neq in Hne.
  unfold populate_terms in Hrun. inv_run Hrun.
  destruct (forM_Ok_ind
              (fun h => raw_rel h x A y_id \/ resolved_rel h x A y)
              (fun b h => b = x -> resolved_rel h x A y)
              (values self) (resolve_references self))
    with (h := h) (h' := h0) (u := x0) as (_ & Hall); try done.
  - intros b h1 h2 u' _ HI Hr.
    destruct (resolve_references_rel self b x A y_id y h1 h2 u' Hyid HI Hr)
      as (HI' & Hb & Hres).
    split; [done|]. split; [done|]. intros c Hc Hcx. by apply Hres, Hc.
  - by left.
  - destruct (Hall x Hx eq_refl) as (Hrel & _).
    by eapply link_loop_inverts.
Qed.

(** ** Loading: the identifier index *)

Lemma fold_dict_set_get k a alts (d : dict nat) :
  dict_get k (fold_left (fun d alt => dict_set alt a d) alts d) =
  if str_in k alts then Some a else dict_get k d.
Proof.
  revert d. induction alts as [|alt alts IH]; intros d; simpl; [done|].
  rewrite IH. unfold str_in in *.
  destruct (String.eqb_spec k alt) as [->|Hne]; simpl.
  - rewrite dict_get_set_eq. by destruct (existsb _ alts).
  - rewrite dict_get_set_ne by done. done.
Qed.

Lemma save_record_get lo h d rec k :
  dict_get k (save_record lo (h, d) rec).2 =
  if kept lo rec && str_in k (ids_of rec) then Some (length h) else dict_get k d.
Proof.
  unfold save_record, kept. destruct (lo || negb (GOTerm.is_obsolete rec)); [|done].
  cbn [fst snd andb]. rewrite fold_dict_set_get. unfold ids_of, str_in. simpl.
  destruct (existsb (String.eqb k) (GOTerm.alt_ids rec)); [by rewrite orb_true_r|].
  rewrite orb_false_r. destruct (String.eqb_spec k (GOTerm.id rec)) as [->|Hne].
  - by rewrite dict_get_set_eq.
  - by rewrite dict_get_set_ne.
Qed.

Lemma save_record_heap lo h d rec :
  (save_record lo (h, d) rec).1 = if kept lo rec then h ++ [rec] else h.
Proof. unfold save_record, kept. by destruct (lo || negb (GOTerm.is_obsolete rec)). Qed.

(** Records stored later leave alone what is stored under identifiers
    they do not carry. *)
Lemma save_records_later lo recs st a r ks :
  st.1 !! a = Some r ->
  (forall k, In k ks -> dict_get k st.2 = Some a) ->
  (forall r' k, In r' recs -> kept lo r' = true -> In k ks -> ~ In k (ids_of r')) ->
  let st' := fold_left (save_record lo) recs st in
  st'.1 !! a = Some r /\ forall k, In k ks -> dict_get k st'.2 = Some a.
Proof.
  revert st. induction recs as [|r' recs IH]; intros [h d] Ha Hks Hdisj; simpl; [done|].
  simpl in Ha, Hks. apply IH.
  - rewrite save_record_heap. destruct (kept lo r'); [|done].
    by apply lookup_app_l_Some.
  - intros k Hk. rewrite save_record_get.
    destruct (kept lo r') eqn:Hkept; cbn [andb]; [|by apply Hks].
    destruct (str_in k (ids_of r')) eqn:Hin; [|by apply Hks].
    apply str_in_In in Hin. exfalso. eapply Hdisj; eauto. by left.
  - intros r2 k Hr2. apply Hdisj. by right.
Qed.

Lemma save_records_index lo recs1 r recs2 :
  kept lo r = true ->
  (forall r' k, In r' recs2 -> kept lo r' = true ->
     In k (ids_of r) -> ~ In k (ids_of r')) ->
  exists a,
    (save_records lo (recs1 ++ r :: recs2)).1 !! a = Some r /\
    forall k, In k (ids_of r) ->
      dict_get k (save_records lo (recs1 ++ r :: recs2)).2 = Some a.
Proof.
  intros Hkept Hdisj. unfold save_records. rewrite fold_left_app. cbn [fold_left].
  destruct (fold_left (save_record lo) recs1 ([], [])) as [h d].
  exists (length h).
  apply (save_records_later lo recs2 (save_record lo (h, d) r) (length h) r (ids_of r));
    [| |done].
  - rewrite save_record_heap, Hkept. simpl. by rewrite list_lookup_middle.
  - intros k Hk. rewrite save_record_get, Hkept. cbn [andb].
    apply str_in_In in Hk. by rewrite Hk.
Qed.

Lemma pres_frame_populate_terms fuel self :
  pres (frame fp_all) (populate_terms fuel self).
Proof.
  unfold populate_terms. pres_step.
  - eapply pres_frame_weaken; [| apply pres_frame_resolve_loop]. solve_fp_le.
  - eapply pres_frame_weaken; [| apply pres_frame_link_loop]. solve_fp_le.
Qed.

(** What [load_obo_file] does, step by step, when it succeeds. *)
Lemma load_obo_file_Ok_inv fuel obo_file lines arg lo self h' :
  load_obo_file fuel obo_file lines arg lo = Ok (self, h') ->
  exists rd rd' recs u,
    OBOReader_init obo_file arg = Ok rd /\
    OBOReader_iter rd lines = Ok (rd', recs) /\
    self = GODag.mk (save_records lo recs).2 (OBOReader.typedefs rd')
             (OBOReader.optional_attrs rd') /\
    populate_terms fuel self (save_records lo recs).1 = (h', Ok u).
Proof.
  unfold load_obo_file. intros Hrun.
  destruct (OBOReader_init obo_file arg) as [rd|e] eqn:Hinit; [|done].
  simpl in Hrun.
  destruct (OBOReader_iter rd lines) as [[rd' recs]|e] eqn:Hiter; [|done].
  simpl in Hrun.
  destruct (save_records lo recs) as [h d] eqn:Hsave.
  destruct (populate_terms fuel _ h) as [h1 [u|e]] eqn:Hpop; [|done].
  injection Hrun as <- <-. exists rd, rd', recs, u. rewrite Hsave. simpl.
  repeat split; done.
Qed.

(** ** The parser *)




Lemma append_assoc s t u : ((s ++ t) ++ u = s ++ (t ++ u))%string.
Proof. induction s as [|c s IH]; simpl; [done | by rewrite IH]. Qed.


Lemma _init_obo_version_obo_file self line :
  OBOReader.obo_file (_init_obo_version self line) = OBOReader.obo_file self.
Proof.
  unfold _init_obo_version.
  destruct (String.eqb (slice_to 14 line) _), (String.eqb (slice_to 12 line) _); done.
Qed.

Lemma _init_obo_version_typedefs self line :
  OBOReader.typedefs (_init_obo_version self line) = OBOReader.typedefs self.
Proof.
  unfold _init_obo_version.
  destruct (String.eqb (slice_to 14 line) _), (String.eqb (slice_to 12 line) _); done.
Qed.

Lemma versioned_obo_file st line :
  OBOReader.obo_file (versioned st line) = OBOReader.obo_file (reader st).
Proof.
  unfold versioned. destruct (OBOReader.data_version _); [done|].
  apply _init_obo_version_obo_file.
Qed.

Lemma versioned_typedefs st line :
  OBOReader.typedefs (versioned st line) = OBOReader.typedefs (reader st).
Proof.
  unfold versioned. destruct (OBOReader.data_version _); [done|].
  apply _init_obo_version_typedefs.
Qed.







(** A [[Term]] header while a Term is open is fatal, and the message
    holds the number the loop counts for that header. *)
Lemma term_header_on_open_term st lnum line rec :
  rec_curr st = Some rec ->
  is_term_header line = true ->
  iter_line st lnum line =
  Raise (Exception (die_msg (OBOReader.obo_file (reader st)) lnum
                      (not_terminated_msg "Term"))).
Proof.
  intros Hrec Hterm. unfold iter_line. rewrite Hterm, Hrec. simpl.
  unfold _die. by rewrite versioned_obo_file.
Qed.

(** A [[Typedef]] header while a Term is open is fatal as well. *)
Lemma typedef_header_on_open_term st lnum line rec :
  rec_curr st = Some rec ->
  is_term_header line = false ->
  is_typedef_header line = true ->
  iter_line st lnum line =
  Raise (Exception (die_msg (OBOReader.obo_file (reader st)) lnum
                      (not_terminated_msg "Typedef"))).
Proof.
  intros Hrec Hterm Htd. unfold iter_line. rewrite Hterm, Htd, Hrec. simpl.
  unfold _die. by rewrite versioned_obo_file.
Qed.

(** A [[Typedef]] header while a Typedef is open and no Term is: the
    open Typedef is dropped and a new one begun. *)
Lemma typedef_header_on_open_typedef st lnum line td :
  rec_curr st = None ->
  typedef_curr st = Some td ->
  is_term_header line = false ->
  is_typedef_header line = true ->
  iter_line st lnum line =
  Ok (mk_iter_state (versioned st line) None (Some TypeDef.init) (yielded st)).
Proof.
  intros Hrec Htyp Hterm Htd. unfold iter_line. by rewrite Hterm, Htd, Hrec.
Qed.

(** The loop counts lines from 0: the line processed with number [k + i]
    is the one at index [i]. *)
Lemma iter_lines_app st k pre post :
  iter_lines st k (pre ++ post) =
  match iter_lines st k pre with
  | Ok st' => iter_lines st' (k + length pre) post
  | Raise e => Raise e
  end.
Proof.
  revert st k. induction pre as [|l pre IH]; intros st k; simpl.
  - by rewrite Nat.add_0_r.
  - destruct (iter_line st k l) as [st'|e]; simpl; [|done].
    rewrite IH. by rewrite Nat.add_succ_r.
Qed.

(** A line that is no header and not blank, read while a Typedef is open
    and no Term is, leaves the typedef table and the records alone and
    the Typedef open. *)
Lemma typedef_field_line st lnum line st' td :
  rec_curr st = None -> typedef_curr st = Some td ->
  is_term_header line = false -> is_typedef_header line = false ->
  rstrip line <> EmptyString ->
  iter_line st lnum line = Ok st' ->
  rec_curr st' = None /\ is_Some (typedef_curr st') /\
  OBOReader.typedefs (reader st') = OBOReader.typedefs (reader st) /\
  yielded st' = yielded st.
Proof.
  intros Hrec Htyp Hterm Htd Hne. unfold iter_line.
  rewrite Hterm, Htd, Hrec, Htyp. simpl.
  destruct (contains_char ":" (rstrip line)).
  - destruct (_add_to_typedef _ td (rstrip line) lnum) as [t'|e]; simpl; [|done].
    intros [= <-]. simpl. rewrite versioned_typedefs. eauto.
  - apply String.eqb_neq in Hne. rewrite Hne. done.
Qed.

Lemma typedef_field_lines body st k st' :
  Forall (fun l => is_term_header l = false /\ is_typedef_header l = false /\
                   rstrip l <> EmptyString) body ->
  rec_curr st = None -> is_Some (typedef_curr st) ->
  iter_lines st k body = Ok st' ->
  rec_curr st' = None /\
  OBOReader.typedefs (reader st') = OBOReader.typedefs (reader st) /\
  yielded st' = yielded st.
Proof.
  intros Hbody. revert st k.
  induction Hbody as [|l body (Hl1 & Hl2 & Hl3) _ IH]; intros st k Hr [td Ht]; simpl.
  - by intros [= <-].
  - destruct (iter_line st k l) as [st1|e] eqn:Hstep; simpl; [|done].
    destruct (typedef_field_line st k l st1 td Hr Ht Hl1 Hl2 Hl3 Hstep)
      as (Hr1 & Ht1 & Htab1 & Hy1).
    intros Hrest. destruct (IH st1 (S k) Hr1 Ht1 Hrest) as (Hr2 & Htab2 & Hy2).
    split; [done|]. split; congruence.
Qed.

(** So a file that ends in a [[Typedef]] block without its blank line has
    that Typedef nowhere: the table and the records are those of the
    lines before the block. *)
Lemma unterminated_typedef_not_stored self pre hdr body st0 rd recs :
  iter_lines (iter_start self) 0 pre = Ok st0 ->
  rec_curr st0 = None ->
  is_term_header hdr = false -> is_typedef_header hdr = true ->
  Forall (fun l => is_term_header l = false /\ is_typedef_header l = false /\
                   rstrip l <> EmptyString) body ->
  OBOReader_iter self (pre ++ hdr :: body) = Ok (rd, recs) ->
  OBOReader.typedefs rd = OBOReader.typedefs (reader st0) /\ recs = yielded st0.
Proof.
  intros Hpre Hrec Hterm Htd Hbody. unfold OBOReader_iter.
  rewrite iter_lines_app, Hpre. cbn [iter_lines].
  assert (Hhdr : iter_line st0 (0 + length pre) hdr =
            Ok (mk_iter_state (versioned st0 hdr) None (Some TypeDef.init) (yielded st0))).
  { unfold iter_line. by rewrite Hterm, Htd, Hrec. }
  rewrite Hhdr. simpl.
  set (st1 := mk_iter_state (versioned st0 hdr) None (Some TypeDef.init) (yielded st0)).
  destruct (iter_lines st1 (S (length pre)) body) as [st2|e] eqn:Hrest; simpl; [|done].
  destruct (typedef_field_lines body st1 _ st2 Hbody eq_refl
              (mk_is_Some _ _ eq_refl) Hrest) as (Hr2 & Htab2 & Hy2).
  rewrite Hr2. intros [= <- <-]. simpl in *. rewrite versioned_typedefs in Htab2.
  by split.
Qed.






(** ** The parser hands fresh records to the loader *)

Lemma fresh_term_eq r r' :
  GOTerm.level r' = GOTerm.level r -> GOTerm.depth r' = GOTerm.depth r ->
  GOTerm.children r' = GOTerm.children r ->
  fresh_term r' = fresh_term r.
Proof. unfold fresh_term. by intros -> -> ->. Qed.

Lemma _add_nested_fresh rec name value rec' :
  _add_nested rec name value = Ok rec' -> fresh_term rec' = fresh_term rec.
Proof.
  unfold _add_nested.
  destruct (split_char " " _) as [|? [|? [|? ?]]]; try done.
  destruct (dict_get name (GOTerm.dyn rec)) as [[]|]; try done.
  by intros [= <-].
Qed.

Lemma update_rec_fresh self rec name value rec' :
  update_rec self rec name value = Ok rec' -> fresh_term rec' = fresh_term rec.
Proof.
  unfold update_rec.
  repeat match goal with
  | |- context [if ?b then _ else _] => destruct b
  | |- context [match dict_get ?k ?d with _ => _ end] =>
      destruct (dict_get k d) as [[]|]
  end; try done; try (by intros [= <-]).
  all: intros H; apply _add_nested_fresh in H; by rewrite H.
Qed.

Lemma _add_to_ref_fresh self rec line lnum rec' :
  _add_to_ref self rec line lnum = Ok rec' -> fresh_term rec' = fresh_term rec.
Proof.
  unfold _add_to_ref. destruct (re_field line) as [[name value]|]; [|done].
  repeat match goal with
  | |- context [if ?b then _ else _] => destruct b
  end; try (by intros [= <-]); try (apply update_rec_fresh).
  all: try (destruct (_chk_none _ _ _); simpl; [by intros [= <-] | done]).
  destruct (split_ws_0 value); [by intros [= <-] | done].
Qed.

Lemma iter_line_fresh st lnum line st' :
  iter_fresh st -> iter_line st lnum line = Ok st' -> iter_fresh st'.
Proof.
  intros [Hy Hr]. unfold iter_line.
  destruct (is_term_header line).
  { destruct (rec_curr st); simpl; [done|]. intros [= <-]. split; [done|].
    simpl. by intros r [= <-]. }
  destruct (is_typedef_header line).
  { destruct (rec_curr st) as [r|] eqn:Hrec; simpl; [done|]. intros [= <-].
    split; [done|]. simpl. done. }
  destruct (is_Some_b (rec_curr st) || is_Some_b (typedef_curr st));
    [|intros [= <-]; by split].
  destruct (contains_char ":" (rstrip line)).
  { destruct (rec_curr st) as [r|] eqn:Hrec.
    - destruct (_add_to_ref _ r _ lnum) as [r'|] eqn:Hadd; simpl; [|done].
      intros [= <-]. split; [done|]. simpl. intros ? [= <-].
      rewrite (_add_to_ref_fresh _ _ _ _ _ Hadd). by apply Hr.
    - destruct (typedef_curr st); [|done].
      destruct (_add_to_typedef _ _ _ lnum); simpl; [|done].
      intros [= <-]. by split. }
  destruct (String.eqb (rstrip line) EmptyString); [|done].
  destruct (rec_curr st) as [r|] eqn:Hrec.
  - intros [= <-]. split; [|done]. simpl.
    rewrite forallb_app, Hy. simpl. by rewrite (Hr r eq_refl).
  - destruct (typedef_curr st); intros [= <-]; by split.
Qed.

Lemma iter_lines_fresh lines st k st' :
  iter_fresh st -> iter_lines st k lines = Ok st' -> iter_fresh st'.
Proof.
  revert st k. induction lines as [|l lines IH]; intros st k Hf; simpl.
  - by intros [= <-].
  - destruct (iter_line st k l) as [st1|e] eqn:Hstep; simpl; [|done].
    apply IH. by eapply iter_line_fresh.
Qed.

Lemma OBOReader_iter_fresh self lines rd recs :
  OBOReader_iter self lines = Ok (rd, recs) -> forallb fresh_term recs = true.
Proof.
  unfold OBOReader_iter.
  destruct (iter_lines (iter_start self) 0 lines) as [st|e] eqn:Hloop; simpl; [|done].
  assert (Hstart : iter_fresh (iter_start self)) by (by split).
  destruct (iter_lines_fresh lines _ _ _ Hstart Hloop) as [Hy Hr].
  destruct (rec_curr st) as [r|]; intros [= <- <-]; [|done].
  rewrite forallb_app, Hy. simpl. by rewrite (Hr r eq_refl).
Qed.

Lemma save_records_fresh lo recs :
  forallb fresh_term recs = true -> fresh (save_records lo recs).1 = true.
Proof.
  unfold save_records, fresh.
  assert (H : forall st, forallb fresh_term st.1 = true ->
            forallb fresh_term recs = true ->
            forallb fresh_term (fold_left (save_record lo) recs st).1 = true);
    [|by apply H].
  induction recs as [|r recs IH]; intros [h d] Hh Hrecs; simpl in *; [done|].
  apply andb_prop in Hrecs as [Hr Hrecs]. apply IH; [|done].
  rewrite save_record_heap. destruct (kept lo r); [|done].
  rewrite forallb_app, Hh. simpl. by rewrite Hr.
Qed.

(** [load_obo_file] runs [populate_terms] on a fresh heap: the theorems
    about assembly from a fresh heap are about every graph it returns. *)
Lemma load_obo_file_fresh fuel obo_file lines arg lo self h' :
  load_obo_file fuel obo_file lines arg lo = Ok (self, h') ->
  exists h u, fresh h = true /\ populate_terms fuel self h = (h', Ok u).
Proof.
  intros Hload.
  destruct (load_obo_file_Ok_inv _ _ _ _ _ _ _ Hload)
    as (rd & rd' & recs & u & _ & Hiter & _ & Hpop).
  exists (save_records lo recs).1, u. split; [|done].
  apply save_records_fresh. by eapply OBOReader_iter_fresh.
Qed.

Lemma unclaimed_later_spec lo r later :
  unclaimed_later lo r later = true ->
  forall r' k, In r' later -> kept lo r' = true ->
    In k (ids_of r) -> ~ In k (ids_of r').
Proof.
  unfold unclaimed_later. rewrite forallb_forall. intros H r' k Hr' Hkept Hk Hk'.
  specialize (H r' Hr'). rewrite Hkept in H. cbn [negb orb] in H.
  rewrite forallb_forall in H. specialize (H k Hk).
  apply str_in_In in Hk'. by rewrite Hk' in H.
Qed.

(** C4, as amended. Every record kept by the loader is indexed under its
    primary identifier and under each of its alternate identifiers, and
    in the assembled graph all of them resolve to one and the same Term
    object, that record's, provided no record loaded after it and kept
    carries any of these identifiers. *)
Theorem load_obo_file_alt_ids fuel obo_file lines arg lo self h' rd rd' recs1 r recs2 :
  load_obo_file fuel obo_file lines arg lo = Ok (self, h') ->
  OBOReader_init obo_file arg = Ok rd ->
  OBOReader_iter rd lines = Ok (rd', recs1 ++ r :: recs2) ->
  kept lo r = true ->
  unclaimed_later lo r recs2 = true ->
  exists a t,
    h' !! a = Some t /\
    GOTerm.id t = GOTerm.id r /\ GOTerm.alt_ids t = GOTerm.alt_ids r /\
    dict_get (GOTerm.id r) (GODag.terms self) = Some a /\
    forall alt, In alt (GOTerm.alt_ids r) ->
      dict_get alt (GODag.terms self) = Some a.
Proof.
  intros Hload Hinit Hiter Hkept Hun.
  pose proof (unclaimed_later_spec _ _ _ Hun) as Hdisj.
  destruct (load_obo_file_Ok_inv _ _ _ _ _ _ _ Hload)
    as (rd0 & rd0' & recs & u & Hinit0 & Hiter0 & -> & Hpop).
  assert (rd0 = rd) as -> by congruence.
  assert (rd0' = rd' /\ recs = recs1 ++ r :: recs2) as [-> ->]
    by (split; congruence).
  destruct (save_records_index lo recs1 r recs2 Hkept Hdisj) as (a & Ha & Hidx).
  pose proof (pres_frame_populate_terms fuel
                (GODag.mk (save_records lo (recs1 ++ r :: recs2)).2
                   (OBOReader.typedefs rd') (OBOReader.optional_attrs rd'))
                (save_records lo (recs1 ++ r :: recs2)).1) as Hf.
  rewrite Hpop in Hf. simpl in Hf.
  destruct (frame_lookup _ _ _ _ _ Hf Ha) as (t & Ht & Hsb).
  exists a, t. split; [done|]. split; [apply (sb_id _ _ _ Hsb)|].
  split; [apply (sb_alt_ids _ _ _ Hsb)|]. simpl. split.
  - apply Hidx. by left.
  - intros alt Halt. apply Hidx. by right.
Qed.

(** * Examples *)

Example diamond_load :
  load_obo_file 8 "go-basic.obo" diamond_lines ArgNone false
  = Ok (diamond_graph, diamond_heap).
Proof. vm_compute. reflexivity. Qed.

Example part_of_load :
  load_obo_file 8 "go-basic.obo" part_of_lines (ArgNames ["relationship"]) false
  = Ok (part_of_graph, part_of_heap).
Proof. vm_compute. reflexivity. Qed.

(** Scenario 1 of the specification: the child of a root has level and
    depth 1 and is among the children of the root. *)
Example diamond_left :
  exists t, diamond_heap !! 1 = Some t /\
    GOTerm.level t = Some 1%Z /\ GOTerm.depth t = Some 1%Z /\
    In 1 (GOTerm.children diamond_root).
Proof. eexists. vm_compute. repeat split. by left. Qed.

Lemma populate_terms_root_metrics_witness :
  fresh diamond_fresh = true /\
  populate_terms 8 diamond_graph diamond_fresh = (diamond_heap, Ok tt) /\
  In 4 (values diamond_graph) /\
  diamond_heap !! 4 = Some diamond_isolated /\
  GOTerm.parents diamond_isolated = [] /\
  GOTerm.level diamond_isolated = Some 0%Z /\
  GOTerm.depth diamond_isolated = Some 0%Z.
Proof.
  assert (H1 : fresh diamond_fresh = true) by (vm_compute; reflexivity).
  assert (H2 : populate_terms 8 diamond_graph diamond_fresh = (diamond_heap, Ok tt))
    by (vm_compute; reflexivity).
  assert (H3 : In 4 (values diamond_graph)) by (vm_compute; tauto).
  assert (H4 : diamond_heap !! 4 = Some diamond_isolated) by reflexivity.
  assert (H5 : GOTerm.parents diamond_isolated = []) by reflexivity.
  repeat (split; [assumption|]).
  exact (populate_terms_root_metrics 8 diamond_graph diamond_fresh diamond_heap tt 4
           diamond_isolated H1 H2 H3 H4 H5).
Defined.

Lemma populate_terms_level_le_depth_witness :
  fresh diamond_fresh = true /\
  populate_terms 8 diamond_graph diamond_fresh = (diamond_heap, Ok tt) /\
  In 3 (values diamond_graph) /\
  diamond_heap !! 3 = Some diamond_bottom /\
  exists l d,
    GOTerm.level diamond_bottom = Some l /\ GOTerm.depth diamond_bottom = Some d /\
    metric_eqn Level diamond_heap diamond_bottom l /\
    metric_eqn Depth diamond_heap diamond_bottom d /\
    (l <= d)%Z.
Proof.
  assert (H1 : fresh diamond_fresh = true) by (vm_compute; reflexivity).
  assert (H2 : populate_terms 8 diamond_graph diamond_fresh = (diamond_heap, Ok tt))
    by (vm_compute; reflexivity).
  assert (H3 : In 3 (values diamond_graph)) by (vm_compute; tauto).
  assert (H4 : diamond_heap !! 3 = Some diamond_bottom) by reflexivity.
  repeat (split; [assumption|]).
  exact (populate_terms_level_le_depth 8 diamond_graph diamond_fresh diamond_heap tt 3
           diamond_bottom H1 H2 H3 H4).
Defined.

Lemma populate_terms_again_keeps_metrics_witness :
  forallb (measured_b diamond_heap) (values diamond_graph) = true /\
  In 3 (values diamond_graph) /\
  diamond_heap !! 3 = Some diamond_bottom /\
  exists t', (populate_terms 0 diamond_graph diamond_heap).1 !! 3 = Some t' /\
    GOTerm.level t' = GOTerm.level diamond_bottom /\
    GOTerm.depth t' = GOTerm.depth diamond_bottom.
Proof.
  assert (H1 : forallb (measured_b diamond_heap) (values diamond_graph) = true)
    by (vm_compute; reflexivity).
  assert (H2 : In 3 (values diamond_graph)) by (vm_compute; tauto).
  assert (H3 : diamond_heap !! 3 = Some diamond_bottom) by reflexivity.
  repeat (split; [assumption|]).
  exact (populate_terms_again_keeps_metrics 0 diamond_graph diamond_heap 3
           diamond_bottom H1 H2 H3).
Defined.

Lemma populate_terms_child_once_witness :
  fresh diamond_fresh = true /\
  populate_terms 8 diamond_graph diamond_fresh = (diamond_heap, Ok tt) /\
  In 5 (values diamond_graph) /\
  diamond_heap !! 5 = Some diamond_twice /\
  GOTerm._parents diamond_twice = ["GO:0000001"; "GO:0000001"] /\
  In 0 (GOTerm.parents diamond_twice) /\
  exists tp, diamond_heap !! 0 = Some tp /\ count_term 5 (GOTerm.children tp) = 1.
Proof.
  assert (H1 : fresh diamond_fresh = true) by (vm_compute; reflexivity).
  assert (H2 : populate_terms 8 diamond_graph diamond_fresh = (diamond_heap, Ok tt))
    by (vm_compute; reflexivity).
  assert (H3 : In 5 (values diamond_graph)) by (vm_compute; tauto).
  assert (H4 : diamond_heap !! 5 = Some diamond_twice) by reflexivity.
  assert (H5 : GOTerm._parents diamond_twice = ["GO:0000001"; "GO:0000001"])
    by reflexivity.
  assert (H6 : In 0 (GOTerm.parents diamond_twice)) by (vm_compute; tauto).
  repeat (split; [assumption|]).
  exact (populate_terms_child_once 8 diamond_graph diamond_fresh diamond_heap tt 5
           diamond_twice 0 H1 H2 H3 H4 H6).
Defined.

Lemma paths_to_top_root_paths_witness :
  fresh diamond_fresh = true /\
  populate_terms 8 diamond_graph diamond_fresh = (diamond_heap, Ok tt) /\
  dict_get "GO:0000004" (GODag.terms diamond_graph) = Some 3 /\
  exists d, lookup_metric Depth diamond_heap 3 = Some d /\
    forall fuel', Z.to_nat d < fuel' ->
      exists paths,
        paths_to_top fuel' diamond_graph diamond_heap "GO:0000004" = Ok (Some paths) /\
        (forall path, In path paths <-> root_path diamond_heap path 3) /\
        ((forall b t, diamond_heap !! b = Some t -> NoDup (GOTerm.parents t)) ->
         NoDup paths).
Proof.
  assert (H1 : fresh diamond_fresh = true) by (vm_compute; reflexivity).
  assert (H2 : populate_terms 8 diamond_graph diamond_fresh = (diamond_heap, Ok tt))
    by (vm_compute; reflexivity).
  assert (H3 : dict_get "GO:0000004" (GODag.terms diamond_graph) = Some 3)
    by reflexivity.
  repeat (split; [assumption|]).
  exact (paths_to_top_root_paths 8 diamond_graph diamond_fresh diamond_heap tt
           "GO:0000004" 3 H1 H2 H3).
Defined.

(** Scenario 5 of the specification: the Term below both branches has two
    paths, one through each, from the root to itself. *)
Example diamond_paths :
  paths_to_top 3 diamond_graph diamond_heap "GO:0000004"
  = Ok (Some [[0; 1; 3]; [0; 2; 3]]).
Proof. vm_compute. reflexivity. Qed.

(** A Term that names a parent twice has each path through it twice. *)
Example twice_paths :
  paths_to_top 3 diamond_graph diamond_heap "GO:0000006"
  = Ok (Some [[0; 5]; [0; 5]]).
Proof. vm_compute. reflexivity. Qed.

(** An identifier that is not in the graph gives Python's [None]. *)
Example unknown_paths :
  paths_to_top 3 diamond_graph diamond_heap "GO:0000042" = Ok None.
Proof. vm_compute. reflexivity. Qed.

Lemma populate_terms_inverts_relationship_witness :
  populate_terms 8 part_of_graph part_of_fresh = (part_of_heap, Ok tt) /\
  In 0 (values part_of_graph) /\
  raw_rel_b part_of_fresh 0 "part_of" "GO:0000020" = true /\
  dict_get "GO:0000020" (GODag.terms part_of_graph) = Some 1 /\
  dict_get "part_of" (GODag.typedefs part_of_graph) = Some part_of_typedef /\
  TypeDef.inverse_of part_of_typedef = "has_part" /\
  String.eqb "has_part" EmptyString = false /\
  has_rel part_of_heap 1 "has_part" 0.
Proof.
  assert (H1 : populate_terms 8 part_of_graph part_of_fresh = (part_of_heap, Ok tt))
    by (vm_compute; reflexivity).
  assert (H2 : In 0 (values part_of_graph)) by (vm_compute; tauto).
  assert (H3 : raw_rel_b part_of_fresh 0 "part_of" "GO:0000020" = true)
    by (vm_compute; reflexivity).
  assert (H4 : dict_get "GO:0000020" (GODag.terms part_of_graph) = Some 1)
    by reflexivity.
  assert (H5 : dict_get "part_of" (GODag.typedefs part_of_graph) = Some part_of_typedef)
    by reflexivity.
  assert (H6 : TypeDef.inverse_of part_of_typedef = "has_part") by reflexivity.
  assert (H7 : String.eqb "has_part" EmptyString = false) by reflexivity.
  repeat (split; [assumption|]).
  exact (populate_terms_inverts_relationship 8 part_of_graph part_of_fresh part_of_heap
           tt 0 1 "GO:0000020" "part_of" "has_part" part_of_typedef
           H1 H2 H3 H4 H5 H6 H7).
Defined.

Lemma load_obo_file_alt_ids_witness :
  load_obo_file 8 "go-basic.obo" diamond_lines ArgNone false
    = Ok (diamond_graph, diamond_heap) /\
  OBOReader_init "go-basic.obo" ArgNone = Ok diamond_reader /\
  OBOReader_iter diamond_reader diamond_lines
    = Ok (diamond_read, [] ++ diamond_first :: diamond_rest) /\
  kept false diamond_first = true /\
  unclaimed_later false diamond_first diamond_rest = true /\
  GOTerm.alt_ids diamond_first = ["GO:0000009"] /\
  exists a t,
    diamond_heap !! a = Some t /\
    GOTerm.id t = GOTerm.id diamond_first /\
    GOTerm.alt_ids t = GOTerm.alt_ids diamond_first /\
    dict_get (GOTerm.id diamond_first) (GODag.terms diamond_graph) = Some a /\
    forall alt, In alt (GOTerm.alt_ids diamond_first) ->
      dict_get alt (GODag.terms diamond_graph) = Some a.
Proof.
  assert (H1 : load_obo_file 8 "go-basic.obo" diamond_lines ArgNone false
               = Ok (diamond_graph, diamond_heap)) by (vm_compute; reflexivity).
  assert (H2 : OBOReader_init "go-basic.obo" ArgNone = Ok diamond_reader)
    by reflexivity.
  assert (H3 : OBOReader_iter diamond_reader diamond_lines
               = Ok (diamond_read, [] ++ diamond_first :: diamond_rest))
    by (vm_compute; reflexivity).
  assert (H4 : kept false diamond_first = true) by reflexivity.
  assert (H5 : unclaimed_later false diamond_first diamond_rest = true)
    by (vm_compute; reflexivity).
  assert (H6 : GOTerm.alt_ids diamond_first = ["GO:0000009"]) by reflexivity.
  repeat (split; [assumption|]).
  exact (load_obo_file_alt_ids 8 "go-basic.obo" diamond_lines ArgNone false
           diamond_graph diamond_heap diamond_reader diamond_read [] diamond_first
           diamond_rest H1 H2 H3 H4 H5).
Defined.

(** C4, as stated, fails: the first Term is in the graph under its
    primary identifier, and its alternate identifier resolves to another
    Term object, the second Term, which took that identifier as its
    primary one. *)
Lemma alt_id_taken_counterexample :
  exists self h t,
    load_obo_file 8 "go-basic.obo" colliding_lines ArgNone false = Ok (self, h) /\
    In 0 (values self) /\
    h !! 0 = Some t /\
    In "GO:0000002" (GOTerm.alt_ids t) /\
    dict_get (GOTerm.id t) (GODag.terms self) = Some 0 /\
    dict_get "GO:0000002" (GODag.terms self) = Some 1 /\
    dict_get "GO:0000002" (GODag.terms self) <> dict_get (GOTerm.id t) (GODag.terms self).
Proof.
  eexists _, _, _. split; [vm_compute; reflexivity|].
  split; [vm_compute; tauto|]. split; [reflexivity|].
  split; [vm_compute; tauto|]. split; [reflexivity|]. split; [reflexivity|].
  vm_compute. discriminate.
Qed.

(** C6 on the failing input: a [[Typedef]] header while a Typedef is open
    raises nothing. The open Typedef is dropped; the table holds the
    second Typedef alone. *)
Theorem open_typedef_reopened_not_fatal :
  exists rd,
    OBOReader_iter diamond_reader typedef_twice_lines = Ok (rd, []) /\
    dict_keys (OBOReader.typedefs rd) = ["has_part"] /\
    dict_get "part_of" (OBOReader.typedefs rd) = None.
Proof. eexists. vm_compute. repeat split. Qed.

(** The sibling path: a [[Term]] header while a Term is open is fatal,
    with the number of the second header, counted from 0. *)
Example open_term_reopened_fatal :
  OBOReader_iter diamond_reader
    (map text_line ["[Term]"; "id: GO:0000001"; "[Term]"; "id: GO:0000002"])
  = Raise (Exception (die_msg "go-basic.obo" 2 (not_terminated_msg "Term"))).
Proof. vm_compute. reflexivity. Qed.




(** In that file the Typedef regulates is open at the end and is not in
    the table, which holds part_of alone; the Term that is open at the end
    is the second of the two records. *)
Example unclosed_typedef_parse :
  exists rd r1 r2,
    OBOReader_iter diamond_reader (unclosed_pre ++ unclosed_hdr :: unclosed_body)
    = Ok (rd, [r1; r2]) /\
    option_map TypeDef.id (typedef_curr unclosed_end) = Some "regulates" /\
    dict_keys (OBOReader.typedefs rd) = ["part_of"] /\
    dict_get "regulates" (OBOReader.typedefs rd) = None /\
    GOTerm.id r1 = "GO:0000010" /\ GOTerm.id r2 = "GO:0000020".
Proof. eexists _, _, _. vm_compute. repeat split. Qed.

(** A file that ends inside an open Term and an open Typedef: no error,
    an empty typedef table, and the open Term as the only record. *)
Example open_at_end_parse :
  exists r,
    OBOReader_iter diamond_reader open_at_end_lines
    = Ok (diamond_reader, [r]) /\ GOTerm.id r = "GO:0000001".
Proof. eexists. vm_compute. split; reflexivity. Qed.

(** * Further properties *)

(** ** Sets as duplicate-free lists *)

Section sets.
Context {A : Type} (eqb : A -> A -> bool).
Hypothesis eqb_eq : forall x y, eqb x y = true <-> x = y.

Lemma existsb_eqb_In x s : existsb (eqb x) s = true <-> In x s.
Proof.
  rewrite existsb_exists. split.
  - intros (y & Hy & He). apply eqb_eq in He. by subst.
  - intros Hx. exists x. split; [done|]. by apply eqb_eq.
Qed.

Lemma In_set_add x y s : In x (set_add eqb y s) <-> In x s \/ x = y.
Proof.
  unfold set_add. destruct (existsb (eqb y) s) eqn:He.
  - apply existsb_eqb_In in He. split; [by left|]. intros [H | ->]; done.
  - rewrite in_app_iff. simpl. intuition (subst; auto).
Qed.

Lemma NoDup_set_add y s : NoDup s -> NoDup (set_add eqb y s).
Proof.
  intros Hs. unfold set_add. destruct (existsb (eqb y) s) eqn:He; [done|].
  apply NoDup_app. split; [done|]. split; [|apply NoDup_singleton].
  intros x Hx Hy. apply list_elem_of_In in Hx, Hy. destruct Hy as [Hy | []].
  apply existsb_eqb_In in Hx. congruence.
Qed.

Lemma In_set_update x s xs : In x (set_update eqb s xs) <-> In x s \/ In x xs.
Proof.
  unfold set_update. revert s. induction xs as [|y ys IH]; intros s; simpl.
  - tauto.
  - rewrite IH, In_set_add. intuition (subst; auto).
Qed.

Lemma NoDup_set_update s xs : NoDup s -> NoDup (set_update eqb s xs).
Proof.
  unfold set_update. revert s. induction xs as [|y ys IH]; intros s Hs; simpl; [done|].
  apply IH. by apply NoDup_set_add.
Qed.
End sets.

Lemma string_eqb_eq (x y : string) : String.eqb x y = true <-> x = y.
Proof. apply String.eqb_eq. Qed.

Lemma edge_eqb_eq (e e' : string * string) : edge_eqb e e' = true <-> e = e'.
Proof.
  unfold edge_eqb. destruct e as [a b], e' as [a' b']. simpl.
  rewrite andb_true_iff, !String.eqb_eq. split; [intros [-> ->] | intros [= -> ->]]; done.
Qed.

(** ** The walks *)

Lemma has_term_loop_ext h go go' term ps :
  (forall p, In p ps -> go p = go' p) ->
  has_term_loop h go term ps = has_term_loop h go' term ps.
Proof.
  induction ps as [|p ps IH]; intros Hgo; simpl; [done|].
  destruct (h !! p) as [tp|]; [|done].
  destruct (String.eqb (GOTerm.id tp) term); [done|].
  rewrite (Hgo p) by (by left). destruct (go' p) as [[]|]; simpl; try done.
  apply IH. intros q Hq. apply Hgo. by right.
Qed.

Lemma all_ids_loop_ext h go go' ps acc :
  (forall p, In p ps -> go p = go' p) ->
  all_ids_loop h go ps acc = all_ids_loop h go' ps acc.
Proof.
  revert acc. induction ps as [|p ps IH]; intros acc Hgo; simpl; [done|].
  destruct (h !! p) as [tp|]; [|done].
  rewrite (Hgo p) by (by left). destruct (go' p) as [s|]; simpl; [|done].
  apply IH. intros q Hq. apply Hgo. by right.
Qed.

Lemma all_edges_loop_ext h go go' edge ps acc :
  (forall p, In p ps -> go p = go' p) ->
  all_edges_loop h go edge ps acc = all_edges_loop h go' edge ps acc.
Proof.
  revert acc. induction ps as [|p ps IH]; intros acc Hgo; simpl; [done|].
  destruct (h !! p) as [tp|]; [|done].
  rewrite (Hgo p) by (by left). destruct (go' p) as [s|]; simpl; [|done].
  apply IH. intros q Hq. apply Hgo. by right.
Qed.

Lemma has_parent_walk fuel h a term :
  has_parent fuel h a term = has_term GOTerm.parents fuel h a term.
Proof.
  revert a. induction fuel as [|fuel IH]; intros a; simpl; [done|].
  destruct (h !! a); [|done]. apply has_term_loop_ext. intros p _. apply IH.
Qed.

Lemma has_child_walk fuel h a term :
  has_child fuel h a term = has_term GOTerm.children fuel h a term.
Proof.
  revert a. induction fuel as [|fuel IH]; intros a; simpl; [done|].
  destruct (h !! a); [|done]. apply has_term_loop_ext. intros p _. apply IH.
Qed.

Lemma get_all_parents_walk fuel h a :
  get_all_parents fuel h a = all_ids GOTerm.parents fuel h a.
Proof.
  revert a. induction fuel as [|fuel IH]; intros a; simpl; [done|].
  destruct (h !! a); [|done]. apply all_ids_loop_ext. intros p _. apply IH.
Qed.

Lemma get_all_children_walk fuel h a :
  get_all_children fuel h a = all_ids GOTerm.children fuel h a.
Proof.
  revert a. induction fuel as [|fuel IH]; intros a; simpl; [done|].
  destruct (h !! a); [|done]. apply all_ids_loop_ext. intros p _. apply IH.
Qed.

Lemma get_all_parent_edges_walk fuel h a :
  get_all_parent_edges fuel h a = all_edges GOTerm.parents (fun x y => (x, y)) fuel h a.
Proof.
  revert a. induction fuel as [|fuel IH]; intros a; simpl; [done|].
  destruct (h !! a); [|done]. apply all_edges_loop_ext. intros p _. apply IH.
Qed.

Lemma get_all_child_edges_walk fuel h a :
  get_all_child_edges fuel h a = all_edges GOTerm.children (fun x y => (y, x)) fuel h a.
Proof.
  revert a. induction fuel as [|fuel IH]; intros a; simpl; [done|].
  destruct (h !! a); [|done]. apply all_edges_loop_ext. intros p _. apply IH.
Qed.

Lemma walk_trans next h a b c : walk next h a b -> walk next h b c -> walk next h a c.
Proof.
  induction 1 as [a t p Ha Hp | a t p b Ha Hp Hw IH]; intros Hc.
  - by eapply walk_more.
  - eapply walk_more; eauto.
Qed.

(** A walk begins with a step. *)
Lemma walk_inv next h a b :
  walk next h a b ->
  exists t p, h !! a = Some t /\ In p (next t) /\ (p = b \/ walk next h p b).
Proof. destruct 1; eauto 8. Qed.

Section walk_spec.
Context (next : GOTerm.t -> list nat) (h : heap) (D : nat -> Prop) (rk : nat -> nat).
Hypothesis Hranked : ranked next h D rk.

(** What the set of identifiers holds once the loop is through [ps]. *)
Lemma all_ids_loop_spec (go : nat -> result (list string)) ps :
  (forall p, In p ps ->
     is_Some (h !! p) /\
     exists s, go p = Ok s /\ NoDup s /\
       forall x, In x s <-> exists b, walk next h p b /\ id_at h b x) ->
  forall acc, NoDup acc ->
  exists ids, all_ids_loop h go ps acc = Ok ids /\ NoDup ids /\
    forall x, In x ids <->
      In x acc \/ exists p, In p ps /\ (id_at h p x \/ exists b, walk next h p b /\ id_at h b x).
Proof.
  induction ps as [|p ps IH]; intros Hgo acc Hacc; simpl.
  - exists acc. split; [done|]. split; [done|]. intros x. split; [by left|].
    intros [H | (p & [] & _)]. done.
  - destruct (Hgo p) as ([tp Htp] & s & Hs & Hnd & Hspec); [by left|].
    rewrite Htp, Hs. simpl.
    destruct (IH (fun q Hq => Hgo q (or_intror Hq))
                (set_update String.eqb (set_add String.eqb (GOTerm.id tp) acc) s))
      as (ids & Hrun & Hnd' & Hids).
    { apply NoDup_set_update, NoDup_set_add; [apply string_eqb_eq..|done]. }
    exists ids. split; [done|]. split; [done|]. intros x. rewrite Hids.
    rewrite (In_set_update _ string_eqb_eq), (In_set_add _ string_eqb_eq), Hspec.
    split.
    + intros [[[H | ->] | H] | (q & Hq & H)].
      * by left.
      * right. exists p. split; [by left|]. left. by exists tp.
      * right. exists p. split; [by left|]. by right.
      * right. exists q. split; [by right|]. done.
    + intros [H | (q & [<- | Hq] & H)].
      * left. left. by left.
      * destruct H as [(tq & Htq & <-) | H].
        -- left. left. right. congruence.
        -- left. by right.
      * right. eauto.
Qed.

Lemma all_ids_spec fuel : forall a,
  D a -> is_Some (h !! a) -> rk a < fuel ->
  exists ids, all_ids next fuel h a = Ok ids /\ NoDup ids /\
    forall x, In x ids <-> exists b, walk next h a b /\ id_at h b x.
Proof.
  induction fuel as [|fuel IH]; intros a Da [t Ht] Hrk; [lia|].
  simpl. rewrite Ht.
  destruct (all_ids_loop_spec (all_ids next fuel h) (next t)) with (acc := @nil string)
    as (ids & Hrun & Hnd & Hids).
  { intros p Hp. destruct (Hranked a t p Da Ht Hp) as (Dp & Hsome & Hlt).
    split; [done|]. apply IH; [done..|lia]. }
  { apply NoDup_nil_2. }
  exists ids. split; [done|]. split; [done|]. intros x. rewrite Hids. split.
  - intros [[] | (p & Hp & [Hx | (b & Hw & Hx)])].
    + exists p. split; [|done]. by eapply walk_one.
    + exists b. split; [|done]. by eapply walk_more.
  - intros (b & Hw & Hx). right.
    apply walk_inv in Hw as (t' & p & Ht' & Hp & Hw).
    assert (t' = t) as -> by congruence.
    exists p. split; [done|]. destruct Hw as [-> | Hw]; [by left | right; eauto].
Qed.

(** [has_term] is membership in what [all_ids] returns. *)
Lemma has_term_loop_spec (go : nat -> result bool) term ps :
  (forall p, In p ps ->
     is_Some (h !! p) /\
     exists b, go p = Ok b /\
       (b = true <-> exists c, walk next h p c /\ id_at h c term)) ->
  exists r, has_term_loop h go term ps = Ok r /\
    (r = true <->
       exists p, In p ps /\ (id_at h p term \/ exists c, walk next h p c /\ id_at h c term)).
Proof.
  induction ps as [|p ps IH]; intros Hgo; simpl.
  - exists false. split; [done|]. split; [done|]. intros (p & [] & _).
  - destruct (Hgo p) as ([tp Htp] & b & Hb & Hspec); [by left|].
    rewrite Htp. destruct (String.eqb (GOTerm.id tp) term) eqn:Heq.
    { exists true. split; [done|]. split; [|done]. intros _.
      exists p. split; [by left|]. left. exists tp. split; [done|].
      by apply String.eqb_eq. }
    rewrite Hb. simpl. destruct b.
    { exists true. split; [done|]. split; [|done]. intros _.
      exists p. split; [by left|]. right. by apply Hspec. }
    destruct (IH (fun q Hq => Hgo q (or_intror Hq))) as (r & Hr & Hrs).
    exists r. split; [done|]. rewrite Hrs. split.
    + intros (q & Hq & H). exists q. split; [by right | done].
    + intros (q & [<- | Hq] & H); [|eauto].
      destruct H as [(tq & Htq & Hid) | H].
      * assert (tq = tp) as -> by congruence.
        apply String.eqb_neq in Heq. done.
      * apply Hspec in H. done.
Qed.

Lemma has_term_spec term fuel : forall a,
  D a -> is_Some (h !! a) -> rk a < fuel ->
  exists r, has_term next fuel h a term = Ok r /\
    (r = true <-> exists b, walk next h a b /\ id_at h b term).
Proof.
  induction fuel as [|fuel IH]; intros a Da [t Ht] Hrk; [lia|].
  simpl. rewrite Ht.
  destruct (has_term_loop_spec (fun p => has_term next fuel h p term) term (next t))
    as (r & Hrun & Hr).
  { intros p Hp. destruct (Hranked a t p Da Ht Hp) as (Dp & Hsome & Hlt).
    split; [done|]. apply IH; [done..|lia]. }
  exists r. split; [done|]. rewrite Hr. split.
  - intros (p & Hp & [Hx | (b & Hw & Hx)]).
    + exists p. split; [|done]. by eapply walk_one.
    + exists b. split; [|done]. by eapply walk_more.
  - intros (b & Hw & Hx).
    apply walk_inv in Hw as (t' & p & Ht' & Hp & Hw).
    assert (t' = t) as -> by congruence.
    exists p. split; [done|]. destruct Hw as [-> | Hw]; [by left | right; eauto].
Qed.

End walk_spec.

(** ** The edges of the walks *)

Section edge_spec.
Context (next : GOTerm.t -> list nat) (edge : string -> string -> string * string).
Context (h : heap) (D : nat -> Prop) (rk : nat -> nat).
Hypothesis Hranked : ranked next h D rk.

Lemma all_edges_loop_spec (go : nat -> result (list (string * string))) edge0 ps :
  (forall p, In p ps ->
     is_Some (h !! p) /\
     exists s, go p = Ok s /\ NoDup s /\ forall e, In e s <-> walk_edge next edge h p e) ->
  forall acc, NoDup acc ->
  exists es, all_edges_loop h go edge0 ps acc = Ok es /\ NoDup es /\
    forall e, In e es <->
      In e acc \/
      exists p, In p ps /\ ((exists y, id_at h p y /\ e = edge0 y) \/ walk_edge next edge h p e).
Proof.
  induction ps as [|p ps IH]; intros Hgo acc Hacc; simpl.
  - exists acc. split; [done|]. split; [done|]. intros x. split; [by left|].
    intros [H | (p & [] & _)]. done.
  - destruct (Hgo p) as ([tp Htp] & s & Hs & Hnd & Hspec); [by left|].
    rewrite Htp, Hs. simpl.
    destruct (IH (fun q Hq => Hgo q (or_intror Hq))
                (set_update edge_eqb (set_add edge_eqb (edge0 (GOTerm.id tp)) acc) s))
      as (es & Hrun & Hnd' & Hes).
    { apply NoDup_set_update, NoDup_set_add; [apply edge_eqb_eq..|done]. }
    exists es. split; [done|]. split; [done|]. intros e. rewrite Hes.
    rewrite (In_set_update _ edge_eqb_eq), (In_set_add _ edge_eqb_eq), Hspec.
    split.
    + intros [[[H | ->] | H] | (q & Hq & H)].
      * by left.
      * right. exists p. split; [by left|]. left. exists (GOTerm.id tp).
        split; [by exists tp | done].
      * right. exists p. split; [by left|]. by right.
      * right. exists q. split; [by right|]. done.
    + intros [H | (q & [<- | Hq] & H)].
      * left. left. by left.
      * destruct H as [(y & (tq & Htq & <-) & ->) | H].
        -- left. left. right. congruence.
        -- left. by right.
      * right. eauto.
Qed.

Lemma all_edges_spec fuel : forall a,
  D a -> is_Some (h !! a) -> rk a < fuel ->
  exists es, all_edges next edge fuel h a = Ok es /\ NoDup es /\
    forall e, In e es <-> walk_edge next edge h a e.
Proof.
  induction fuel as [|fuel IH]; intros a Da [t Ht] Hrk; [lia|].
  simpl. rewrite Ht.
  destruct (all_edges_loop_spec (all_edges next edge fuel h) (edge (GOTerm.id t)) (next t))
    with (acc := @nil (string * string)) as (es & Hrun & Hnd & Hes).
  { intros p Hp. destruct (Hranked a t p Da Ht Hp) as (Dp & Hsome & Hlt).
    split; [done|]. apply IH; [done..|lia]. }
  { apply NoDup_nil_2. }
  exists es. split; [done|]. split; [done|]. intros e. rewrite Hes. split.
  - intros [[] | (p & Hp & [(y & Hy & ->) | [Hs | (c & Hw & Hs)]])].
    + left. exists t, p, y. done.
    + right. exists p. split; [by eapply walk_one | done].
    + right. exists c. split; [by eapply walk_more | done].
  - intros [(tc & p & y & Htc & Hp & Hy & ->) | (c & Hw & Hs)]; right.
    + assert (tc = t) as -> by congruence. exists p. split; [done|]. left. eauto.
    + apply walk_inv in Hw as (t' & p & Ht' & Hp & Hw).
      assert (t' = t) as -> by congruence.
      exists p. split; [done|]. right.
      destruct Hw as [-> | Hw]; [by left | right; eauto].
Qed.
End edge_spec.

(** ** What the assembly leaves for the walks *)

Lemma resolve_references_Ok self a h h' u :
  resolve_references self a h = (h', Ok u) -> parents_resolved self h' a.
Proof.
  unfold resolve_references. intros Hrun. inv_run Hrun.
  apply deref_Ok_inv in Hrun0 as (-> & Ha).
  apply list_comp_getitem_Ok_inv in Hrun1 as (-> & HF).
  apply modify_Ok_inv in Hrun2 as ->.
  pose proof (pres_resolve_relationship self a (alter (GOTerm.set_parents x0) a h)) as Hf.
  rewrite Hrun in Hf. simpl in Hf.
  assert (Ha1 : alter (GOTerm.set_parents x0) a h !! a = Some (GOTerm.set_parents x0 x)).
  { by rewrite list_lookup_alter_eq, Ha. }
  destruct (frame_lookup _ _ _ _ _ Hf Ha1) as (t' & Ht' & Hsb).
  exists t'. split; [done|].
  rewrite (sb__parents _ _ _ Hsb), (sb_parents _ _ _ Hsb eq_refl). done.
Qed.

Lemma frame_parents_resolved fp self h h' a :
  w_parents fp = false -> frame fp h h' ->
  parents_resolved self h a -> parents_resolved self h' a.
Proof.
  intros Hw Hf (t & Ht & HF). destruct (frame_lookup _ _ _ _ _ Hf Ht) as (t' & Ht' & Hsb).
  exists t'. split; [done|].
  by rewrite (sb__parents _ _ _ Hsb), (sb_parents _ _ _ Hsb Hw).
Qed.

(** The first loop resolves the parents of every Term it visits. *)
Lemma resolve_loop_parents self l h h' u :
  forM l (resolve_references self) h = (h', Ok u) ->
  forall a, In a l -> parents_resolved self h' a.
Proof.
  intros Hrun.
  destruct (forM_Ok_ind (fun _ => True) (fun a h => parents_resolved self h a)
              l (resolve_references self)) with (h := h) (h' := h') (u := u)
    as (_ & Hall); try done.
  intros b h1 h2 u' _ _ Hb. split; [done|]. split; [by eapply resolve_references_Ok|].
  intros c (t & Ht & HF). destruct (decide (c = b)) as [->|Hne].
  - by eapply resolve_references_Ok.
  - exists t. split; [|done].
    pose proof (pres_only_at_resolve_references self b h1) as Ho.
    rewrite Hb in Ho. simpl in Ho. by rewrite Ho.
Qed.

(** After a successful assembly the parents of every Term of the graph
    are resolved. *)
Lemma populate_terms_parents fuel self h h' u :
  populate_terms fuel self h = (h', Ok u) ->
  forall a, In a (values self) -> parents_resolved self h' a.
Proof.
  intros Hrun a Ha. unfold populate_terms in Hrun. inv_run Hrun.
  pose proof (pres_frame_link_loop fuel self (values self) h0) as Hf.
  rewrite Hrun in Hf. simpl in Hf.
  eapply frame_parents_resolved; [| exact Hf | by eapply resolve_loop_parents]. done.
Qed.

Lemma frame_children_sound fp V h h' :
  w_parents fp = false -> w_children fp = false -> frame fp h h' ->
  children_sound V h -> children_sound V h'.
Proof.
  intros Hp Hc Hf Hs p tp' c Htp' Hin.
  destruct (frame_lookup_r _ _ _ _ _ Hf Htp') as (tp & Htp & Hsb).
  rewrite (sb_children _ _ _ Hsb Hc) in Hin.
  destruct (Hs p tp c Htp Hin) as (HV & tc & Htc & Hpc).
  split; [done|]. destruct (frame_lookup _ _ _ _ _ Hf Htc) as (tc' & Htc' & Hsb').
  exists tc'. split; [done|]. by rewrite (sb_parents _ _ _ Hsb' Hp).
Qed.

Lemma pres_sound_of_frame {A} fp V (c : M A) :
  w_parents fp = false -> w_children fp = false -> pres (frame fp) c ->
  pres (maintains (children_sound V)) c.
Proof.
  intros Hp Hc Hf h Hs. eapply frame_children_sound; [exact Hp | exact Hc | apply Hf | exact Hs].
Qed.

Lemma pres_sound_add_child V ps rec parent :
  In rec V -> In parent ps ->
  pres (maintains (fun h => children_sound V h /\
          exists t, h !! rec = Some t /\ GOTerm.parents t = ps))
    (add_child rec parent).
Proof.
  intros HV Hps h [Hs (t & Ht & Hpt)].
  destruct (add_child_run rec parent h) as [-> | (p & Hp & _ & ->)]; [eauto|].
  assert (Hlt : parent < length h) by (by eapply lookup_lt_Some).
  split.
  - intros q tq c Hq Hc.
    assert (Hpar : forall c0 tc0, h !! c0 = Some tc0 ->
              exists tc1, <[parent:=GOTerm.set_children (GOTerm.children p ++ [rec]) p]> h
                            !! c0 = Some tc1 /\ GOTerm.parents tc1 = GOTerm.parents tc0).
    { intros c0 tc0 Hc0. destruct (decide (c0 = parent)) as [->|Hne].
      - rewrite list_lookup_insert_eq by done. eexists. split; [done|].
        simpl. congruence.
      - rewrite list_lookup_insert_ne by done. eauto. }
    destruct (decide (q = parent)) as [->|Hne].
    + rewrite list_lookup_insert_eq in Hq by done. injection Hq as <-.
      simpl in Hc. apply in_app_or in Hc as [Hc | [<- | []]].
      * destruct (Hs parent p c Hp Hc) as (Hin & tc & Htc & Hpc).
        split; [done|]. destruct (Hpar c tc Htc) as (tc1 & Htc1 & Heq).
        exists tc1. split; [done|]. by rewrite Heq.
      * split; [done|]. destruct (Hpar rec t Ht) as (tc1 & Htc1 & Heq).
        exists tc1. split; [done|]. by rewrite Heq, Hpt.
    + rewrite list_lookup_insert_ne in Hq by done.
      destruct (Hs q tq c Hq Hc) as (Hin & tc & Htc & Hpc).
      split; [done|]. destruct (Hpar c tc Htc) as (tc1 & Htc1 & Heq).
      exists tc1. split; [done|]. by rewrite Heq.
  - destruct (decide (rec = parent)) as [->|Hne].
    + rewrite list_lookup_insert_eq by done. eexists. split; [done|]. simpl. congruence.
    + rewrite list_lookup_insert_ne by done. eauto.
Qed.

Lemma pres_sound_populate_children V rec :
  In rec V -> pres (maintains (children_sound V)) (populate_children rec).
Proof.
  intros HV h Hs. unfold populate_children. rewrite bind_run. unfold deref.
  destruct (h !! rec) as [t|] eqn:Ht; [|done].
  pose proof (pres_forM (maintains (fun h => children_sound V h /\
                  exists t0, h !! rec = Some t0 /\ GOTerm.parents t0 = GOTerm.parents t))
                (GOTerm.parents t) (add_child rec)) as H.
  specialize (H (fun p Hp => pres_sound_add_child V _ rec p HV Hp) h).
  apply H. eauto.
Qed.

Lemma pres_sound_link V fuel self rec :
  In rec V -> pres (maintains (children_sound V)) (link_and_measure fuel self rec).
Proof.
  intros HV. apply pres_link; [tc_solve | by apply pres_sound_populate_children | ..].
  - eapply pres_sound_of_frame; [| | apply pres_invert_relationships]; done.
  - eapply pres_sound_of_frame; [| | apply pres__init_metric]; done.
  - eapply pres_sound_of_frame; [| | apply pres__init_metric]; done.
Qed.

(** From a fresh heap, whatever the outcome of the assembly, a child is a
    Term of the graph that has the Term among its parents. *)
Lemma populate_terms_children_sound fuel self h :
  fresh h = true -> children_sound (values self) (populate_terms fuel self h).1.
Proof.
  intros Hfr. unfold populate_terms. rewrite bind_run.
  pose proof (pres_frame_resolve_loop self (values self) h) as Hf.
  assert (Hs0 : children_sound (values self)
                  (forM (values self) (resolve_references self) h).1).
  { intros p tp' c Htp' Hc.
    destruct (frame_lookup_r _ _ _ _ _ Hf Htp') as (tp & Htp & Hsb).
    rewrite (sb_children _ _ _ Hsb eq_refl) in Hc.
    destruct (fresh_lookup h p tp Hfr Htp) as (_ & _ & Hnil).
    by rewrite Hnil in Hc. }
  destruct (forM (values self) (resolve_references self) h) as [h0 [u|e]];
    simpl in *; [|done].
  apply (pres_forM (maintains (children_sound (values self))) (values self)
           (link_and_measure fuel self)); [|done].
  intros a Ha. by apply pres_sound_link.
Qed.

(** Depth falls along parents. *)
Lemma ranked_parents h :
  metric_ok Depth h ->
  ranked GOTerm.parents h (fun a => is_Some (lookup_metric Depth h a))
    (fun a => Z.to_nat (default 0%Z (lookup_metric Depth h a))).
Proof.
  intros Hok a t p [d Hd] Ht Hp.
  apply lookup_metric_Some in Hd as (t' & Ht' & Hd).
  assert (t' = t) as -> by congruence.
  destruct (metric_ok_parents_lookup Depth h a t d Hok Ht Hd p Hp)
    as (w & Hw & Hw0 & Hlt & _).
  specialize (Hlt eq_refl).
  split; [by exists w|]. split.
  - apply lookup_metric_Some in Hw as (tp & Htp & _). by exists tp.
  - assert (Hda : lookup_metric Depth h a = Some d) by (apply lookup_metric_Some; eauto).
    rewrite Hw, Hda. simpl. lia.
Qed.

(** Depth rises along children, in a graph whose children are sound. *)
Lemma ranked_children self h B :
  metric_ok Depth h -> children_sound (values self) h ->
  (forall a, In a (values self) -> measured h a) ->
  (forall a d, In a (values self) -> lookup_metric Depth h a = Some d -> (d <= Z.of_nat B)%Z) ->
  ranked GOTerm.children h (fun a => In a (values self))
    (fun a => B - Z.to_nat (default 0%Z (lookup_metric Depth h a))).
Proof.
  intros Hok Hs Hm HB p tp c Hp Htp Hc.
  destruct (Hs p tp c Htp Hc) as (HV & tc & Htc & Hpc).
  split; [done|]. split; [by exists tc|].
  destruct (Hm c HV) as [_ [d Hd]].
  pose proof (HB c d HV Hd) as Hle.
  apply lookup_metric_Some in Hd as (tc' & Htc' & Hd).
  assert (tc' = tc) as -> by congruence.
  destruct (metric_ok_parents_lookup Depth h c tc d Hok Htc Hd p Hpc)
    as (w & Hw & Hw0 & Hlt & _).
  specialize (Hlt eq_refl).
  assert (Hdc : lookup_metric Depth h c = Some d) by (apply lookup_metric_Some; eauto).
  rewrite Hw, Hdc. simpl. lia.
Qed.

(** In an assembled graph the descendants of a Term are the Terms of the
    graph that have it as an ancestor. *)
Lemma descendant_ancestor self h p a :
  children_sound (values self) h ->
  descendant h p a -> In a (values self) /\ ancestor h a p.
Proof.
  intros Hs. unfold descendant, ancestor.
  induction 1 as [p tp c Hp Hc | p tp c b Hp Hc Hw IH].
  - destruct (Hs p tp c Hp Hc) as (HV & tc & Htc & Hpc).
    split; [done|]. by eapply walk_one.
  - destruct (Hs p tp c Hp Hc) as (HV & tc & Htc & Hpc).
    destruct IH as [HVb Hanc]. split; [done|].
    eapply walk_trans; [exact Hanc|]. by eapply walk_one.
Qed.

Lemma ancestor_descendant self h a p :
  (forall a, In a (values self) -> linked a h) ->
  (forall a, In a (values self) -> parents_resolved self h a) ->
  In a (values self) -> ancestor h a p -> descendant h p a.
Proof.
  intros Hl Hr Ha. unfold descendant, ancestor.
  induction 1 as [a t p Hat Hp | a t p b Hat Hp Hw IH].
  - destruct (Hl a Ha t p Hat Hp) as (tp & Htp & Hin). by eapply walk_one.
  - destruct (Hl a Ha t p Hat Hp) as (tp & Htp & Hin).
    assert (HVp : In p (values self)).
    { destruct (Hr a Ha) as (t' & Ht' & HF). assert (t' = t) as -> by congruence.
      apply list_elem_of_In in Hp.
      destruct (proj1 (list_elem_of_lookup _ _) Hp) as (i & Hi).
      destruct (Forall2_lookup_r _ _ _ _ _ HF Hi) as (id & _ & Hget).
      eapply dict_get_values. exact Hget. }
    eapply walk_trans; [by apply IH|]. by eapply walk_one.
Qed.

Lemma ranked_walk next h D rk a b :
  ranked next h D rk -> D a -> walk next h a b -> D b /\ rk b < rk a.
Proof.
  intros Hr Da Hw. induction Hw as [a t p Ha Hp | a t p b Ha Hp Hw IH].
  - destruct (Hr a t p Da Ha Hp) as (Dp & _ & Hlt). done.
  - destruct (Hr a t p Da Ha Hp) as (Dp & _ & Hlt).
    destruct (IH Dp) as [Db Hlt']. split; [done | lia].
Qed.

(** What a successful assembly from a fresh heap leaves, for the walks. *)
Lemma populate_terms_assembled fuel self h h' u :
  fresh h = true ->
  populate_terms fuel self h = (h', Ok u) ->
  metric_ok Depth h' /\
  (forall a, In a (values self) -> measured h' a) /\
  children_sound (values self) h' /\
  (forall a, In a (values self) -> linked a h') /\
  (forall a, In a (values self) -> parents_resolved self h' a).
Proof.
  intros Hfr Hrun.
  destruct (populate_terms_metrics fuel self h h' u
              (fresh_unset Level h Hfr) (fresh_unset Depth h Hfr) Hrun)
    as (_ & HokD & Hm).
  destruct (populate_terms_children fuel self h h' u Hfr Hrun) as (_ & Hl).
  pose proof (populate_terms_children_sound fuel self h Hfr) as Hs.
  rewrite Hrun in Hs. simpl in Hs.
  pose proof (populate_terms_parents fuel self h h' u Hrun) as Hr.
  done.
Qed.

Lemma bool_eq_iff (b c : bool) : (b = true <-> c = true) -> b = c.
Proof. destruct b, c; intuition congruence. Qed.

(** X1. [get_all_parents] on a Term of an assembled graph returns, within
    a recursion allowance above the depth of the Term, the identifiers of
    its ancestors, all of them and nothing else, each once. *)
Theorem get_all_parents_ancestors fuel self h h' u a :
  fresh h = true ->
  populate_terms fuel self h = (h', Ok u) ->
  In a (values self) ->
  exists d, lookup_metric Depth h' a = Some d /\
    forall fuel', Z.to_nat d < fuel' ->
      exists ids,
        get_all_parents fuel' h' a = Ok ids /\ NoDup ids /\
        forall x, In x ids <-> exists b, ancestor h' a b /\ id_at h' b x.
Proof.
  intros Hfr Hrun Ha.
  destruct (populate_terms_assembled fuel self h h' u Hfr Hrun) as (Hok & Hm & _).
  destruct (Hm a Ha) as [_ [d Hd]]. exists d. split; [done|]. intros fuel' Hfuel.
  rewrite get_all_parents_walk.
  apply (all_ids_spec GOTerm.parents h' _ _ (ranked_parents h' Hok)).
  - by exists d.
  - apply lookup_metric_Some in Hd as (t & Ht & _). by exists t.
  - rewrite Hd. simpl. done.
Qed.

(** X2. [has_parent(term)] on a Term of an assembled graph answers whether
    [term] is among what [get_all_parents()] returns. *)
Theorem has_parent_in_get_all_parents fuel self h h' u a term :
  fresh h = true ->
  populate_terms fuel self h = (h', Ok u) ->
  In a (values self) ->
  exists d, lookup_metric Depth h' a = Some d /\
    forall fuel', Z.to_nat d < fuel' ->
      exists ids,
        get_all_parents fuel' h' a = Ok ids /\
        has_parent fuel' h' a term = Ok (str_in term ids).
Proof.
  intros Hfr Hrun Ha.
  destruct (populate_terms_assembled fuel self h h' u Hfr Hrun) as (Hok & Hm & _).
  destruct (Hm a Ha) as [_ [d Hd]]. exists d. split; [done|]. intros fuel' Hfuel.
  rewrite get_all_parents_walk, has_parent_walk.
  assert (HD : is_Some (lookup_metric Depth h' a)) by (by exists d).
  assert (Hsome : is_Some (h' !! a)).
  { apply lookup_metric_Some in Hd as (t & Ht & _). by exists t. }
  assert (Hrk : Z.to_nat (default 0%Z (lookup_metric Depth h' a)) < fuel')
    by (rewrite Hd; simpl; done).
  destruct (all_ids_spec GOTerm.parents h' _ _ (ranked_parents h' Hok) fuel' a HD Hsome Hrk)
    as (ids & Hids & _ & Hin).
  destruct (has_term_spec GOTerm.parents h' _ _ (ranked_parents h' Hok) term fuel' a
              HD Hsome Hrk) as (r & Hr & Hrs).
  exists ids. split; [done|]. rewrite Hr. f_equal. apply bool_eq_iff.
  rewrite Hrs, str_in_In, Hin. done.
Qed.

(** X3. [get_all_children] on a Term of an assembled graph returns, within
    a recursion allowance above every depth of the graph, the identifiers
    of the Terms of the graph that have the Term as an ancestor. *)
Theorem get_all_children_descendants fuel self h h' u p fuel' :
  fresh h = true ->
  populate_terms fuel self h = (h', Ok u) ->
  In p (values self) ->
  covers fuel' self h' ->
  exists ids,
    get_all_children fuel' h' p = Ok ids /\ NoDup ids /\
    forall x, In x ids <->
      exists a, In a (values self) /\ ancestor h' a p /\ id_at h' a x.
Proof.
  intros Hfr Hrun Hp Hfuel. unfold covers in Hfuel.
  destruct (populate_terms_assembled fuel self h h' u Hfr Hrun)
    as (Hok & Hm & Hs & Hl & Hr).
  assert (Hpos : 0 < fuel').
  { destruct (Hm p Hp) as [_ [d Hd]]. specialize (Hfuel p d Hp Hd).
    destruct (metric_ok_lookup _ _ _ _ Hok Hd) as (_ & _ & _ & Hd0 & _). lia. }
  assert (HB : forall a d, In a (values self) -> lookup_metric Depth h' a = Some d ->
                 (d <= Z.of_nat (fuel' - 1))%Z).
  { intros b d Hb Hd. specialize (Hfuel b d Hb Hd). lia. }
  rewrite get_all_children_walk.
  destruct (all_ids_spec GOTerm.children h' _ _
              (ranked_children self h' (fuel' - 1) Hok Hs Hm HB) fuel' p)
    as (ids & Hids & Hnd & Hin).
  - done.
  - destruct (Hm p Hp) as [_ [d Hd]].
    apply lookup_metric_Some in Hd as (t & Ht & _). by exists t.
  - lia.
  - exists ids. split; [done|]. split; [done|]. intros x. rewrite Hin. split.
    + intros (b & Hw & Hx). exists b.
      destruct (descendant_ancestor self h' p b Hs Hw). done.
    + intros (a & Ha & Hanc & Hx). exists a. split; [|done].
      by eapply (ancestor_descendant self).
Qed.

(** X4. [has_child(term)] on a Term of an assembled graph answers whether
    [term] is among what [get_all_children()] returns. *)
Theorem has_child_in_get_all_children fuel self h h' u p fuel' term :
  fresh h = true ->
  populate_terms fuel self h = (h', Ok u) ->
  In p (values self) ->
  covers fuel' self h' ->
  exists ids,
    get_all_children fuel' h' p = Ok ids /\
    has_child fuel' h' p term = Ok (str_in term ids).
Proof.
  intros Hfr Hrun Hp Hfuel. unfold covers in Hfuel.
  destruct (populate_terms_assembled fuel self h h' u Hfr Hrun)
    as (Hok & Hm & Hs & Hl & Hr).
  assert (Hpos : 0 < fuel').
  { destruct (Hm p Hp) as [_ [d Hd]]. specialize (Hfuel p d Hp Hd).
    destruct (metric_ok_lookup _ _ _ _ Hok Hd) as (_ & _ & _ & Hd0 & _). lia. }
  assert (HB : forall a d, In a (values self) -> lookup_metric Depth h' a = Some d ->
                 (d <= Z.of_nat (fuel' - 1))%Z).
  { intros b d Hb Hd. specialize (Hfuel b d Hb Hd). lia. }
  assert (Hsome : is_Some (h' !! p)).
  { destruct (Hm p Hp) as [_ [d Hd]].
    apply lookup_metric_Some in Hd as (t & Ht & _). by exists t. }
  assert (Hrk : fuel' - 1 - Z.to_nat (default 0%Z (lookup_metric Depth h' p)) < fuel')
    by lia.
  rewrite get_all_children_walk, has_child_walk.
  destruct (all_ids_spec GOTerm.children h' _ _
              (ranked_children self h' (fuel' - 1) Hok Hs Hm HB) fuel' p Hp Hsome Hrk)
    as (ids & Hids & _ & Hin).
  destruct (has_term_spec GOTerm.children h' _ _
              (ranked_children self h' (fuel' - 1) Hok Hs Hm HB) term fuel' p Hp Hsome Hrk)
    as (r & Hr' & Hrs).
  exists ids. split; [done|]. rewrite Hr'. f_equal. apply bool_eq_iff.
  rewrite Hrs, str_in_In, Hin. done.
Qed.

(** X5. [get_all_parent_edges] on a Term of an assembled graph returns the
    tuples (identifier of a Term, identifier of one of its parents) of
    the parent links that leave the Term itself or one of its ancestors:
    all of them and nothing else. *)
Theorem get_all_parent_edges_links fuel self h h' u a :
  fresh h = true ->
  populate_terms fuel self h = (h', Ok u) ->
  In a (values self) ->
  exists d, lookup_metric Depth h' a = Some d /\
    forall fuel', Z.to_nat d < fuel' ->
      exists es,
        get_all_parent_edges fuel' h' a = Ok es /\ NoDup es /\
        forall e, In e es <->
          exists c tc p tp,
            (c = a \/ ancestor h' a c) /\
            h' !! c = Some tc /\ In p (GOTerm.parents tc) /\ h' !! p = Some tp /\
            e = (GOTerm.id tc, GOTerm.id tp).
Proof.
  intros Hfr Hrun Ha.
  destruct (populate_terms_assembled fuel self h h' u Hfr Hrun) as (Hok & Hm & _).
  destruct (Hm a Ha) as [_ [d Hd]]. exists d. split; [done|]. intros fuel' Hfuel.
  rewrite get_all_parent_edges_walk.
  destruct (all_edges_spec GOTerm.parents (fun x y => (x, y)) h' _ _
              (ranked_parents h' Hok) fuel' a) as (es & Hes & Hnd & Hin).
  - by exists d.
  - apply lookup_metric_Some in Hd as (t & Ht & _). by exists t.
  - rewrite Hd. simpl. done.
  - exists es. split; [done|]. split; [done|]. intros e. rewrite Hin.
    unfold walk_edge, step_edge, id_at. split.
    + intros [(tc & p & y & Htc & Hp & (tp & Htp & <-) & ->)
             | (c & Hw & tc & p & y & Htc & Hp & (tp & Htp & <-) & ->)].
      * exists a, tc, p, tp. auto.
      * exists c, tc, p, tp. auto 6.
    + intros (c & tc & p & tp & [-> | Hw] & Htc & Hp & Htp & ->).
      * left. exists tc, p, (GOTerm.id tp). eauto 6.
      * right. exists c. split; [done|]. exists tc, p, (GOTerm.id tp). eauto 6.
Qed.

(** X6. [get_all_child_edges] on a Term of an assembled graph returns the
    tuples (identifier of a child, identifier of its parent), the child
    first as in [get_all_parent_edges], of the child links that leave the
    Term itself or one of its descendants. *)
Theorem get_all_child_edges_links fuel self h h' u a fuel' :
  fresh h = true ->
  populate_terms fuel self h = (h', Ok u) ->
  In a (values self) ->
  covers fuel' self h' ->
  exists es,
    get_all_child_edges fuel' h' a = Ok es /\ NoDup es /\
    forall e, In e es <->
      exists p tp c tc,
        (p = a \/ descendant h' a p) /\
        h' !! p = Some tp /\ In c (GOTerm.children tp) /\ h' !! c = Some tc /\
        e = (GOTerm.id tc, GOTerm.id tp).
Proof.
  intros Hfr Hrun Ha Hfuel. unfold covers in Hfuel.
  destruct (populate_terms_assembled fuel self h h' u Hfr Hrun)
    as (Hok & Hm & Hs & Hl & Hr).
  assert (Hpos : 0 < fuel').
  { destruct (Hm a Ha) as [_ [d Hd]]. specialize (Hfuel a d Ha Hd).
    destruct (metric_ok_lookup _ _ _ _ Hok Hd) as (_ & _ & _ & Hd0 & _). lia. }
  assert (HB : forall a d, In a (values self) -> lookup_metric Depth h' a = Some d ->
                 (d <= Z.of_nat (fuel' - 1))%Z).
  { intros b d Hb Hd. specialize (Hfuel b d Hb Hd). lia. }
  rewrite get_all_child_edges_walk.
  destruct (all_edges_spec GOTerm.children (fun x y => (y, x)) h' _ _
              (ranked_children self h' (fuel' - 1) Hok Hs Hm HB) fuel' a)
    as (es & Hes & Hnd & Hin).
  - done.
  - destruct (Hm a Ha) as [_ [d Hd]].
    apply lookup_metric_Some in Hd as (t & Ht & _). by exists t.
  - lia.
  - exists es. split; [done|]. split; [done|]. intros e. rewrite Hin.
    unfold walk_edge, step_edge, id_at, descendant. split.
    + intros [(tp & c & y & Htp & Hc & (tc & Htc & <-) & ->)
             | (p & Hw & tp & c & y & Htp & Hc & (tc & Htc & <-) & ->)].
      * exists a, tp, c, tc. auto.
      * exists p, tp, c, tc. auto 6.
    + intros (p & tp & c & tc & [-> | Hw] & Htp & Hc & Htc & ->).
      * left. exists tp, c, (GOTerm.id tc). eauto 6.
      * right. exists p. split; [done|]. exists tp, c, (GOTerm.id tc). eauto 6.
Qed.

(** X7. After a successful assembly the parents of a Term of the graph are
    the Terms that the index holds under its raw parent identifiers, one
    for one and in their order. *)
Theorem populate_terms_parents_resolved fuel self h h' u a t :
  populate_terms fuel self h = (h', Ok u) ->
  In a (values self) ->
  h' !! a = Some t ->
  Forall2 (fun id p => dict_get id (GODag.terms self) = Some p)
    (GOTerm._parents t) (GOTerm.parents t).
Proof.
  intros Hrun Ha Ht.
  destruct (populate_terms_parents fuel self h h' u Hrun a Ha) as (t' & Ht' & HF).
  by assert (t' = t) as -> by congruence.
Qed.

(** X8. A raw parent identifier that the index does not hold makes the
    assembly raise, whatever the recursion allowance. *)
Theorem populate_terms_missing_parent fuel self h a t x :
  In a (values self) ->
  h !! a = Some t ->
  In x (GOTerm._parents t) ->
  dict_get x (GODag.terms self) = None ->
  exists e, (populate_terms fuel self h).2 = Raise e.
Proof.
  intros Ha Ht Hx Hnone.
  destruct (populate_terms fuel self h) as [h' [u|e]] eqn:Hrun; [|by exists e].
  exfalso.
  destruct (populate_terms_parents fuel self h h' u Hrun a Ha) as (t' & Ht' & HF).
  pose proof (pres_frame_populate_terms fuel self h) as Hf. rewrite Hrun in Hf.
  simpl in Hf. destruct (frame_lookup _ _ _ _ _ Hf Ht) as (t2 & Ht2 & Hsb).
  assert (t2 = t') as -> by congruence.
  rewrite (sb__parents _ _ _ Hsb) in HF.
  apply list_elem_of_In in Hx.
  destruct (proj1 (list_elem_of_lookup _ _) Hx) as (i & Hi).
  destruct (Forall2_lookup_l _ _ _ _ _ HF Hi) as (p & _ & Hp). congruence.
Qed.

(** X9. From a fresh heap, whatever the outcome of the assembly, whoever
    is among the children of a Term is a Term of the graph that has the
    Term among its parents. *)
Theorem populate_terms_child_has_parent fuel self h p tp c :
  fresh h = true ->
  (populate_terms fuel self h).1 !! p = Some tp ->
  In c (GOTerm.children tp) ->
  In c (values self) /\
  exists tc, (populate_terms fuel self h).1 !! c = Some tc /\ In p (GOTerm.parents tc).
Proof.
  intros Hfr Hp Hc. by eapply (populate_terms_children_sound fuel self h Hfr).
Qed.

(** X10. An assembled graph has no cycle: no Term of the graph is its own
    ancestor. *)
Theorem populate_terms_acyclic fuel self h h' u a :
  fresh h = true ->
  populate_terms fuel self h = (h', Ok u) ->
  In a (values self) ->
  ~ ancestor h' a a.
Proof.
  intros Hfr Hrun Ha Hanc.
  destruct (populate_terms_assembled fuel self h h' u Hfr Hrun) as (Hok & Hm & _).
  destruct (Hm a Ha) as [_ HD].
  destruct (ranked_walk _ _ _ _ a a (ranked_parents h' Hok) HD Hanc) as [_ Hlt]. lia.
Qed.

(** ** A cycle among the raw parents *)

Lemma resolved_parent self h a t x p :
  parents_resolved self h a -> h !! a = Some t ->
  In x (GOTerm._parents t) -> dict_get x (GODag.terms self) = Some p ->
  In p (GOTerm.parents t).
Proof.
  intros (t' & Ht' & HF) Ht Hx Hp. assert (t' = t) as -> by congruence.
  apply list_elem_of_In in Hx.
  destruct (proj1 (list_elem_of_lookup _ _) Hx) as (i & Hi).
  destruct (Forall2_lookup_l _ _ _ _ _ HF Hi) as (q & Hq & Hget).
  assert (q = p) as -> by congruence.
  apply list_elem_of_In. by eapply list_elem_of_lookup_2.
Qed.

Lemma raw_ancestor_ancestor fuel self h h' u a b :
  populate_terms fuel self h = (h', Ok u) ->
  In a (values self) -> raw_ancestor self h a b -> ancestor h' a b.
Proof.
  intros Hrun Ha Hraw.
  pose proof (pres_frame_populate_terms fuel self h) as Hf. rewrite Hrun in Hf.
  simpl in Hf.
  assert (Hstep : forall a t x p, In a (values self) -> h !! a = Some t ->
            In x (GOTerm._parents t) -> dict_get x (GODag.terms self) = Some p ->
            exists t', h' !! a = Some t' /\ In p (GOTerm.parents t')).
  { intros a0 t x p Ha0 Ht Hx Hp.
    destruct (frame_lookup _ _ _ _ _ Hf Ht) as (t' & Ht' & Hsb).
    exists t'. split; [done|].
    eapply resolved_parent; [by eapply populate_terms_parents | done | | done].
    by rewrite (sb__parents _ _ _ Hsb). }
  unfold ancestor.
  induction Hraw as [a t x p Ht Hx Hp | a t x p b Ht Hx Hp Hraw IH].
  - destruct (Hstep a t x p Ha Ht Hx Hp) as (t' & Ht' & Hin). by eapply walk_one.
  - destruct (Hstep a t x p Ha Ht Hx Hp) as (t' & Ht' & Hin).
    eapply walk_more; [done | done |]. apply IH. by eapply dict_get_values.
Qed.

(** ** Assembly succeeds on a graph without relationships *)

Lemma forM_total {A} (I : heap -> Prop) (l : list A) (body : A -> M unit) :
  (forall x h, In x l -> I h -> exists h', body x h = (h', Ok tt) /\ I h') ->
  forall h, I h -> exists h', forM l body h = (h', Ok tt) /\ I h'.
Proof.
  induction l as [|x l IH]; intros Hb h Hh; simpl.
  - by exists h.
  - destruct (Hb x h (or_introl eq_refl) Hh) as (h1 & Hx & Hh1).
    destruct (IH (fun y h0 Hy => Hb y h0 (or_intror Hy)) h1 Hh1) as (h2 & Hl & Hh2).
    exists h2. split; [|done]. by rewrite bind_run, Hx.
Qed.

Lemma list_comp_getitem_total self ids h :
  (forall x, In x ids -> is_Some (dict_get x (GODag.terms self))) ->
  exists ps, list_comp (getitem self) ids h = (h, Ok ps).
Proof.
  induction ids as [|x ids IH]; intros Hall; simpl.
  - by exists [].
  - destruct (Hall x (or_introl eq_refl)) as [p Hp].
    destruct (IH (fun y Hy => Hall y (or_intror Hy))) as (ps & Hps).
    exists (p :: ps). rewrite bind_run. unfold getitem at 1. rewrite Hp.
    rewrite ret_run, bind_run, Hps. done.
Qed.

Lemma no_relationship_hasattr t :
  no_relationship t = true ->
  GOTerm.hasattr t "_relationship" = false /\ GOTerm.hasattr t "relationship" = false.
Proof.
  unfold no_relationship. rewrite andb_true_iff, !negb_true_iff. done.
Qed.

Lemma no_relationship_dyn t t' :
  GOTerm.dyn t' = GOTerm.dyn t -> no_relationship t' = no_relationship t.
Proof. unfold no_relationship, GOTerm.hasattr. by intros ->. Qed.

Lemma resolve_references_total self rk a h :
  well_ranked self h rk -> In a (values self) ->
  exists h', resolve_references self a h = (h', Ok tt) /\ well_ranked self h' rk.
Proof.
  intros Hwr Ha. destruct (Hwr a Ha) as (t & Ht & Hno & Hps).
  destruct (list_comp_getitem_total self (GOTerm._parents t) h) as (ps & Hlc).
  { intros x Hx. destruct (Hps x Hx) as (p & Hp & _). by exists p. }
  exists (alter (GOTerm.set_parents ps) a h). split.
  - unfold resolve_references. rewrite bind_run, (deref_run a h t Ht).
    rewrite bind_run, Hlc. rewrite bind_run. unfold modify at 1.
    unfold resolve_relationship. rewrite bind_run.
    rewrite (deref_run a _ (GOTerm.set_parents ps t))
      by (by rewrite list_lookup_alter_eq, Ht).
    destruct (no_relationship_hasattr t Hno) as [Hraw _].
    change (GOTerm.hasattr (GOTerm.set_parents ps t) "_relationship")
      with (GOTerm.hasattr t "_relationship").
    by rewrite Hraw.
  - intros b Hb. destruct (Hwr b Hb) as (tb & Htb & Hnob & Hpsb).
    destruct (decide (b = a)) as [->|Hne].
    + rewrite list_lookup_alter_eq, Htb. simpl. eexists. split; [done|].
      split; [by rewrite <- Hnob|]. done.
    + rewrite list_lookup_alter_ne by done. eauto.
Qed.

Lemma frame_well_linked fp self rk h h' :
  w_parents fp = false -> w_dyn fp = false -> frame fp h h' ->
  well_linked self h rk -> well_linked self h' rk.
Proof.
  intros Hp Hd Hf Hwl a Ha. destruct (Hwl a Ha) as (t & Ht & Hno & Hps).
  destruct (frame_lookup _ _ _ _ _ Hf Ht) as (t' & Ht' & Hsb).
  exists t'. split; [done|]. split.
  - by rewrite (no_relationship_dyn t t' (sb_dyn _ _ _ Hsb Hd)).
  - by rewrite (sb_parents _ _ _ Hsb Hp).
Qed.

Lemma well_linked_ranked self rk h :
  well_linked self h rk ->
  ranked GOTerm.parents h (fun a => In a (values self)) rk.
Proof.
  intros Hwl a t p Ha Ht Hp. destruct (Hwl a Ha) as (t' & Ht' & _ & Hps).
  assert (t' = t) as -> by congruence.
  destruct (Hps p Hp) as [HV Hlt]. split; [done|]. split; [|done].
  destruct (Hwl p HV) as (tp & Htp & _). by exists tp.
Qed.

(** [_init_metric] returns when the parents lead down a rank below the
    recursion allowance. *)
Lemma _init_metric_total m D rk fuel : forall a h,
  ranked GOTerm.parents h D rk -> D a -> is_Some (h !! a) -> rk a < fuel ->
  exists h' v, _init_metric m fuel a h = (h', Ok v).
Proof.
  induction fuel as [|fuel IH]; intros a h Hr Da [t Ht] Hrk; [lia|].
  cbn [_init_metric]. rewrite bind_run, (deref_run a h t Ht).
  destruct (get_metric m t) as [v|]; [by eexists _, _|].
  destruct (GOTerm.parents t) as [|p0 ps0] eqn:Hps.
  { rewrite bind_run. unfold modify at 1. by eexists _, _. }
  assert (Hall : forall p, In p (p0 :: ps0) -> D p /\ is_Some (h !! p) /\ rk p < fuel).
  { intros p Hp. rewrite <- Hps in Hp. destruct (Hr a t p Da Ht Hp) as (Dp & Hsome & Hlt).
    split; [done|]. split; [done | lia]. }
  assert (Hlc : forall ps h1,
            (forall p, In p ps -> D p /\ is_Some (h !! p) /\ rk p < fuel) ->
            frame (fp_metric m) h h1 ->
            exists h2 vs, list_comp (_init_metric m fuel) ps h1 = (h2, Ok vs) /\
              length vs = length ps).
  { clear Hall. induction ps as [|p ps IHps]; intros h1 Hall Hf; simpl.
    - by exists h1, [].
    - destruct (Hall p (or_introl eq_refl)) as (Dp & [tp Htp] & Hlt).
      assert (Hr1 : ranked GOTerm.parents h1 D rk).
      { intros b tb' q Db Htb' Hq.
        destruct (frame_lookup_r _ _ _ _ _ Hf Htb') as (tb & Htb & Hsb).
        rewrite (sb_parents _ _ _ Hsb (fp_metric_parents m)) in Hq.
        destruct (Hr b tb q Db Htb Hq) as (Dq & [tq Htq] & Hlt').
        split; [done|]. split; [|done].
        destruct (frame_lookup _ _ _ _ _ Hf Htq) as (tq' & Htq' & _). by exists tq'. }
      assert (Hsome : is_Some (h1 !! p)).
      { destruct (frame_lookup _ _ _ _ _ Hf Htp) as (tp' & Htp' & _). by exists tp'. }
      destruct (IH p h1 Hr1 Dp Hsome Hlt) as (h2 & v & Hv).
      pose proof (pres__init_metric m fuel p h1) as Hf2. rewrite Hv in Hf2.
      simpl in Hf2.
      destruct (IHps h2 (fun q Hq => Hall q (or_intror Hq))) as (h3 & vs & Hvs & Hlen).
      { by etrans. }
      exists h3, (v :: vs). rewrite bind_run, Hv, bind_run, Hvs. simpl.
      split; [done | by rewrite Hlen]. }
  destruct (Hlc (p0 :: ps0) h Hall) as (h2 & vs & Hvs & Hlen); [reflexivity|].
  rewrite bind_run, Hvs. destruct vs as [|v vs]; [done|].
  rewrite bind_run. simpl. rewrite bind_run. unfold modify at 1. by eexists _, _.
Qed.

Lemma add_child_total rec parent h :
  is_Some (h !! parent) ->
  exists h', add_child rec parent h = (h', Ok tt) /\ frame fp_children h h'.
Proof.
  intros [p Hp]. unfold add_child. rewrite bind_run, (deref_run parent h p Hp).
  destruct (negb (term_in rec (GOTerm.children p))).
  - eexists. split; [done|]. by apply frame_alter.
  - exists h. split; [done | reflexivity].
Qed.

Lemma populate_children_total self rk rec h :
  well_linked self h rk -> In rec (values self) ->
  exists h', populate_children rec h = (h', Ok tt) /\ frame fp_children h h'.
Proof.
  intros Hwl Hrec. destruct (Hwl rec Hrec) as (t & Ht & _ & Hps).
  unfold populate_children. rewrite bind_run, (deref_run rec h t Ht).
  apply (forM_total (frame fp_children h)); [|reflexivity].
  intros p h0 Hp Hf. destruct (Hps p Hp) as [HV _].
  destruct (Hwl p HV) as (tp & Htp & _).
  destruct (frame_lookup _ _ _ _ _ Hf Htp) as (tp' & Htp' & _).
  destruct (add_child_total rec p h0) as (h1 & Hrun & Hf1); [by exists tp'|].
  exists h1. split; [done | by etrans].
Qed.

Lemma invert_relationships_skip self rec h t :
  h !! rec = Some t -> no_relationship t = true ->
  invert_relationships self rec h = (h, Ok tt).
Proof.
  intros Ht Hno. unfold invert_relationships. rewrite bind_run, (deref_run rec h t Ht).
  destruct (no_relationship_hasattr t Hno) as [_ Hrel]. by rewrite Hrel.
Qed.

Lemma measure_total self rk m fuel rec h :
  well_linked self h rk -> In rec (values self) -> rk rec < fuel ->
  exists h' v, _init_metric m fuel rec h = (h', Ok v) /\ well_linked self h' rk.
Proof.
  intros Hwl Hrec Hlt. destruct (Hwl rec Hrec) as (t & Ht & _).
  destruct (_init_metric_total m _ rk fuel rec h (well_linked_ranked self rk h Hwl) Hrec)
    as (h' & v & Hrun); [by exists t | done |].
  exists h', v. split; [done|].
  pose proof (pres__init_metric m fuel rec h) as Hf. rewrite Hrun in Hf. simpl in Hf.
  eapply frame_well_linked; [| | exact Hf | exact Hwl]; by destruct m.
Qed.

Lemma link_and_measure_total self rk fuel rec h :
  well_linked self h rk -> In rec (values self) -> rk rec < fuel ->
  exists h', link_and_measure fuel self rec h = (h', Ok tt) /\ well_linked self h' rk.
Proof.
  intros Hwl Hrec Hlt.
  destruct (populate_children_total self rk rec h Hwl Hrec) as (h1 & Hc & Hf1).
  assert (Hwl1 : well_linked self h1 rk)
    by (by eapply (frame_well_linked fp_children)).
  destruct (Hwl1 rec Hrec) as (t1 & Ht1 & Hno1 & _).
  unfold link_and_measure. rewrite bind_run, Hc.
  rewrite bind_run, (invert_relationships_skip self rec h1 t1 Ht1 Hno1).
  rewrite bind_run, (deref_run rec h1 t1 Ht1).
  assert (HL : exists h2,
            (match GOTerm.level t1 with
             | None => _init_level fuel rec;; mret tt
             | Some _ => mret tt
             end) h1 = (h2, Ok tt) /\ well_linked self h2 rk).
  { destruct (GOTerm.level t1).
    - by exists h1.
    - destruct (measure_total self rk Level fuel rec h1 Hwl1 Hrec Hlt)
        as (h2 & v & Hrun & Hwl2).
      exists h2. split; [|done]. by rewrite bind_run, _init_level_metric, Hrun. }
  destruct HL as (h2 & HrunL & Hwl2). rewrite bind_run, HrunL.
  destruct (Hwl2 rec Hrec) as (t2 & Ht2 & _).
  rewrite bind_run, (deref_run rec h2 t2 Ht2).
  destruct (GOTerm.depth t2).
  - by exists h2.
  - destruct (measure_total self rk Depth fuel rec h2 Hwl2 Hrec Hlt)
      as (h3 & v & Hrun & Hwl3).
    exists h3. split; [|done]. by rewrite bind_run, _init_depth_metric, Hrun.
Qed.

Lemma resolved_well_linked self rk h :
  well_ranked self h rk ->
  (forall a, In a (values self) -> parents_resolved self h a) ->
  well_linked self h rk.
Proof.
  intros Hwr Hres a Ha. destruct (Hwr a Ha) as (t & Ht & Hno & Hps).
  exists t. split; [done|]. split; [done|]. intros p Hp.
  destruct (Hres a Ha) as (t' & Ht' & HF). assert (t' = t) as -> by congruence.
  apply list_elem_of_In in Hp.
  destruct (proj1 (list_elem_of_lookup _ _) Hp) as (i & Hi).
  destruct (Forall2_lookup_r _ _ _ _ _ HF Hi) as (x & Hx & Hget).
  destruct (Hps x) as (p' & Hp' & Hlt).
  { apply list_elem_of_In. by eapply list_elem_of_lookup_2. }
  assert (p' = p) as -> by congruence.
  split; [by eapply dict_get_values | done].
Qed.

(** X11. A graph without relationships is assembled whenever every raw
    parent identifier is in the index and the parents so named lead down
    a rank that stays below the recursion allowance, that is, whenever
    the parent relation has no cycle and the allowance is large enough. *)
Theorem populate_terms_succeeds fuel self h rk :
  well_ranked self h rk ->
  (forall a, In a (values self) -> rk a < fuel) ->
  exists h', populate_terms fuel self h = (h', Ok tt).
Proof.
  intros Hwr Hfuel. unfold populate_terms.
  destruct (forM_total (fun h => well_ranked self h rk) (values self)
              (resolve_references self)) with (h := h) as (h0 & Hrun0 & Hwr0); [|done|].
  { intros a h1 Ha Hh1. by apply resolve_references_total. }
  assert (Hwl0 : well_linked self h0 rk).
  { apply resolved_well_linked; [done|]. by eapply resolve_loop_parents. }
  destruct (forM_total (fun h => well_linked self h rk) (values self)
              (link_and_measure fuel self)) with (h := h0) as (h1 & Hrun1 & _); [|done|].
  { intros a h1 Ha Hh1. apply link_and_measure_total; auto. }
  exists h1. by rewrite bind_run, Hrun0.
Qed.

(** X12. A graph in which a Term is its own ancestor by the raw parent
    identifiers is not assembled: from a fresh heap the assembly raises,
    whatever the recursion allowance. *)
Theorem populate_terms_cycle_raises fuel self h a :
  fresh h = true ->
  In a (values self) ->
  raw_ancestor self h a a ->
  exists e, (populate_terms fuel self h).2 = Raise e.
Proof.
  intros Hfr Ha Hraw.
  destruct (populate_terms fuel self h) as [h' [u|e]] eqn:Hrun; [|by exists e].
  exfalso.
  pose proof (raw_ancestor_ancestor fuel self h h' u a a Hrun Ha Hraw) as Hanc.
  destruct (populate_terms_assembled fuel self h h' u Hfr Hrun) as (Hok & Hm & _).
  destruct (Hm a Ha) as [_ HD].
  destruct (ranked_walk _ _ _ _ a a (ranked_parents h' Hok) HD Hanc) as [_ Hlt]. lia.
Qed.

(** ** The lengths of the paths to the top *)

Lemma fold_min_le_all xs x y : In y (x :: xs) -> (fold_left Z.min xs x <= y)%Z.
Proof.
  revert x. induction xs as [|z zs IH]; intros x; simpl.
  - intros [-> | []]. lia.
  - intros [-> | [-> | Hy]].
    + pose proof (fold_min_le zs (Z.min y z)). lia.
    + pose proof (fold_min_le zs (Z.min x y)). lia.
    + apply IH. by right.
Qed.

Lemma fold_pick_attained m xs x : In (fold_left (pick m) xs x) (x :: xs).
Proof.
  revert x. induction xs as [|z zs IH]; intros x; simpl; [by left|].
  destruct (IH (pick m x z)) as [Heq | Hin].
  - assert (pick m x z = x \/ pick m x z = z) as [H | H]
      by (destruct m; simpl; lia).
    + left. congruence.
    + right. left. congruence.
  - right. by right.
Qed.

(** The metric of a Term against those of its parents. *)
Lemma metric_ok_parent_bound m h a t v p :
  metric_ok m h -> h !! a = Some t -> get_metric m t = Some v ->
  In p (GOTerm.parents t) ->
  exists w, lookup_metric m h p = Some w /\
    match m with Level => (v <= w + 1)%Z | Depth => (w + 1 <= v)%Z end.
Proof.
  intros Hok Ha Hv Hp. destruct (Hok a t v Ha Hv) as (_ & Heqn).
  unfold metric_eqn in Heqn. destruct (GOTerm.parents t) as [|q qs] eqn:Hps; [done|].
  destruct Heqn as (x & xs & HF & ->).
  apply list_elem_of_In in Hp.
  destruct (proj1 (list_elem_of_lookup _ _) Hp) as (i & Hi).
  destruct (Forall2_lookup_l _ _ _ _ _ HF Hi) as (w & Hw & Hpw).
  exists w. split; [done|].
  assert (Hin : In w (x :: xs)).
  { apply list_elem_of_In. by eapply list_elem_of_lookup_2. }
  destruct m; simpl.
  - pose proof (fold_min_le_all xs x w Hin). lia.
  - pose proof (fold_max_ge_all xs x w Hin). lia.
Qed.

Lemma metric_ok_parent_attained m h a t v :
  metric_ok m h -> h !! a = Some t -> get_metric m t = Some v ->
  GOTerm.parents t <> [] ->
  exists p w, In p (GOTerm.parents t) /\ lookup_metric m h p = Some w /\ v = (w + 1)%Z.
Proof.
  intros Hok Ha Hv Hne. destruct (Hok a t v Ha Hv) as (_ & Heqn).
  unfold metric_eqn in Heqn. destruct (GOTerm.parents t) as [|q qs] eqn:Hps; [done|].
  destruct Heqn as (x & xs & HF & ->).
  pose proof (fold_pick_attained m xs x) as Hin.
  apply list_elem_of_In in Hin.
  destruct (proj1 (list_elem_of_lookup _ _) Hin) as (i & Hi).
  destruct (Forall2_lookup_r _ _ _ _ _ HF Hi) as (p & Hp & Hpw).
  exists p, (fold_left (pick m) xs x). split; [|done].
  apply list_elem_of_In. by eapply list_elem_of_lookup_2.
Qed.

Lemma root_path_length h path a l d :
  metric_ok Level h -> metric_ok Depth h ->
  root_path h path a ->
  lookup_metric Level h a = Some l -> lookup_metric Depth h a = Some d ->
  (l + 1 <= Z.of_nat (length path) <= d + 1)%Z.
Proof.
  intros HokL HokD Hpath. revert l d.
  induction Hpath as [a Hl0 | path p a t Hpath IH Ha Hp]; intros l d Hl Hd.
  - assert (l = 0%Z) as -> by congruence.
    destruct (metric_ok_lookup _ _ _ _ HokD Hd) as (_ & _ & _ & Hd0 & _).
    simpl. lia.
  - apply lookup_metric_Some in Hl as (t1 & Ht1 & Hl).
    apply lookup_metric_Some in Hd as (t2 & Ht2 & Hd).
    assert (t1 = t) as -> by congruence. assert (t2 = t) as -> by congruence.
    destruct (metric_ok_parent_bound Level h a t l p HokL Ha Hl Hp) as (lp & Hlp & Hle).
    destruct (metric_ok_parent_bound Depth h a t d p HokD Ha Hd Hp) as (dp & Hdp & Hge).
    specialize (IH lp dp Hlp Hdp). rewrite length_app. simpl. lia.
Qed.

(** A path of the length that a metric gives. *)
Lemma root_path_of_metric m h :
  metric_ok Level h -> metric_ok Depth h ->
  forall n a l d,
    lookup_metric Level h a = Some l -> lookup_metric Depth h a = Some d ->
    Z.to_nat d <= n ->
    exists path, root_path h path a /\
      Z.of_nat (length path) = (match m with Level => l | Depth => d end + 1)%Z.
Proof.
  intros HokL HokD. induction n as [|n IH]; intros a l d Hl Hd Hn.
  all: destruct (metric_ok_lookup _ _ _ _ HokL Hl) as (t & Ht & Hlt & Hl0 & HeL).
  all: destruct (metric_ok_lookup _ _ _ _ HokD Hd) as (t' & Ht' & Hdt & Hd0 & HeD).
  all: assert (t' = t) as -> by congruence.
  all: destruct (GOTerm.parents t) as [|q qs] eqn:Hps.
  all: try (unfold metric_eqn in HeL, HeD; rewrite Hps in HeL, HeD; subst;
            exists [a]; split; [by apply root_path_root | by destruct m]).
  - exfalso.
    destruct (metric_ok_parent_bound Depth h a t d q HokD Ht Hdt) as (w & Hw & Hge).
    { rewrite Hps. by left. }
    destruct (metric_ok_lookup _ _ _ _ HokD Hw) as (_ & _ & _ & Hw0 & _). lia.
  - assert (Hne : GOTerm.parents t <> []) by (by rewrite Hps).
    destruct (metric_ok_parent_attained
                m h a t (match m with Level => l | Depth => d end)) as (p & w & Hp & Hw & Hv);
      [by destruct m | done | by destruct m | done |].
    destruct (metric_ok_parent_bound Level h a t l p HokL Ht Hlt Hp) as (lp & Hlp & _).
    destruct (metric_ok_parent_bound Depth h a t d p HokD Ht Hdt Hp) as (dp & Hdp & Hge).
    destruct (metric_ok_lookup _ _ _ _ HokD Hdp) as (_ & _ & _ & Hdp0 & _).
    destruct (IH p lp dp Hlp Hdp) as (path & Hpath & Hlen); [lia|].
    exists (path ++ [a]). split; [by eapply root_path_step|].
    rewrite length_app. simpl.
    assert (w = match m with Level => lp | Depth => dp end) as Hw'
      by (destruct m; congruence).
    lia.
Qed.

(** X13. On an assembled graph the level of a Term is the length of the
    shortest, and its depth the length of the longest, of the paths that
    [paths_to_top] returns for it, counted in links: every path has
    between level + 1 and depth + 1 Terms, and both bounds are met. *)
Theorem paths_to_top_lengths fuel self h h' u term a :
  fresh h = true ->
  populate_terms fuel self h = (h', Ok u) ->
  dict_get term (GODag.terms self) = Some a ->
  exists l d, lookup_metric Level h' a = Some l /\ lookup_metric Depth h' a = Some d /\
    forall fuel', Z.to_nat d < fuel' ->
      exists paths,
        paths_to_top fuel' self h' term = Ok (Some paths) /\
        (forall path, In path paths ->
           (l + 1 <= Z.of_nat (length path) <= d + 1)%Z) /\
        (exists path, In path paths /\ Z.of_nat (length path) = (l + 1)%Z) /\
        (exists path, In path paths /\ Z.of_nat (length path) = (d + 1)%Z).
Proof.
  intros Hfr Hrun Hterm.
  destruct (populate_terms_metrics fuel self h h' u
              (fresh_unset Level h Hfr) (fresh_unset Depth h Hfr) Hrun)
    as (HokL & HokD & Hm).
  destruct (Hm a) as [[l Hl] [d Hd]]; [by eapply dict_get_values|].
  exists l, d. split; [done|]. split; [done|]. intros fuel' Hfuel.
  destruct (_paths_to_top_recursive_spec h' HokL HokD fuel' a l d Hl Hd Hfuel)
    as (paths & Hpaths & Hin & _).
  exists paths. unfold paths_to_top. rewrite Hterm, Hpaths. split; [done|].
  split; [|split].
  - intros path Hp. apply Hin in Hp. by eapply root_path_length.
  - destruct (root_path_of_metric Level h' HokL HokD (Z.to_nat d) a l d Hl Hd)
      as (path & Hpath & Hlen); [done|].
    exists path. split; [by apply Hin | done].
  - destruct (root_path_of_metric Depth h' HokL HokD (Z.to_nat d) a l d Hl Hd)
      as (path & Hpath & Hlen); [done|].
    exists path. split; [by apply Hin | done].
Qed.

(** ** The optional attributes *)

(** X14. Whatever is asked for, the optional attributes that the reader
    settles on hold no name twice, no required attribute and never
    [defn]: the definition is asked of the file under its field name
    [def]. *)
Theorem _init_optional_attrs_names arg :
  match _init_optional_attrs arg with
  | Ok oa =>
      NoDup oa /\
      forall x, In x oa -> str_in x attrs_req = false /\ x <> "defn"
  | Raise _ => arg = ArgOther
  end.
Proof.
  assert (Hfnc : forall f, str_in f attrs_req = false ->
            str_in (fnc f) attrs_req = false /\ fnc f <> "defn").
  { intros f Hf. unfold fnc. destruct (String.eqb_spec f "defn") as [->|Hne]; simpl.
    - done.
    - done. }
  destruct arg as [|s|l|]; cbn [_init_optional_attrs]; [| | |done].
  - split; [apply NoDup_nil_2 | by intros ? []].
  - destruct (str_in s attrs_req) eqn:Hs; cbn [negb].
    + split; [apply NoDup_nil_2 | by intros ? []].
    + split; [apply NoDup_singleton|]. intros x [<- | []]. by apply Hfnc.
  - split.
    + apply NoDup_set_update; [apply string_eqb_eq | apply NoDup_nil_2].
    + intros x Hx. apply (In_set_update _ string_eqb_eq) in Hx as [[] | Hx].
      apply in_map_iff in Hx as (f & <- & Hf).
      apply filter_In in Hf as [_ Hf]. apply negb_true_iff in Hf. by apply Hfnc.
Qed.

(** ** The version lines *)

Lemma substring_0_app s t : substring 0 (String.length s) (s ++ t) = s.
Proof.
  induction s as [|c s IH]; simpl; [by destruct t | by rewrite IH].
Qed.

Lemma length_append s t : String.length (s ++ t) = String.length s + String.length t.
Proof. induction s as [|c s IH]; simpl; [done | by rewrite IH]. Qed.

Lemma substring_skip pre n s :
  substring (String.length pre) n (pre ++ s) = substring 0 n s.
Proof. induction pre as [|c pre IH]; simpl; done. Qed.

Lemma slice_from_but_last_line pre v c :
  slice_from_but_last (String.length pre) (pre ++ v ++ String c EmptyString) = v.
Proof.
  unfold slice_from_but_last. rewrite substring_skip, !length_append. simpl.
  replace (String.length pre + (String.length v + 1) - String.length pre - 1)
    with (String.length v) by lia.
  apply substring_0_app.
Qed.

(** X15. A [format-version: V] line read while no data version is known
    gives the format version [V], and a [data-version: V] line the data
    version [V]: the text after the first sixteen, or fourteen,
    characters, less the last character of the line, whatever that
    character is. *)
Theorem _init_obo_version_value self v c :
  OBOReader.format_version
    (_init_obo_version self ("format-version: " ++ v ++ String c EmptyString)) = Some v /\
  OBOReader.data_version
    (_init_obo_version self ("data-version: " ++ v ++ String c EmptyString)) = Some v.
Proof.
  split.
  - pose proof (slice_from_but_last_line "format-version: " v c) as H.
    unfold _init_obo_version. cbn [String.length] in H. rewrite H.
    change (slice_to 14 ("format-version: " ++ v ++ String c EmptyString))
      with "format-version".
    change (slice_to 12 ("format-version: " ++ v ++ String c EmptyString))
      with "format-versi".
    done.
  - pose proof (slice_from_but_last_line "data-version: " v c) as H.
    unfold _init_obo_version. cbn [String.length] in H. rewrite H.
    pose proof (substring_0_app "data-version: " (v ++ String c EmptyString)) as H14.
    cbn [String.length] in H14. unfold slice_to. rewrite H14.
    change (substring 0 12 ("data-version: " ++ v ++ String c EmptyString))
      with "data-version".
    done.
Qed.

Lemma iter_line_reader st lnum line st' :
  iter_line st lnum line = Ok st' ->
  reader st' = versioned st line \/
  exists tds, reader st' = OBOReader.set_typedefs tds (versioned st line).
Proof.
  unfold iter_line.
  destruct (is_term_header line).
  { destruct (_init_goterm_ref _ _ _ _); simpl; [|done]. intros [= <-]. by left. }
  destruct (is_typedef_header line).
  { destruct (_init_typedef _ _ _ _); simpl; [|done]. intros [= <-]. by left. }
  destruct (is_Some_b (rec_curr st) || is_Some_b (typedef_curr st));
    [|intros [= <-]; by left].
  destruct (contains_char ":" (rstrip line)).
  { destruct (rec_curr st) as [r|].
    - destruct (_add_to_ref _ r _ lnum); simpl; [|done]. intros [= <-]. by left.
    - destruct (typedef_curr st); [|done].
      destruct (_add_to_typedef _ _ _ lnum); simpl; [|done]. intros [= <-]. by left. }
  destruct (String.eqb (rstrip line) EmptyString); [|done].
  destruct (rec_curr st) as [r|]; [intros [= <-]; by left|].
  destruct (typedef_curr st); intros [= <-]; [right; eauto | by left].
Qed.

(** X16. Once the data version is known no later line changes it or the
    format version: a [format-version] line that comes after the
    [data-version] line is not read. *)
Theorem versions_settled st lnum lines st' v :
  OBOReader.data_version (reader st) = Some v ->
  iter_lines st lnum lines = Ok st' ->
  OBOReader.data_version (reader st') = Some v /\
  OBOReader.format_version (reader st') = OBOReader.format_version (reader st).
Proof.
  revert st lnum. induction lines as [|l lines IH]; intros st lnum Hv; simpl.
  - by intros [= <-].
  - destruct (iter_line st lnum l) as [st1|e] eqn:Hstep; simpl; [|done].
    intros Hrest.
    assert (Hversioned : versioned st l = reader st) by (unfold versioned; by rewrite Hv).
    assert (H1 : OBOReader.data_version (reader st1) = Some v /\
                 OBOReader.format_version (reader st1)
                 = OBOReader.format_version (reader st)).
    { destruct (iter_line_reader st lnum l st1 Hstep) as [-> | (tds & ->)];
        rewrite Hversioned; done. }
    destruct H1 as [Hd1 Hf1].
    destruct (IH st1 (S lnum) Hd1 Hrest) as [Hd Hf]. split; [done | congruence].
Qed.

(** ** Lines outside any block *)

(** X17. Lines that come before the first header are passed over, whatever
    they hold: a file without a [[Term]] or [[Typedef]] header is read
    without an error, gives no record and no typedef. *)
Theorem no_header_no_record self lines :
  forallb (fun line => negb (is_header line)) lines = true ->
  exists rd,
    OBOReader_iter self lines = Ok (rd, []) /\
    OBOReader.typedefs rd = OBOReader.typedefs self.
Proof.
  intros Hall. unfold OBOReader_iter.
  assert (H : forall lines st lnum,
            forallb (fun line => negb (is_header line)) lines = true ->
            rec_curr st = None -> typedef_curr st = None -> yielded st = [] ->
            exists st', iter_lines st lnum lines = Ok st' /\
              rec_curr st' = None /\ yielded st' = [] /\
              OBOReader.typedefs (reader st') = OBOReader.typedefs (reader st)).
  { clear. induction lines as [|l lines IH]; intros st lnum Hall Hr Ht Hy; simpl.
    - by exists st.
    - simpl in Hall. apply andb_prop in Hall as [Hl Hall].
      unfold is_header in Hl. apply negb_true_iff, orb_false_elim in Hl as [Hl1 Hl2].
      unfold iter_line. rewrite Hl1, Hl2, Hr, Ht. simpl.
      destruct (IH (mk_iter_state (versioned st l) None None (yielded st)) (S lnum))
        as (st' & Hrun & Hr' & Hy' & Htd); try done.
      exists st'. split; [done|]. split; [done|]. split; [done|].
      rewrite Htd. simpl. apply versioned_typedefs. }
  destruct (H lines (iter_start self) 0 Hall) as (st' & Hrun & Hr' & Hy' & Htd);
    try done.
  rewrite Hrun. simpl. rewrite Hr', Hy'. by exists (reader st').
Qed.

(** ** One record for each [[Term]] header *)

Lemma iter_line_begun st lnum line st' :
  iter_line st lnum line = Ok st' ->
  records_begun st' = records_begun st + (if is_term_header line then 1 else 0).
Proof.
  unfold iter_line, records_begun.
  destruct (is_term_header line).
  { destruct (rec_curr st); simpl; [done|]. intros [= <-]. simpl. lia. }
  destruct (is_typedef_header line).
  { destruct (rec_curr st); simpl; [done|]. intros [= <-]. simpl. lia. }
  destruct (is_Some_b (rec_curr st) || is_Some_b (typedef_curr st));
    [|intros [= <-]; simpl; lia].
  destruct (contains_char ":" (rstrip line)).
  { destruct (rec_curr st) as [r|].
    - destruct (_add_to_ref _ r _ lnum); simpl; [|done]. intros [= <-]. simpl. lia.
    - destruct (typedef_curr st); [|done].
      destruct (_add_to_typedef _ _ _ lnum); simpl; [|done]. intros [= <-]. simpl. lia. }
  destruct (String.eqb (rstrip line) EmptyString); [|done].
  destruct (rec_curr st) as [r|].
  - intros [= <-]. simpl. rewrite length_app. simpl. lia.
  - destruct (typedef_curr st); intros [= <-]; simpl; lia.
Qed.

(** X18. A file that is read to its end gives one record for each line
    that is a [[Term]] header, no more and no fewer. *)
Theorem one_record_per_term_header self lines :
  match OBOReader_iter self lines with
  | Ok (_, recs) => length recs = length (List.filter is_term_header lines)
  | Raise _ => True
  end.
Proof.
  unfold OBOReader_iter.
  assert (H : forall lines st lnum st',
            iter_lines st lnum lines = Ok st' ->
            records_begun st' = records_begun st + length (List.filter is_term_header lines)).
  { clear. induction lines as [|l lines IH]; intros st lnum st'; simpl.
    - intros [= <-]. lia.
    - destruct (iter_line st lnum l) as [st1|e] eqn:Hstep; simpl; [|done].
      intros Hrest. rewrite (IH _ _ _ Hrest), (iter_line_begun _ _ _ _ Hstep).
      destruct (is_term_header l); simpl; lia. }
  destruct (iter_lines (iter_start self) 0 lines) as [st|e] eqn:Hrun; simpl; [|done].
  specialize (H _ _ _ _ Hrun). unfold records_begun in H. simpl in H.
  destruct (rec_curr st); simpl in *; [rewrite length_app; simpl|]; lia.
Qed.

(** ** The field pattern *)

Lemma dot_star_end_plain s :
  contains_char "010" s = false -> dot_star_end s = Some s.
Proof.
  induction s as [|c s IH]; cbn [contains_char dot_star_end]; [done|].
  intros H. apply orb_false_elim in H as [Hc Hs].
  rewrite Ascii.eqb_sym in Hc. rewrite Hc, (IH Hs). done.
Qed.

Lemma lstrip_spaces sp s :
  all_space sp = true -> lstrip (sp ++ s) = lstrip s.
Proof.
  induction sp as [|c sp IH]; simpl; [done|].
  intros H. apply andb_prop in H as [Hc Hs]. rewrite Hc. by apply IH.
Qed.

Lemma re_field_from_line name c0 sp c v : forall acc,
  no_space name = true ->
  (acc ++ name)%string <> EmptyString ->
  is_space c0 = true -> all_space sp = true ->
  is_space c = false -> contains_char "010" (String c v) = false ->
  re_field_from acc (name ++ String ":" (String c0 (sp ++ String c v)))
  = Some ((acc ++ name)%string, String c v).
Proof.
  induction name as [|n name IH]; intros acc Hname Hne Hc0 Hsp Hc Hnl.
  - cbn [append re_field_from]. change (is_space ":") with false. cbn iota.
    rewrite Hc0. rewrite Ascii.eqb_refl.
    assert (acc <> EmptyString) as Hacc.
    { intros ->. by apply Hne. }
    apply String.eqb_neq in Hacc. rewrite Hacc. cbn [negb andb].
    unfold re_value. cbn [lstrip]. rewrite Hc0, (lstrip_spaces sp (String c v) Hsp).
    cbn [lstrip]. rewrite Hc. rewrite (dot_star_end_plain _ Hnl). simpl.
    replace (acc ++ "")%string with acc; [done|].
    clear. induction acc as [|a acc IH]; simpl; [done | by rewrite <- IH].
  - simpl in Hname. apply andb_prop in Hname as [Hn Hname].
    apply negb_true_iff in Hn.
    cbn [append re_field_from]. rewrite Hn.
    rewrite (IH (acc ++ String n EmptyString)%string); try done.
    + by rewrite append_assoc.
    + rewrite append_assoc. simpl. by destruct acc.
Qed.

(** X19. The field pattern reads a line made of a name without white
    space, a colon, white space and a value that begins with a character
    other than white space back into that name and that value, also when
    the name itself holds colons. *)
Theorem re_field_name_value name c0 sp c v :
  name <> EmptyString ->
  no_space name = true ->
  is_space c0 = true -> all_space sp = true ->
  is_space c = false -> contains_char "010" (String c v) = false ->
  re_field (name ++ ":" ++ String c0 sp ++ String c v) = Some (name, String c v).
Proof.
  intros Hne Hname Hc0 Hsp Hc Hnl. unfold re_field.
  change (name ++ ":" ++ String c0 sp ++ String c v)%string
    with (name ++ String ":" (String c0 (sp ++ String c v)))%string.
  by rewrite (re_field_from_line name c0 sp c v EmptyString).
Qed.

(** ** What the reader stores in a record *)

Lemma versioned_optional_attrs st line :
  OBOReader.optional_attrs (versioned st line) = OBOReader.optional_attrs (reader st).
Proof.
  unfold versioned. destruct (OBOReader.data_version _); [done|].
  unfold _init_obo_version.
  destruct (String.eqb (slice_to 14 line) _), (String.eqb (slice_to 12 line) _); done.
Qed.

Section record_invariant.
Context (oa : list string) (P : dict attr_val -> Prop).
Hypothesis P_init : P [].
Hypothesis P_update : forall self r name value r',
  OBOReader.optional_attrs self = oa -> str_in name oa = true ->
  P (GOTerm.dyn r) -> update_rec self r name value = Ok r' -> P (GOTerm.dyn r').

Lemma _add_to_ref_inv self r line lnum r' :
  OBOReader.optional_attrs self = oa ->
  P (GOTerm.dyn r) -> _add_to_ref self r line lnum = Ok r' -> P (GOTerm.dyn r').
Proof.
  intros Hoa HP. unfold _add_to_ref. destruct (re_field line) as [[name value]|]; [|done].
  repeat match goal with
  | |- context [if ?b then _ else _] => destruct b eqn:?
  end; try (by intros [= <-]).
  all: try (destruct (_chk_none _ _ _); simpl; [by intros [= <-] | done]).
  - destruct (split_ws_0 value); [by intros [= <-] | done].
  - apply P_update; [done | congruence | done].
Qed.

Lemma iter_line_inv st lnum line st' :
  record_inv oa P st -> iter_line st lnum line = Ok st' -> record_inv oa P st'.
Proof.
  intros (Hoa & Hy & Hr). unfold iter_line.
  assert (Hoa' : OBOReader.optional_attrs (versioned st line) = oa)
    by (by rewrite versioned_optional_attrs).
  destruct (is_term_header line).
  { destruct (rec_curr st); simpl; [done|]. intros [= <-]. split; [done|].
    split; [done|]. simpl. by intros r [= <-]. }
  destruct (is_typedef_header line).
  { destruct (rec_curr st) as [r|] eqn:Hrec; simpl; [done|]. intros [= <-].
    split; [done|]. split; [done|]. simpl. done. }
  destruct (is_Some_b (rec_curr st) || is_Some_b (typedef_curr st));
    [|intros [= <-]; by split].
  destruct (contains_char ":" (rstrip line)).
  { destruct (rec_curr st) as [r|] eqn:Hrec.
    - destruct (_add_to_ref _ r _ lnum) as [r'|] eqn:Hadd; simpl; [|done].
      intros [= <-]. split; [done|]. split; [done|]. simpl. intros ? [= <-].
      eapply _add_to_ref_inv; [exact Hoa' | by apply Hr | exact Hadd].
    - destruct (typedef_curr st); [|done].
      destruct (_add_to_typedef _ _ _ lnum); simpl; [|done].
      intros [= <-]. by split. }
  destruct (String.eqb (rstrip line) EmptyString); [|done].
  destruct (rec_curr st) as [r|] eqn:Hrec.
  - intros [= <-]. split; [done|]. split; [|done]. simpl.
    apply Forall_app. split; [done|]. apply Forall_singleton. by apply Hr.
  - destruct (typedef_curr st); intros [= <-]; by split.
Qed.

Lemma OBOReader_iter_inv self lines rd recs :
  OBOReader.optional_attrs self = oa ->
  OBOReader_iter self lines = Ok (rd, recs) ->
  Forall (fun r => P (GOTerm.dyn r)) recs.
Proof.
  intros Hoa. unfold OBOReader_iter.
  assert (H : forall lines st lnum st',
            record_inv oa P st -> iter_lines st lnum lines = Ok st' -> record_inv oa P st').
  { clear -P_init P_update. induction lines as [|l lines IH]; intros st lnum st' Hinv; simpl.
    - by intros [= <-].
    - destruct (iter_line st lnum l) as [st1|e] eqn:Hstep; simpl; [|done].
      apply IH. by eapply iter_line_inv. }
  destruct (iter_lines (iter_start self) 0 lines) as [st|e] eqn:Hrun; simpl; [|done].
  destruct (H lines (iter_start self) 0 st) as (_ & Hy & Hr); [|done|].
  { split; [done|]. split; [by apply Forall_nil|]. done. }
  destruct (rec_curr st) as [r|]; intros [= <- <-]; [|done].
  apply Forall_app. split; [done|]. apply Forall_singleton. by apply Hr.
Qed.
End record_invariant.

Lemma dict_keys_set {V} k (v : V) d x :
  In x (dict_keys (dict_set k v d)) -> x = k \/ In x (dict_keys d).
Proof.
  unfold dict_keys. induction d as [|[k' v'] d IH]; simpl.
  - intros [<- | []]. by left.
  - destruct (String.eqb_spec k k') as [->|Hne]; simpl.
    + intros [<- | H]; [by left | right; by right].
    + intros [<- | H]; [right; by left|]. destruct (IH H); [by left | right; by right].
Qed.

Lemma _add_nested_keys rec name value rec' x :
  _add_nested rec name value = Ok rec' ->
  In x (dict_keys (GOTerm.dyn rec')) -> x = name \/ In x (dict_keys (GOTerm.dyn rec)).
Proof.
  unfold _add_nested.
  destruct (split_char " " _) as [|? [|? [|? ?]]]; try done.
  destruct (dict_get name (GOTerm.dyn rec)) as [[]|]; try done.
  intros [= <-]. simpl. apply dict_keys_set.
Qed.

Lemma scalar_not_nested name :
  str_in name attrs_scalar = true -> str_in name attrs_nested = true -> False.
Proof.
  intros Hsc Hn. apply str_in_In in Hsc, Hn. simpl in Hsc, Hn.
  destruct Hn as [<- | []]. intuition congruence.
Qed.

Lemma update_rec_keys self r name value r' x :
  update_rec self r name value = Ok r' ->
  In x (dict_keys (GOTerm.dyn r')) -> x = attr_name name \/ In x (dict_keys (GOTerm.dyn r)).
Proof.
  unfold update_rec, attr_name.
  set (name' := if String.eqb name "def" then "defn" else name).
  destruct (str_in name' attrs_scalar) eqn:Hsc, (str_in name' attrs_nested) eqn:Hn;
    destruct (GOTerm.hasattr r name') eqn:Hhas; cbn [negb]; try done.
  - destruct (scalar_not_nested name' Hsc Hn).
  - intros [= <-]. simpl. intros Hx. apply dict_keys_set in Hx as [-> | Hx]; auto.
  - intros Hadd Hx. right.
    destruct (_add_nested_keys _ _ _ _ x Hadd Hx) as [-> | H]; [|done].
    revert Hadd. unfold _add_nested.
    destruct (split_char " " _) as [|? [|? [|? ?]]]; try done.
    destruct (dict_get name' (GOTerm.dyn r)) as [[]|] eqn:Hget; try done.
    intros _. by eapply dict_get_keys.
  - intros Hadd Hx.
    destruct (_add_nested_keys _ _ _ _ x Hadd Hx) as [-> | H]; [by left|].
    simpl in H. apply dict_keys_set in H as [-> | H]; auto.
  - destruct (dict_get name' (GOTerm.dyn r)) as [[]|] eqn:Hget; try done.
    intros [= <-]. simpl. intros Hx. apply dict_keys_set in Hx as [-> | Hx]; auto.
  - intros [= <-]. simpl. intros Hx. apply dict_keys_set in Hx as [-> | Hx]; auto.
Qed.

(** X20. A record that the reader yields carries, besides the attributes
    of every Term, only attributes of optional fields that were asked
    for: with no optional attribute asked for, none is stored. *)
Theorem only_asked_attrs_stored self lines rd recs r k :
  OBOReader_iter self lines = Ok (rd, recs) ->
  In r recs ->
  In k (dict_keys (GOTerm.dyn r)) ->
  exists name, In name (OBOReader.optional_attrs self) /\ k = attr_name name.
Proof.
  intros Hiter Hr Hk.
  pose proof (OBOReader_iter_inv (OBOReader.optional_attrs self)
                (fun d => forall k, In k (dict_keys d) ->
                   exists name, In name (OBOReader.optional_attrs self) /\ k = attr_name name))
    as H.
  eapply Forall_forall in H; [by apply H | by intros ? [] | | done | exact Hiter
                              | by apply list_elem_of_In].
  clear. intros self' r0 name value r' _ Hname HP Hupd x Hx.
  destruct (update_rec_keys _ _ _ _ _ x Hupd Hx) as [-> | Hold]; [|by apply HP].
  exists name. split; [by apply str_in_In | done].
Qed.

Lemma update_rec_one_relationship self r name value r' :
  one_relationship (GOTerm.dyn r) -> update_rec self r name value = Ok r' ->
  one_relationship (GOTerm.dyn r').
Proof.
  intros [Hrel Hraw]. unfold update_rec.
  set (name' := if String.eqb name "def" then "defn" else name).
  assert (Hset : forall v, str_in name' attrs_nested = false ->
            (forall raw, v <> VDictList raw) ->
            one_relationship (dict_set name' v (GOTerm.dyn r))).
  { intros v Hne Hv. split.
    - rewrite dict_get_set_ne; [done|]. intros <-. done.
    - intros raw. destruct (String.eqb_spec "_relationship" name') as [<-|Hne'].
      + rewrite dict_get_set_eq. intros [= ->]. by destruct (Hv raw).
      + rewrite dict_get_set_ne by done. apply Hraw. }
  destruct (str_in name' attrs_scalar) eqn:Hsc, (str_in name' attrs_nested) eqn:Hn;
    destruct (GOTerm.hasattr r name') eqn:Hhas; cbn [negb]; try done.
  - destruct (scalar_not_nested name' Hsc Hn).
  - intros [= <-]. simpl. by apply Hset.
  - apply str_in_In in Hn. simpl in Hn. destruct Hn as [<- | []].
    unfold _add_nested. destruct (split_char " " _) as [|? [|? [|? ?]]]; try done.
    by rewrite Hrel.
  - apply str_in_In in Hn. simpl in Hn. destruct Hn as [<- | []].
    unfold _add_nested. destruct (split_char " " _) as [|typedef [|target [|? ?]]];
      try done.
    simpl. rewrite dict_get_set_eq. intros [= <-]. simpl. split.
    + rewrite !dict_get_set_ne by done. done.
    + rewrite dict_get_set_eq. intros raw [= <-]. simpl. eauto.
  - destruct (dict_get name' (GOTerm.dyn r)) as [[]|] eqn:Hget; try done.
    intros [= <-]. simpl. by apply Hset.
  - intros [= <-]. simpl. by apply Hset.
Qed.

(** X21. The reader keeps one relationship for a Term, the last: every
    [relationship] line of a block replaces what the lines before it
    stored, so that a record is yielded with at most one typedef, with
    one target, under [_relationship]. *)
Theorem one_relationship_kept self lines rd recs r raw :
  OBOReader_iter self lines = Ok (rd, recs) ->
  In r recs ->
  dict_get "_relationship" (GOTerm.dyn r) = Some (VDictList raw) ->
  exists typedef target, raw = [(typedef, [target])].
Proof.
  intros Hiter Hr Hget.
  pose proof (OBOReader_iter_inv (OBOReader.optional_attrs self) one_relationship) as H.
  eapply Forall_forall in H; [by apply H | by split | | done | exact Hiter
                              | by apply list_elem_of_In].
  clear. intros self' r0 name value r' _ _. apply update_rec_one_relationship.
Qed.

(** ** A field without a value *)







(** ** Loading: what the index holds *)

Lemma save_records_sound lo recs :
  forall k a, dict_get k (save_records lo recs).2 = Some a ->
    exists r, (save_records lo recs).1 !! a = Some r /\
      In k (ids_of r) /\ kept lo r = true.
Proof.
  unfold save_records.
  assert (H : forall recs st,
            (forall k a, dict_get k st.2 = Some a ->
               exists r, st.1 !! a = Some r /\ In k (ids_of r) /\ kept lo r = true) ->
            forall k a, dict_get k (fold_left (save_record lo) recs st).2 = Some a ->
              exists r, (fold_left (save_record lo) recs st).1 !! a = Some r /\
                In k (ids_of r) /\ kept lo r = true).
  { clear. induction recs as [|rec recs IH]; intros [h d] Hst; simpl; [done|].
    apply IH. intros k a. rewrite save_record_get, save_record_heap.
    destruct (kept lo rec) eqn:Hkept; cbn [andb].
    - destruct (str_in k (ids_of rec)) eqn:Hk.
      + intros [= <-]. exists rec. split; [|split; [by apply str_in_In | done]].
        rewrite lookup_app_r by done. by rewrite Nat.sub_diag.
      + intros Hget. destruct (Hst k a Hget) as (r & Hr & Hin & Hkr).
        exists r. split; [|done]. simpl in Hr. by apply lookup_app_l_Some.
    - apply Hst. }
  apply H. simpl. done.
Qed.

(** X23. Whatever the index of a loaded graph holds under an identifier is
    a Term that carries this identifier, as its primary or as an
    alternate one, and that was to be kept: with [load_obsolete] off, no
    identifier leads to an obsolete Term. *)
Theorem load_obo_file_index_sound fuel obo_file lines arg lo self h' k a :
  load_obo_file fuel obo_file lines arg lo = Ok (self, h') ->
  dict_get k (GODag.terms self) = Some a ->
  exists t, h' !! a = Some t /\ In k (ids_of t) /\ kept lo t = true.
Proof.
  intros Hload Hk.
  destruct (load_obo_file_Ok_inv _ _ _ _ _ _ _ Hload)
    as (rd & rd' & recs & u & _ & _ & -> & Hpop).
  simpl in Hk. destruct (save_records_sound lo recs k a Hk) as (r & Hr & Hin & Hkept).
  pose proof (pres_frame_populate_terms fuel
                (GODag.mk (save_records lo recs).2 (OBOReader.typedefs rd')
                   (OBOReader.optional_attrs rd'))
                (save_records lo recs).1) as Hf.
  rewrite Hpop in Hf. simpl in Hf.
  destruct (frame_lookup _ _ _ _ _ Hf Hr) as (t & Ht & Hsb).
  exists t. split; [done|]. unfold ids_of, kept in *.
  by rewrite (sb_id _ _ _ Hsb), (sb_alt_ids _ _ _ Hsb), (sb_is_obsolete _ _ _ Hsb).
Qed.

(** ** [update_association] *)

Section association.
Context (fuel' : nat) (self : GODag.t) (h : heap).
Hypothesis Hok : metric_ok Depth h.
Hypothesis Hm : forall a, In a (values self) -> measured h a.
Hypothesis Hcov : covers fuel' self h.

Lemma get_all_parents_indexed goid a :
  dict_get goid (GODag.terms self) = Some a ->
  exists ids, get_all_parents fuel' h a = Ok ids /\
    forall x, In x ids <-> exists b, ancestor h a b /\ id_at h b x.
Proof.
  intros Hget. assert (Ha : In a (values self)) by (by eapply dict_get_values).
  destruct (Hm a Ha) as [_ [d Hd]]. pose proof (Hcov a d Ha Hd) as Hlt.
  rewrite get_all_parents_walk.
  destruct (all_ids_spec GOTerm.parents h _ _ (ranked_parents h Hok) fuel' a)
    as (ids & Hids & _ & Hin).
  - by exists d.
  - apply lookup_metric_Some in Hd as (t & Ht & _). by exists t.
  - rewrite Hd. simpl. destruct (metric_ok_lookup _ _ _ _ Hok Hd) as (_ & _ & _ & Hd0 & _).
    lia.
  - by exists ids.
Qed.

Lemma association_goids_spec goids : forall parents bad,
  exists parents' bad',
    fold_left (association_goid fuel' self h) goids (parents, bad) = (parents', bad') /\
    (forall x, In x parents' <->
       In x parents \/ exists goid, In goid goids /\ ancestor_id self h goid x) /\
    (forall x, In x bad' <->
       In x bad \/ exists goid, In goid goids /\
         dict_get goid (GODag.terms self) = None /\ x = strip goid).
Proof.
  induction goids as [|goid goids IH]; intros parents bad; simpl.
  - exists parents, bad. split; [done|].
    split; intros x; (split; [by left | intros [H | (? & [] & _)]; done]).
  - destruct (dict_get goid (GODag.terms self)) as [a|] eqn:Hget.
    + destruct (get_all_parents_indexed goid a Hget) as (ids & Hids & Hin).
      rewrite Hids.
      destruct (IH (set_update String.eqb parents ids) bad)
        as (parents' & bad' & Hrun & Hp & Hb).
      exists parents', bad'. split; [done|]. split; intros x.
      * rewrite Hp, (In_set_update _ string_eqb_eq), Hin. split.
        -- intros [[H | (b & Hanc & Hid)] | (g & Hg & H)].
           ++ by left.
           ++ right. exists goid. split; [by left|]. by exists a, b.
           ++ right. exists g. split; [by right | done].
        -- intros [H | (g & [<- | Hg] & H)].
           ++ left. by left.
           ++ destruct H as (a' & b & Hget' & Hanc & Hid).
              assert (a' = a) as -> by congruence. left. right. eauto.
           ++ right. eauto.
      * rewrite Hb. split.
        -- intros [H | (g & Hg & H)]; [by left|]. right. exists g. split; [by right|done].
        -- intros [H | (g & [<- | Hg] & Hnone & Hx)]; [by left | congruence |].
           right. eauto.
    + destruct (IH parents (set_add String.eqb (strip goid) bad))
        as (parents' & bad' & Hrun & Hp & Hb).
      exists parents', bad'. split; [done|]. split; intros x.
      * rewrite Hp. split.
        -- intros [H | (g & Hg & H)]; [by left|]. right. exists g. split; [by right|done].
        -- intros [H | (g & [<- | Hg] & H)]; [by left | |right; eauto].
           destruct H as (a' & b & Hget' & _). congruence.
      * rewrite Hb, (In_set_add _ string_eqb_eq). split.
        -- intros [[H | ->] | (g & Hg & H)].
           ++ by left.
           ++ right. exists goid. split; [by left | done].
           ++ right. exists g. split; [by right | done].
        -- intros [H | (g & [<- | Hg] & Hnone & Hx)].
           ++ left. by left.
           ++ left. by right.
           ++ right. eauto.
Qed.

Lemma association_gene_spec bad goids :
  exists goids' bad',
    association_gene fuel' self h bad goids = (goids', bad') /\
    (forall x, In x goids' <->
       In x goids \/ exists goid, In goid goids /\ ancestor_id self h goid x) /\
    (forall x, In x bad' <->
       In x bad \/ exists goid, In goid goids /\
         dict_get goid (GODag.terms self) = None /\ x = strip goid).
Proof.
  unfold association_gene.
  destruct (association_goids_spec goids [] bad) as (parents & bad' & Hrun & Hp & Hb).
  rewrite Hrun. exists (set_update String.eqb goids parents), bad'. split; [done|].
  split; [|done]. intros x. rewrite (In_set_update _ string_eqb_eq), Hp.
  split; [intros [H | [[] | H]] | intros [H | H]]; auto.
Qed.

Lemma update_association_from_spec association : forall bad,
  exists association' bad',
    update_association_from fuel' self h bad association = (association', bad') /\
    Forall2 (fun old new =>
        new.1 = old.1 /\
        forall x, In x new.2 <->
          In x old.2 \/ exists goid, In goid old.2 /\ ancestor_id self h goid x)
      association association' /\
    (forall x, In x bad' <->
       In x bad \/ exists gene goids goid, In (gene, goids) association /\
         In goid goids /\ dict_get goid (GODag.terms self) = None /\ x = strip goid).
Proof.
  induction association as [|[gene goids] rest IH]; intros bad; simpl.
  - exists [], bad. split; [done|]. split; [by apply Forall2_nil|].
    intros x. split; [by left | intros [H | (? & ? & ? & [] & _)]; done].
  - destruct (association_gene_spec bad goids) as (goids' & bad1 & Hgene & Hg & Hb1).
    rewrite Hgene. destruct (IH bad1) as (rest' & bad' & Hrest & HF & Hb).
    rewrite Hrest. exists ((gene, goids') :: rest'), bad'. split; [done|]. split.
    + constructor; [|done]. split; [done | exact Hg].
    + intros x. rewrite Hb, Hb1. split.
      * intros [[H | (g & Hin & H)] | (gn & gs & g & Hin & H)].
        -- by left.
        -- right. exists gene, goids, g. split; [by left | done].
        -- right. exists gn, gs, g. split; [by right | done].
      * intros [H0 | (gn & gs & g & [[= <- <-] | Hin] & H0)].
        -- left. by left.
        -- left. right. eauto.
        -- right. eauto 6.
Qed.

(** A set that holds the ancestors of its members is left as it is. *)
Lemma set_update_absorbed (s xs : list string) :
  (forall x, In x xs -> In x s) -> set_update String.eqb s xs = s.
Proof.
  unfold set_update. induction xs as [|x xs IH]; intros Hsub; simpl; [done|].
  unfold set_add at 2.
  assert (existsb (String.eqb x) s = true) as ->.
  { apply (existsb_eqb_In _ string_eqb_eq). apply Hsub. by left. }
  apply IH. intros y Hy. apply Hsub. by right.
Qed.

Lemma association_gene_closed bad goids :
  (forall goid x, In goid goids -> ancestor_id self h goid x -> In x goids) ->
  (association_gene fuel' self h bad goids).1 = goids.
Proof.
  intros Hclosed. unfold association_gene.
  destruct (association_goids_spec goids [] bad) as (parents & bad' & Hrun & Hp & _).
  rewrite Hrun. simpl. apply set_update_absorbed. intros x Hx.
  apply Hp in Hx as [[] | (goid & Hg & Hanc)]. by eapply Hclosed.
Qed.

Lemma update_association_from_closed association : forall bad,
  Forall (fun entry => forall goid x, In goid entry.2 ->
            ancestor_id self h goid x -> In x entry.2) association ->
  (update_association_from fuel' self h bad association).1 = association.
Proof.
  induction association as [|[gene goids] rest IH]; intros bad Hall; simpl; [done|].
  apply Forall_cons in Hall as [Hg Hrest].
  pose proof (association_gene_closed bad goids Hg) as Hgene.
  destruct (association_gene fuel' self h bad goids) as [goids' bad1]. simpl in Hgene.
  subst goids'. specialize (IH bad1 Hrest).
  destruct (update_association_from fuel' self h bad1 rest) as [rest' bad']. simpl in *.
  by rewrite IH.
Qed.
End association.

(** The ancestors of an ancestor, in a graph whose Terms are indexed
    under their own identifiers. *)
Lemma ancestor_id_trans self h goid x y :
  (forall a, In a (values self) -> parents_resolved self h a) ->
  indexed_by_id self h ->
  ancestor_id self h goid x -> ancestor_id self h x y -> ancestor_id self h goid y.
Proof.
  intros Hres Hidx (a & b & Hget & Hanc & (tb & Htb & Hid)) (b' & c & Hget' & Hanc' & Hc).
  assert (Hwalk : forall a b, In a (values self) -> ancestor h a b -> In b (values self)).
  { clear -Hres. intros a b Ha Hw. unfold ancestor in Hw.
    induction Hw as [a t p Ht Hp | a t p b Ht Hp Hw IH].
    - destruct (Hres a Ha) as (t' & Ht' & HF). assert (t' = t) as -> by congruence.
      apply list_elem_of_In in Hp.
      destruct (proj1 (list_elem_of_lookup _ _) Hp) as (i & Hi).
      destruct (Forall2_lookup_r _ _ _ _ _ HF Hi) as (id & _ & Hget).
      by eapply dict_get_values.
    - apply IH. destruct (Hres a Ha) as (t' & Ht' & HF).
      assert (t' = t) as -> by congruence.
      apply list_elem_of_In in Hp.
      destruct (proj1 (list_elem_of_lookup _ _) Hp) as (i & Hi).
      destruct (Forall2_lookup_r _ _ _ _ _ HF Hi) as (id & _ & Hget).
      by eapply dict_get_values. }
  assert (Hb : In b (values self)).
  { eapply Hwalk; [|exact Hanc]. by eapply dict_get_values. }
  pose proof (Hidx b tb Hb Htb) as Hgetb. rewrite Hid in Hgetb.
  assert (b' = b) as -> by congruence.
  exists a, c. split; [done|]. split; [|done].
  by eapply walk_trans.
Qed.

(** ** Relationships: resolution and unknown typedefs *)

Lemma resolve_loop_rel self x A y_id y h h' u :
  forM (values self) (resolve_references self) h = (h', Ok u) ->
  In x (values self) ->
  raw_rel h x A y_id ->
  dict_get y_id (GODag.terms self) = Some y ->
  has_rel h' x A y.
Proof.
  intros Hrun Hx Hraw Hyid.
  destruct (forM_Ok_ind
              (fun h => raw_rel h x A y_id \/ resolved_rel h x A y)
              (fun b h => b = x -> resolved_rel h x A y)
              (values self) (resolve_references self))
    with (h := h) (h' := h') (u := u) as (_ & Hall); try done.
  - intros b h1 h2 u' _ HI Hr.
    destruct (resolve_references_rel self b x A y_id y h1 h2 u' Hyid HI Hr)
      as (HI' & Hb & Hres).
    split; [done|]. split; [done|]. intros c Hc Hcx. by apply Hres, Hc.
  - by left.
  - by destruct (Hall x Hx eq_refl) as (Hrel & _).
Qed.

(** X24. A relationship that a Term of the graph was parsed with is
    resolved by the assembly: the Term has the relationship, under the
    same typedef, to the Term that the index holds under the target
    identifier. *)
Theorem populate_terms_resolves_relationship fuel self h h' u x y y_id A :
  populate_terms fuel self h = (h', Ok u) ->
  In x (values self) ->
  raw_rel_b h x A y_id = true ->
  dict_get y_id (GODag.terms self) = Some y ->
  has_rel h' x A y.
Proof.
  intros Hrun Hx Hraw Hyid. apply raw_rel_b_spec in Hraw.
  unfold populate_terms in Hrun. inv_run Hrun.
  pose proof (resolve_loop_rel self x A y_id y h h0 x0 Hrun0 Hx Hraw Hyid) as Hrel.
  pose proof (pres_forM rel_grow (values self) (link_and_measure fuel self)
                (fun a _ => pres_rel_link fuel self a) h0) as Hg.
  rewrite Hrun in Hg. simpl in Hg. by apply Hg.
Qed.

Lemma invert_typedef_declared self x n A h h' u :
  invert_typedef self x n A h = (h', Ok u) -> is_Some (dict_get A (GODag.typedefs self)).
Proof.
  unfold invert_typedef. intros Hrun. inv_run Hrun.
  unfold typedefs_getitem in Hrun2.
  destruct (dict_get A (GODag.typedefs self)) as [td|]; [by exists td | done].
Qed.

Lemma invert_relationships_declared self x A y h h' u :
  has_rel h x A y ->
  invert_relationships self x h = (h', Ok u) ->
  is_Some (dict_get A (GODag.typedefs self)).
Proof.
  intros (t & d & s & Ht & Hd & Hs & Hy) Hrun.
  unfold invert_relationships in Hrun. inv_run Hrun.
  apply deref_Ok_inv in Hrun0 as (-> & Ht').
  assert (x0 = t) as -> by congruence.
  rewrite (relationship_of_hasattr t d Hd) in Hrun. inv_run Hrun.
  apply get_relationship_Ok_inv in Hrun0 as (-> & t1 & Ht1 & Hd1).
  assert (t1 = t) as -> by congruence. assert (x0 = d) as -> by congruence.
  destruct (forM_Ok_post (fun _ => True)
              (fun key (_ : heap) => is_Some (dict_get key (GODag.typedefs self)))
              (dict_keys d) (invert_typedef self x (length d)))
    with (h := h) (h' := h1) (u := x1) as (_ & Hall); try done.
  - intros key h2 h3 u' _ _. apply invert_typedef_declared.
  - intros key q _ h2 Hq. done.
  - apply Hall. by eapply dict_get_keys.
Qed.

(** X25. A relationship under a typedef that the file does not declare
    makes the assembly raise. *)
Theorem populate_terms_undeclared_typedef fuel self h x y y_id A :
  In x (values self) ->
  raw_rel_b h x A y_id = true ->
  dict_get y_id (GODag.terms self) = Some y ->
  dict_get A (GODag.typedefs self) = None ->
  exists e, (populate_terms fuel self h).2 = Raise e.
Proof.
  intros Hx Hraw Hyid Hnone. apply raw_rel_b_spec in Hraw.
  destruct (populate_terms fuel self h) as [h' [u|e]] eqn:Hrun; [|by exists e].
  exfalso. unfold populate_terms in Hrun. inv_run Hrun.
  pose proof (resolve_loop_rel self x A y_id y h h0 x0 Hrun0 Hx Hraw Hyid) as Hrel.
  destruct (forM_Ok_post (fun h => has_rel h x A y)
              (fun a (_ : heap) => a = x -> is_Some (dict_get A (GODag.typedefs self)))
              (values self) (link_and_measure fuel self))
    with (h := h0) (h' := h') (u := u) as (_ & Hall); try done.
  - intros a _ h1 H1. by eapply pres_rel_link.
  - intros a h1 h2 u' _ H1 Hr ->.
    destruct (link_and_measure_Ok_inv _ _ _ _ _ _ Hr)
      as (h3 & h4 & u3 & u4 & Hc & Hi & _).
    assert (H3 : has_rel h3 x A y).
    { pose proof (pres_populate_children x h1) as Hf. rewrite Hc in Hf.
      by eapply (frame_rel_grow fp_children h1 h3). }
    by eapply invert_relationships_declared.
  - intros a q _ h1 Hq. done.
  - destruct (Hall x Hx eq_refl) as [td Htd]. congruence.
Qed.

(** ** [update_association] on an assembled graph *)

(** X26. [update_association] adds to the set of every gene the
    identifiers of all ancestors of the Terms that the index holds under
    the identifiers of the set, and nothing else; what was in the set
    stays. *)
Theorem update_association_adds_ancestors fuel self h h' u fuel' association :
  fresh h = true ->
  populate_terms fuel self h = (h', Ok u) ->
  covers fuel' self h' ->
  Forall2 (fun old new =>
      new.1 = old.1 /\
      forall x, In x new.2 <->
        In x old.2 \/ exists goid, In goid old.2 /\ ancestor_id self h' goid x)
    association (update_association fuel' self h' association).1.
Proof.
  intros Hfr Hrun Hcov.
  destruct (populate_terms_assembled fuel self h h' u Hfr Hrun) as (Hok & Hm & _).
  unfold update_association.
  destruct (update_association_from_spec fuel' self h' Hok Hm Hcov association [])
    as (assoc' & bad' & Heq & HF & _).
  by rewrite Heq.
Qed.

(** X27. The identifiers that [update_association] reports as not found
    are those of the association that the index does not hold, each
    stripped of the white space around it. *)
Theorem update_association_reports_missing fuel self h h' u fuel' association x :
  fresh h = true ->
  populate_terms fuel self h = (h', Ok u) ->
  covers fuel' self h' ->
  In x (update_association fuel' self h' association).2 <->
  exists gene goids goid,
    In (gene, goids) association /\ In goid goids /\
    dict_get goid (GODag.terms self) = None /\ x = strip goid.
Proof.
  intros Hfr Hrun Hcov.
  destruct (populate_terms_assembled fuel self h h' u Hfr Hrun) as (Hok & Hm & _).
  unfold update_association.
  destruct (update_association_from_spec fuel' self h' Hok Hm Hcov association [])
    as (assoc' & bad' & Heq & _ & Hb).
  rewrite Heq. simpl. rewrite Hb. split; [intros [[] | H] | intros H]; auto.
Qed.

(** X28. On a graph whose Terms are indexed under their own identifiers,
    [update_association] applied to what it has returned changes
    nothing more. *)
Theorem update_association_idempotent fuel self h h' u fuel' association :
  fresh h = true ->
  populate_terms fuel self h = (h', Ok u) ->
  covers fuel' self h' ->
  indexed_by_id self h' ->
  (update_association fuel' self h'
     (update_association fuel' self h' association).1).1
  = (update_association fuel' self h' association).1.
Proof.
  intros Hfr Hrun Hcov Hidx.
  destruct (populate_terms_assembled fuel self h h' u Hfr Hrun)
    as (Hok & Hm & _ & _ & Hres).
  unfold update_association.
  destruct (update_association_from_spec fuel' self h' Hok Hm Hcov association [])
    as (assoc' & bad' & Heq & HF & _).
  rewrite Heq. simpl.
  apply (update_association_from_closed fuel' self h' Hok Hm Hcov).
  clear Heq. induction HF as [|old new olds news [_ Hnew] HF IH]; [by apply Forall_nil|].
  apply Forall_cons. split; [|done].
  intros goid x Hgoid Hanc. apply Hnew. apply Hnew in Hgoid as [Hold | (g & Hg & Hgg)].
  - right. eauto.
  - right. exists g. split; [done|]. by eapply ancestor_id_trans.
Qed.

(** * Examples of the further properties *)

Lemma diamond_covers : covers 3 diamond_graph diamond_heap.
Proof.
  intros b d Hb. vm_compute in Hb.
  repeat (destruct Hb as [<- | Hb];
          [intros Hd; vm_compute in Hd; injection Hd as <-; lia|]).
  destruct Hb.
Qed.

Lemma diamond_indexed_by_id : indexed_by_id diamond_graph diamond_heap.
Proof.
  intros a t Ha. vm_compute in Ha.
  repeat (destruct Ha as [<- | Ha];
          [intros Ht; vm_compute in Ht; injection Ht as <-; reflexivity|]).
  destruct Ha.
Qed.

Example diamond_all_parents :
  get_all_parents 3 diamond_heap 3 = Ok ["GO:0000002"; "GO:0000001"; "GO:0000003"].
Proof. vm_compute. reflexivity. Qed.

Example diamond_all_children :
  get_all_children 3 diamond_heap 0
  = Ok ["GO:0000002"; "GO:0000004"; "GO:0000003"; "GO:0000006"].
Proof. vm_compute. reflexivity. Qed.

Example diamond_parent_edges :
  get_all_parent_edges 3 diamond_heap 3
  = Ok [("GO:0000004", "GO:0000002"); ("GO:0000002", "GO:0000001");
        ("GO:0000004", "GO:0000003"); ("GO:0000003", "GO:0000001")].
Proof. vm_compute. reflexivity. Qed.

Example diamond_child_edges :
  get_all_child_edges 3 diamond_heap 1 = Ok [("GO:0000004", "GO:0000002")].
Proof. vm_compute. reflexivity. Qed.

Example diamond_update_association :
  update_association 3 diamond_graph diamond_heap diamond_association
  = ([("gene", ["GO:0000004"; " GO:0000099 "; "GO:0000002"; "GO:0000001"; "GO:0000003"])],
     ["GO:0000099"]).
Proof. vm_compute. reflexivity. Qed.

Example two_relationships_kept :
  dict_get "_relationship" (GOTerm.dyn two_relationships_record)
  = Some (VDictList [("regulates", ["GO:0000030"])]).
Proof. reflexivity. Qed.

Example late_format_version :
  OBOReader.format_version (reader late_format_state) = Some "1.2".
Proof. reflexivity. Qed.

Lemma get_all_parents_ancestors_witness :
  fresh diamond_fresh = true /\
  populate_terms 8 diamond_graph diamond_fresh = (diamond_heap, Ok tt) /\
  In 3 (values diamond_graph) /\
  exists d, lookup_metric Depth diamond_heap 3 = Some d /\
    forall fuel', Z.to_nat d < fuel' ->
      exists ids,
        get_all_parents fuel' diamond_heap 3 = Ok ids /\ NoDup ids /\
        forall x, In x ids <-> exists b, ancestor diamond_heap 3 b /\ id_at diamond_heap b x.
Proof.
  assert (H1 : fresh diamond_fresh = true) by (vm_compute; reflexivity).
  assert (H2 : populate_terms 8 diamond_graph diamond_fresh = (diamond_heap, Ok tt))
    by (vm_compute; reflexivity).
  assert (H3 : In 3 (values diamond_graph)) by (vm_compute; tauto).
  repeat (split; [assumption|]).
  exact (get_all_parents_ancestors 8 diamond_graph diamond_fresh diamond_heap tt 3
           H1 H2 H3).
Defined.

Lemma has_parent_in_get_all_parents_witness :
  fresh diamond_fresh = true /\
  populate_terms 8 diamond_graph diamond_fresh = (diamond_heap, Ok tt) /\
  In 3 (values diamond_graph) /\
  exists d, lookup_metric Depth diamond_heap 3 = Some d /\
    forall fuel', Z.to_nat d < fuel' ->
      exists ids,
        get_all_parents fuel' diamond_heap 3 = Ok ids /\
        has_parent fuel' diamond_heap 3 "GO:0000001" = Ok (str_in "GO:0000001" ids).
Proof.
  assert (H1 : fresh diamond_fresh = true) by (vm_compute; reflexivity).
  assert (H2 : populate_terms 8 diamond_graph diamond_fresh = (diamond_heap, Ok tt))
    by (vm_compute; reflexivity).
  assert (H3 : In 3 (values diamond_graph)) by (vm_compute; tauto).
  repeat (split; [assumption|]).
  exact (has_parent_in_get_all_parents 8 diamond_graph diamond_fresh diamond_heap tt 3
           "GO:0000001" H1 H2 H3).
Defined.

Lemma get_all_children_descendants_witness :
  fresh diamond_fresh = true /\
  populate_terms 8 diamond_graph diamond_fresh = (diamond_heap, Ok tt) /\
  In 0 (values diamond_graph) /\
  covers 3 diamond_graph diamond_heap /\
  exists ids,
    get_all_children 3 diamond_heap 0 = Ok ids /\ NoDup ids /\
    forall x, In x ids <->
      exists a, In a (values diamond_graph) /\ ancestor diamond_heap a 0 /\
        id_at diamond_heap a x.
Proof.
  assert (H1 : fresh diamond_fresh = true) by (vm_compute; reflexivity).
  assert (H2 : populate_terms 8 diamond_graph diamond_fresh = (diamond_heap, Ok tt))
    by (vm_compute; reflexivity).
  assert (H3 : In 0 (values diamond_graph)) by (vm_compute; tauto).
  pose proof diamond_covers as H4.
  repeat (split; [assumption|]).
  exact (get_all_children_descendants 8 diamond_graph diamond_fresh diamond_heap tt 0 3
           H1 H2 H3 H4).
Defined.

Lemma has_child_in_get_all_children_witness :
  fresh diamond_fresh = true /\
  populate_terms 8 diamond_graph diamond_fresh = (diamond_heap, Ok tt) /\
  In 0 (values diamond_graph) /\
  covers 3 diamond_graph diamond_heap /\
  exists ids,
    get_all_children 3 diamond_heap 0 = Ok ids /\
    has_child 3 diamond_heap 0 "GO:0000004" = Ok (str_in "GO:0000004" ids).
Proof.
  assert (H1 : fresh diamond_fresh = true) by (vm_compute; reflexivity).
  assert (H2 : populate_terms 8 diamond_graph diamond_fresh = (diamond_heap, Ok tt))
    by (vm_compute; reflexivity).
  assert (H3 : In 0 (values diamond_graph)) by (vm_compute; tauto).
  pose proof diamond_covers as H4.
  repeat (split; [assumption|]).
  exact (has_child_in_get_all_children 8 diamond_graph diamond_fresh diamond_heap tt 0 3
           "GO:0000004" H1 H2 H3 H4).
Defined.

Lemma get_all_parent_edges_links_witness :
  fresh diamond_fresh = true /\
  populate_terms 8 diamond_graph diamond_fresh = (diamond_heap, Ok tt) /\
  In 3 (values diamond_graph) /\
  exists d, lookup_metric Depth diamond_heap 3 = Some d /\
    forall fuel', Z.to_nat d < fuel' ->
      exists es,
        get_all_parent_edges fuel' diamond_heap 3 = Ok es /\ NoDup es /\
        forall e, In e es <->
          exists c tc p tp,
            (c = 3 \/ ancestor diamond_heap 3 c) /\
            diamond_heap !! c = Some tc /\ In p (GOTerm.parents tc) /\
            diamond_heap !! p = Some tp /\
            e = (GOTerm.id tc, GOTerm.id tp).
Proof.
  assert (H1 : fresh diamond_fresh = true) by (vm_compute; reflexivity).
  assert (H2 : populate_terms 8 diamond_graph diamond_fresh = (diamond_heap, Ok tt))
    by (vm_compute; reflexivity).
  assert (H3 : In 3 (values diamond_graph)) by (vm_compute; tauto).
  repeat (split; [assumption|]).
  exact (get_all_parent_edges_links 8 diamond_graph diamond_fresh diamond_heap tt 3
           H1 H2 H3).
Defined.

Lemma get_all_child_edges_links_witness :
  fresh diamond_fresh = true /\
  populate_terms 8 diamond_graph diamond_fresh = (diamond_heap, Ok tt) /\
  In 0 (values diamond_graph) /\
  covers 3 diamond_graph diamond_heap /\
  exists es,
    get_all_child_edges 3 diamond_heap 0 = Ok es /\ NoDup es /\
    forall e, In e es <->
      exists p tp c tc,
        (p = 0 \/ descendant diamond_heap 0 p) /\
        diamond_heap !! p = Some tp /\ In c (GOTerm.children tp) /\
        diamond_heap !! c = Some tc /\
        e = (GOTerm.id tc, GOTerm.id tp).
Proof.
  assert (H1 : fresh diamond_fresh = true) by (vm_compute; reflexivity).
  assert (H2 : populate_terms 8 diamond_graph diamond_fresh = (diamond_heap, Ok tt))
    by (vm_compute; reflexivity).
  assert (H3 : In 0 (values diamond_graph)) by (vm_compute; tauto).
  pose proof diamond_covers as H4.
  repeat (split; [assumption|]).
  exact (get_all_child_edges_links 8 diamond_graph diamond_fresh diamond_heap tt 0 3
           H1 H2 H3 H4).
Defined.

Lemma populate_terms_parents_resolved_witness :
  populate_terms 8 diamond_graph diamond_fresh = (diamond_heap, Ok tt) /\
  In 3 (values diamond_graph) /\
  diamond_heap !! 3 = Some diamond_bottom /\
  Forall2 (fun id p => dict_get id (GODag.terms diamond_graph) = Some p)
    (GOTerm._parents diamond_bottom) (GOTerm.parents diamond_bottom).
Proof.
  assert (H2 : populate_terms 8 diamond_graph diamond_fresh = (diamond_heap, Ok tt))
    by (vm_compute; reflexivity).
  assert (H3 : In 3 (values diamond_graph)) by (vm_compute; tauto).
  assert (H4 : diamond_heap !! 3 = Some diamond_bottom) by reflexivity.
  repeat (split; [assumption|]).
  exact (populate_terms_parents_resolved 8 diamond_graph diamond_fresh diamond_heap tt 3
           diamond_bottom H2 H3 H4).
Defined.

Lemma populate_terms_missing_parent_witness :
  In 0 (values orphan_graph) /\
  orphan_fresh !! 0 = Some orphan_term /\
  In "GO:0000099" (GOTerm._parents orphan_term) /\
  dict_get "GO:0000099" (GODag.terms orphan_graph) = None /\
  exists e, (populate_terms 8 orphan_graph orphan_fresh).2 = Raise e.
Proof.
  assert (H1 : In 0 (values orphan_graph)) by (vm_compute; tauto).
  assert (H2 : orphan_fresh !! 0 = Some orphan_term) by reflexivity.
  assert (H3 : In "GO:0000099" (GOTerm._parents orphan_term)) by (vm_compute; tauto).
  assert (H4 : dict_get "GO:0000099" (GODag.terms orphan_graph) = None) by reflexivity.
  repeat (split; [assumption|]).
  exact (populate_terms_missing_parent 8 orphan_graph orphan_fresh 0 orphan_term
           "GO:0000099" H1 H2 H3 H4).
Defined.

Example orphan_raises :
  (populate_terms 8 orphan_graph orphan_fresh).2 = Raise (KeyError "GO:0000099").
Proof. vm_compute. reflexivity. Qed.

Lemma populate_terms_child_has_parent_witness :
  fresh diamond_fresh = true /\
  (populate_terms 8 diamond_graph diamond_fresh).1 !! 0 = Some diamond_root /\
  In 1 (GOTerm.children diamond_root) /\
  In 1 (values diamond_graph) /\
  exists tc, (populate_terms 8 diamond_graph diamond_fresh).1 !! 1 = Some tc /\
    In 0 (GOTerm.parents tc).
Proof.
  assert (H1 : fresh diamond_fresh = true) by (vm_compute; reflexivity).
  assert (H2 : (populate_terms 8 diamond_graph diamond_fresh).1 !! 0 = Some diamond_root)
    by (vm_compute; reflexivity).
  assert (H3 : In 1 (GOTerm.children diamond_root)) by (vm_compute; tauto).
  repeat (split; [assumption|]).
  exact (populate_terms_child_has_parent 8 diamond_graph diamond_fresh 0 diamond_root 1
           H1 H2 H3).
Defined.

Lemma populate_terms_acyclic_witness :
  fresh diamond_fresh = true /\
  populate_terms 8 diamond_graph diamond_fresh = (diamond_heap, Ok tt) /\
  In 3 (values diamond_graph) /\
  ~ ancestor diamond_heap 3 3.
Proof.
  assert (H1 : fresh diamond_fresh = true) by (vm_compute; reflexivity).
  assert (H2 : populate_terms 8 diamond_graph diamond_fresh = (diamond_heap, Ok tt))
    by (vm_compute; reflexivity).
  assert (H3 : In 3 (values diamond_graph)) by (vm_compute; tauto).
  repeat (split; [assumption|]).
  exact (populate_terms_acyclic 8 diamond_graph diamond_fresh diamond_heap tt 3
           H1 H2 H3).
Defined.

Lemma diamond_well_ranked : well_ranked diamond_graph diamond_fresh diamond_rank.
Proof.
  intros a Ha. vm_compute in Ha.
  repeat (destruct Ha as [<- | Ha];
    [eexists; split; [reflexivity|]; split; [reflexivity|];
     intros x Hx; vm_compute in Hx;
     repeat (destruct Hx as [<- | Hx];
             [eexists; split; [reflexivity | vm_compute; lia]|]);
     destruct Hx|]).
  destruct Ha.
Qed.

Lemma populate_terms_succeeds_witness :
  well_ranked diamond_graph diamond_fresh diamond_rank /\
  (forall a, In a (values diamond_graph) -> diamond_rank a < 3) /\
  exists h', populate_terms 3 diamond_graph diamond_fresh = (h', Ok tt).
Proof.
  pose proof diamond_well_ranked as H1.
  assert (H2 : forall a, In a (values diamond_graph) -> diamond_rank a < 3).
  { intros a Ha. vm_compute in Ha.
    repeat (destruct Ha as [<- | Ha]; [vm_compute; lia|]). destruct Ha. }
  repeat (split; [assumption|]).
  exact (populate_terms_succeeds 3 diamond_graph diamond_fresh diamond_rank H1 H2).
Defined.

Lemma populate_terms_cycle_raises_witness :
  fresh cycle_fresh = true /\
  In 0 (values cycle_graph) /\
  raw_ancestor cycle_graph cycle_fresh 0 0 /\
  exists e, (populate_terms 8 cycle_graph cycle_fresh).2 = Raise e.
Proof.
  assert (H1 : fresh cycle_fresh = true) by (vm_compute; reflexivity).
  assert (H2 : In 0 (values cycle_graph)) by (vm_compute; tauto).
  assert (H3 : raw_ancestor cycle_graph cycle_fresh 0 0).
  { eapply (raw_ancestor_step _ _ 0 _ "GO:0000002" 1);
      [reflexivity | vm_compute; tauto | reflexivity |].
    eapply (raw_ancestor_parent _ _ 1 _ "GO:0000001" 0);
      [reflexivity | vm_compute; tauto | reflexivity]. }
  repeat (split; [assumption|]).
  exact (populate_terms_cycle_raises 8 cycle_graph cycle_fresh 0 H1 H2 H3).
Defined.

Example cycle_raises :
  (populate_terms 8 cycle_graph cycle_fresh).2 = Raise RecursionError.
Proof. vm_compute. reflexivity. Qed.

Lemma paths_to_top_lengths_witness :
  fresh diamond_fresh = true /\
  populate_terms 8 diamond_graph diamond_fresh = (diamond_heap, Ok tt) /\
  dict_get "GO:0000004" (GODag.terms diamond_graph) = Some 3 /\
  exists l d, lookup_metric Level diamond_heap 3 = Some l /\
    lookup_metric Depth diamond_heap 3 = Some d /\
    forall fuel', Z.to_nat d < fuel' ->
      exists paths,
        paths_to_top fuel' diamond_graph diamond_heap "GO:0000004" = Ok (Some paths) /\
        (forall path, In path paths ->
           (l + 1 <= Z.of_nat (length path) <= d + 1)%Z) /\
        (exists path, In path paths /\ Z.of_nat (length path) = (l + 1)%Z) /\
        (exists path, In path paths /\ Z.of_nat (length path) = (d + 1)%Z).
Proof.
  assert (H1 : fresh diamond_fresh = true) by (vm_compute; reflexivity).
  assert (H2 : populate_terms 8 diamond_graph diamond_fresh = (diamond_heap, Ok tt))
    by (vm_compute; reflexivity).
  assert (H3 : dict_get "GO:0000004" (GODag.terms diamond_graph) = Some 3)
    by reflexivity.
  repeat (split; [assumption|]).
  exact (paths_to_top_lengths 8 diamond_graph diamond_fresh diamond_heap tt
           "GO:0000004" 3 H1 H2 H3).
Defined.

Lemma versions_settled_witness :
  OBOReader.data_version (reader versions_read_state) = Some "releases/2017-01-01" /\
  iter_lines versions_read_state 2 late_format_lines = Ok late_format_state /\
  OBOReader.data_version (reader late_format_state) = Some "releases/2017-01-01" /\
  OBOReader.format_version (reader late_format_state)
  = OBOReader.format_version (reader versions_read_state).
Proof.
  assert (H1 : OBOReader.data_version (reader versions_read_state)
               = Some "releases/2017-01-01") by reflexivity.
  assert (H2 : iter_lines versions_read_state 2 late_format_lines = Ok late_format_state)
    by (vm_compute; reflexivity).
  do 2 (split; [assumption|]).
  exact (versions_settled versions_read_state 2 late_format_lines late_format_state
           "releases/2017-01-01" H1 H2).
Defined.

Lemma no_header_no_record_witness :
  forallb (fun line => negb (is_header line)) preamble_lines = true /\
  exists rd,
    OBOReader_iter diamond_reader preamble_lines = Ok (rd, []) /\
    OBOReader.typedefs rd = OBOReader.typedefs diamond_reader.
Proof.
  assert (H1 : forallb (fun line => negb (is_header line)) preamble_lines = true)
    by (vm_compute; reflexivity).
  split; [assumption|].
  exact (no_header_no_record diamond_reader preamble_lines H1).
Defined.

Lemma re_field_name_value_witness :
  "is_a" <> EmptyString /\
  no_space "is_a" = true /\
  is_space " " = true /\ all_space EmptyString = true /\
  is_space "G" = false /\ contains_char "010" "GO:0000001 ! root" = false /\
  re_field "is_a: GO:0000001 ! root" = Some ("is_a", "GO:0000001 ! root").
Proof.
  assert (H1 : "is_a" <> EmptyString) by discriminate.
  assert (H2 : no_space "is_a" = true) by reflexivity.
  assert (H3 : is_space " " = true) by reflexivity.
  assert (H4 : all_space EmptyString = true) by reflexivity.
  assert (H5 : is_space "G" = false) by reflexivity.
  assert (H6 : contains_char "010" "GO:0000001 ! root" = false) by reflexivity.
  repeat (split; [assumption|]).
  exact (re_field_name_value "is_a" " " EmptyString "G" "O:0000001 ! root"
           H1 H2 H3 H4 H5 H6).
Defined.

Example re_field_no_space_after_colon :
  re_field "id:GO:0000001" = Some ("id:GO", "0000001").
Proof. reflexivity. Qed.

(** A no-break space (160) or a next-line control (133) after the colon is
    white space and is skipped; it is no part of the value. *)
Example re_field_no_break_space :
  re_field ("is_a:" ++ String (ascii_of_nat 160) "GO:0000001") = Some ("is_a", "GO:0000001") /\
  re_field ("is_a: " ++ String (ascii_of_nat 133) "GO:0000001") = Some ("is_a", "GO:0000001") /\
  rstrip ("GO:0000001" ++ String (ascii_of_nat 160) nl) = "GO:0000001".
Proof. vm_compute. repeat split. Qed.

Lemma only_asked_attrs_stored_witness :
  OBOReader_iter part_of_reader two_relationships_lines
  = Ok (part_of_reader, [two_relationships_record]) /\
  In two_relationships_record [two_relationships_record] /\
  In "_relationship" (dict_keys (GOTerm.dyn two_relationships_record)) /\
  exists name, In name (OBOReader.optional_attrs part_of_reader) /\
    "_relationship" = attr_name name.
Proof.
  assert (H1 : OBOReader_iter part_of_reader two_relationships_lines
               = Ok (part_of_reader, [two_relationships_record]))
    by (vm_compute; reflexivity).
  assert (H2 : In two_relationships_record [two_relationships_record]) by (by left).
  assert (H3 : In "_relationship" (dict_keys (GOTerm.dyn two_relationships_record)))
    by (vm_compute; tauto).
  repeat (split; [assumption|]).
  exact (only_asked_attrs_stored part_of_reader two_relationships_lines part_of_reader
           [two_relationships_record] two_relationships_record "_relationship" H1 H2 H3).
Defined.

Lemma one_relationship_kept_witness :
  OBOReader_iter part_of_reader two_relationships_lines
  = Ok (part_of_reader, [two_relationships_record]) /\
  In two_relationships_record [two_relationships_record] /\
  dict_get "_relationship" (GOTerm.dyn two_relationships_record)
  = Some (VDictList [("regulates", ["GO:0000030"])]) /\
  exists typedef target, [("regulates", ["GO:0000030"])] = [(typedef, [target])].
Proof.
  assert (H1 : OBOReader_iter part_of_reader two_relationships_lines
               = Ok (part_of_reader, [two_relationships_record]))
    by (vm_compute; reflexivity).
  assert (H2 : In two_relationships_record [two_relationships_record]) by (by left).
  assert (H3 : dict_get "_relationship" (GOTerm.dyn two_relationships_record)
               = Some (VDictList [("regulates", ["GO:0000030"])])) by reflexivity.
  repeat (split; [assumption|]).
  exact (one_relationship_kept part_of_reader two_relationships_lines part_of_reader
           [two_relationships_record] two_relationships_record
           [("regulates", ["GO:0000030"])] H1 H2 H3).
Defined.

Lemma load_obo_file_index_sound_witness :
  load_obo_file 8 "go-basic.obo" diamond_lines ArgNone false
  = Ok (diamond_graph, diamond_heap) /\
  dict_get "GO:0000009" (GODag.terms diamond_graph) = Some 0 /\
  exists t, diamond_heap !! 0 = Some t /\ In "GO:0000009" (ids_of t) /\
    kept false t = true.
Proof.
  assert (H1 : load_obo_file 8 "go-basic.obo" diamond_lines ArgNone false
               = Ok (diamond_graph, diamond_heap)) by (vm_compute; reflexivity).
  assert (H2 : dict_get "GO:0000009" (GODag.terms diamond_graph) = Some 0) by reflexivity.
  repeat (split; [assumption|]).
  exact (load_obo_file_index_sound 8 "go-basic.obo" diamond_lines ArgNone false
           diamond_graph diamond_heap "GO:0000009" 0 H1 H2).
Defined.

Lemma populate_terms_resolves_relationship_witness :
  populate_terms 8 part_of_graph part_of_fresh = (part_of_heap, Ok tt) /\
  In 0 (values part_of_graph) /\
  raw_rel_b part_of_fresh 0 "part_of" "GO:0000020" = true /\
  dict_get "GO:0000020" (GODag.terms part_of_graph) = Some 1 /\
  has_rel part_of_heap 0 "part_of" 1.
Proof.
  assert (H1 : populate_terms 8 part_of_graph part_of_fresh = (part_of_heap, Ok tt))
    by (vm_compute; reflexivity).
  assert (H2 : In 0 (values part_of_graph)) by (vm_compute; tauto).
  assert (H3 : raw_rel_b part_of_fresh 0 "part_of" "GO:0000020" = true) by reflexivity.
  assert (H4 : dict_get "GO:0000020" (GODag.terms part_of_graph) = Some 1) by reflexivity.
  repeat (split; [assumption|]).
  exact (populate_terms_resolves_relationship 8 part_of_graph part_of_fresh part_of_heap
           tt 0 1 "GO:0000020" "part_of" H1 H2 H3 H4).
Defined.

Lemma populate_terms_undeclared_typedef_witness :
  In 0 (values undeclared_graph) /\
  raw_rel_b undeclared_fresh 0 "part_of" "GO:0000020" = true /\
  dict_get "GO:0000020" (GODag.terms undeclared_graph) = Some 1 /\
  dict_get "part_of" (GODag.typedefs undeclared_graph) = None /\
  exists e, (populate_terms 8 undeclared_graph undeclared_fresh).2 = Raise e.
Proof.
  assert (H1 : In 0 (values undeclared_graph)) by (vm_compute; tauto).
  assert (H2 : raw_rel_b undeclared_fresh 0 "part_of" "GO:0000020" = true) by reflexivity.
  assert (H3 : dict_get "GO:0000020" (GODag.terms undeclared_graph) = Some 1)
    by reflexivity.
  assert (H4 : dict_get "part_of" (GODag.typedefs undeclared_graph) = None) by reflexivity.
  repeat (split; [assumption|]).
  exact (populate_terms_undeclared_typedef 8 undeclared_graph undeclared_fresh 0 1
           "GO:0000020" "part_of" H1 H2 H3 H4).
Defined.

Example undeclared_raises :
  (populate_terms 8 undeclared_graph undeclared_fresh).2 = Raise (KeyError "part_of").
Proof. vm_compute. reflexivity. Qed.

Lemma update_association_adds_ancestors_witness :
  fresh diamond_fresh = true /\
  populate_terms 8 diamond_graph diamond_fresh = (diamond_heap, Ok tt) /\
  covers 3 diamond_graph diamond_heap /\
  Forall2 (fun old new =>
      new.1 = old.1 /\
      forall x, In x new.2 <->
        In x old.2 \/
        exists goid, In goid old.2 /\ ancestor_id diamond_graph diamond_heap goid x)
    diamond_association
    (update_association 3 diamond_graph diamond_heap diamond_association).1.
Proof.
  assert (H1 : fresh diamond_fresh = true) by (vm_compute; reflexivity).
  assert (H2 : populate_terms 8 diamond_graph diamond_fresh = (diamond_heap, Ok tt))
    by (vm_compute; reflexivity).
  pose proof diamond_covers as H3.
  repeat (split; [assumption|]).
  exact (update_association_adds_ancestors 8 diamond_graph diamond_fresh diamond_heap tt 3
           diamond_association H1 H2 H3).
Defined.

Lemma update_association_reports_missing_witness :
  fresh diamond_fresh = true /\
  populate_terms 8 diamond_graph diamond_fresh = (diamond_heap, Ok tt) /\
  covers 3 diamond_graph diamond_heap /\
  (In "GO:0000099" (update_association 3 diamond_graph diamond_heap diamond_association).2 <->
   exists gene goids goid,
     In (gene, goids) diamond_association /\ In goid goids /\
     dict_get goid (GODag.terms diamond_graph) = None /\ "GO:0000099" = strip goid).
Proof.
  assert (H1 : fresh diamond_fresh = true) by (vm_compute; reflexivity).
  assert (H2 : populate_terms 8 diamond_graph diamond_fresh = (diamond_heap, Ok tt))
    by (vm_compute; reflexivity).
  pose proof diamond_covers as H3.
  repeat (split; [assumption|]).
  exact (update_association_reports_missing 8 diamond_graph diamond_fresh diamond_heap tt 3
           diamond_association "GO:0000099" H1 H2 H3).
Defined.

Lemma update_association_idempotent_witness :
  fresh diamond_fresh = true /\
  populate_terms 8 diamond_graph diamond_fresh = (diamond_heap, Ok tt) /\
  covers 3 diamond_graph diamond_heap /\
  indexed_by_id diamond_graph diamond_heap /\
  (update_association 3 diamond_graph diamond_heap
     (update_association 3 diamond_graph diamond_heap diamond_association).1).1
  = (update_association 3 diamond_graph diamond_heap diamond_association).1.
Proof.
  assert (H1 : fresh diamond_fresh = true) by (vm_compute; reflexivity).
  assert (H2 : populate_terms 8 diamond_graph diamond_fresh = (diamond_heap, Ok tt))
    by (vm_compute; reflexivity).
  pose proof diamond_covers as H3.
  pose proof diamond_indexed_by_id as H4.
  repeat (split; [assumption|]).
  exact (update_association_idempotent 8 diamond_graph diamond_fresh diamond_heap tt 3
           diamond_association H1 H2 H3 H4).
Defined.

